(** * Gervill source mirror: a shallow embedding of [index.js]

    The script mirrors part of the OpenJDK source tree and derives renamed
    and comparison copies of every file.  This development embeds its text
    processing (the regular expressions and the string methods they are
    used with) and its effectful routines (remote fetches, file system
    calls) and proves the properties listed at the end of the file. *)

From Stdlib Require Import NArith List String Ascii Lia Bool Arith DecimalNat.
From stdpp Require Import gmap.
Import ListNotations.

Local Open Scope N_scope.
Local Open Scope list_scope.

(** ** JavaScript strings

    A JavaScript string is a sequence of UTF-16 code units; a code unit is
    modelled as a natural number in binary ([N]).  [str] turns a literal of
    the development into such a sequence. *)

Abbreviation jsstring := (list N) (only parsing).

Definition str (s : string) : jsstring :=
  map N_of_ascii (list_ascii_of_string s).

(** ECMAScript [LineTerminator]: LF, CR, LS, PS. *)
Definition is_line_terminator (c : N) : bool :=
  (c =? 10) || (c =? 13) || (c =? 8232) || (c =? 8233).

(** ECMAScript [WhiteSpace] together with [LineTerminator]: the set matched
    by the class escape [\s] and removed by [String.prototype.trim]. *)
Definition is_whitespace (c : N) : bool :=
  (c =? 9) || (c =? 11) || (c =? 12) || (c =? 32) || (c =? 160)
  || (c =? 5760) || ((8192 <=? c) && (c <=? 8202))
  || (c =? 8239) || (c =? 8287) || (c =? 12288) || (c =? 65279)
  || is_line_terminator c.

(** The class escape [\w]: ASCII letters, digits and underscore. *)
Definition is_word_char (c : N) : bool :=
  ((97 <=? c) && (c <=? 122)) || ((65 <=? c) && (c <=? 90))
  || ((48 <=? c) && (c <=? 57)) || (c =? 95).

Fixpoint is_prefix (p s : jsstring) : bool :=
  match p, s with
  | [], _ => true
  | a :: p', b :: s' => (a =? b) && is_prefix p' s'
  | _ :: _, [] => false
  end.

Definition jseq (a b : jsstring) : bool :=
  (length a =? length b)%nat && is_prefix a b.

(** [s.endsWith(suffix)] *)
Definition endsWith (s suffix : jsstring) : bool :=
  is_prefix (rev suffix) (rev s).

(** [s.trim()] *)
Fixpoint trimStart (s : jsstring) : jsstring :=
  match s with
  | c :: s' => if is_whitespace c then trimStart s' else s
  | [] => []
  end.

Definition trim (s : jsstring) : jsstring :=
  rev (trimStart (rev (trimStart s))).

(** [s.split(sep)] for a separator of one code unit: the pieces between
    the occurrences of [sep]; [cur] holds the piece being read. *)
Fixpoint split_on_from (sep : N) (cur : jsstring) (s : jsstring)
  : list jsstring :=
  match s with
  | [] => [cur]
  | c :: s' =>
      if c =? sep then cur :: split_on_from sep [] s'
      else split_on_from sep (cur ++ [c]) s'
  end.

Definition split_on (sep : N) (s : jsstring) : list jsstring :=
  split_on_from sep [] s.

(** ** Regular expressions

    The patterns of the script are written in the abstract syntax below and
    run by a backtracking matcher in the continuation style of the
    ECMAScript specification: alternatives are tried left to right,
    quantifiers are greedy, a capture group records the text it matched, a
    back-reference matches the text of its group again.  Capture groups are
    numbered by the position of their opening parenthesis, counting from 1.
    None of the patterns puts a capture group under a quantifier, so the
    matcher does not reset captures between iterations. *)

Inductive regex : Type :=
| Eps
| Lit (s : jsstring)
| Class (p : N -> bool)
| Seq (r1 r2 : regex)
| Alt (r1 r2 : regex)
| Star (r : regex)
| Group (r : regex)
| Backref (n : nat)
| Lookahead (r : regex)
| Bol
| Eol.

Definition Plus (r : regex) : regex := Seq r (Star r).

Fixpoint ngroups (r : regex) : nat :=
  match r with
  | Seq r1 r2 | Alt r1 r2 => (ngroups r1 + ngroups r2)%nat
  | Star r' | Lookahead r' => ngroups r'
  | Group r' => S (ngroups r')
  | _ => 0%nat
  end.

(** The matcher state: the index of the current position in the subject,
    the text from that position on, and the captures made so far. *)
Record mstate : Type := MState {
  ms_idx : nat;
  ms_rest : jsstring;
  ms_caps : list (nat * jsstring)
}.

Fixpoint cap_lookup (n : nat) (caps : list (nat * jsstring))
  : option jsstring :=
  match caps with
  | [] => None
  | (k, v) :: caps' => if (k =? n)%nat then Some v else cap_lookup n caps'
  end.

Definition advance (n : nat) (st : mstate) : mstate :=
  MState (ms_idx st + n) (skipn n (ms_rest st)) (ms_caps st).

Definition match_text (p : jsstring) (st : mstate)
    (k : mstate -> option mstate) : option mstate :=
  if is_prefix p (ms_rest st) then k (advance (length p) st) else None.

Definition or_else {A} (a : option A) (b : unit -> option A) : option A :=
  match a with
  | Some x => Some x
  | None => b tt
  end.

Section Matcher.
Variable rmatch : nat -> mstate -> (mstate -> option mstate) -> option mstate.

(** One greedy iteration after the other; an iteration that consumes
    nothing is not repeated. *)
Fixpoint star_loop (fuel : nat) (g : nat) (st : mstate)
    (k : mstate -> option mstate) : option mstate :=
  match fuel with
  | O => k st
  | S fuel' =>
      or_else
        (rmatch g st (fun st' =>
           if (ms_idx st' =? ms_idx st)%nat then None
           else star_loop fuel' g st' k))
        (fun _ => k st)
  end.
End Matcher.

Fixpoint rmatch (r : regex) (g : nat) (st : mstate)
    (k : mstate -> option mstate) {struct r} : option mstate :=
  match r with
  | Eps => k st
  | Lit s => match_text s st k
  | Class p =>
      match ms_rest st with
      | c :: _ => if p c then k (advance 1 st) else None
      | [] => None
      end
  | Seq r1 r2 =>
      rmatch r1 g st (fun st' => rmatch r2 (g + ngroups r1) st' k)
  | Alt r1 r2 =>
      or_else (rmatch r1 g st k)
              (fun _ => rmatch r2 (g + ngroups r1) st k)
  | Star r' => star_loop (rmatch r') (length (ms_rest st)) g st k
  | Group r' =>
      rmatch r' (S g) st (fun st' =>
        k (MState (ms_idx st') (ms_rest st')
             ((g, firstn (ms_idx st' - ms_idx st) (ms_rest st))
                :: ms_caps st')))
  | Backref n =>
      match cap_lookup n (ms_caps st) with
      | Some s => match_text s st k
      | None => k st
      end
  | Lookahead r' =>
      match rmatch r' g st Some with
      | Some st' => k (MState (ms_idx st) (ms_rest st) (ms_caps st'))
      | None => None
      end
  | Bol => if (ms_idx st =? 0)%nat then k st else None
  | Eol => match ms_rest st with [] => k st | _ :: _ => None end
  end.

(** The result of a successful match: the matched text, the captures of
    groups 1 .. n ([None] is JavaScript's [undefined]) and the text that
    follows the match. *)
Record rmatch_result : Type := MatchResult {
  m_text : jsstring;
  m_groups : list (option jsstring);
  m_after : jsstring;
  m_end : nat
}.

(** The pattern tried at one position of the subject. *)
Definition match_at (r : regex) (idx : nat) (s : jsstring)
  : option rmatch_result :=
  match rmatch r 1 (MState idx s []) Some with
  | Some st =>
      Some (MatchResult (firstn (ms_idx st - idx) s)
              (map (fun n => cap_lookup n (ms_caps st))
                   (seq 1 (ngroups r)))
              (ms_rest st) (ms_idx st))
  | None => None
  end.

(** The first match at or after the current position, with the text that
    was skipped to reach it ([RegExp.prototype.exec] without the sticky
    flag). *)
Fixpoint search (r : regex) (idx : nat) (s : jsstring)
  : option (jsstring * rmatch_result) :=
  match match_at r idx s with
  | Some m => Some ([], m)
  | None =>
      match s with
      | [] => None
      | c :: s' =>
          match search r (S idx) s' with
          | Some (skipped, m) => Some (c :: skipped, m)
          | None => None
          end
      end
  end.

(** [s.replace(r, f)] for a pattern with the global flag: every match,
    found left to right from the end of the previous one, is replaced by
    what the callback returns.  After an empty match the search moves on
    by one code unit. *)
Fixpoint replace_loop (fuel : nat) (r : regex)
    (f : rmatch_result -> jsstring) (idx : nat) (s : jsstring) : jsstring :=
  match fuel with
  | O => s
  | S fuel' =>
      match search r idx s with
      | None => s
      | Some (skipped, m) =>
          skipped ++ f m ++
          match m_text m, m_after m with
          | [], [] => []
          | [], c :: s' => c :: replace_loop fuel' r f (S (m_end m)) s'
          | _ :: _, s' => replace_loop fuel' r f (m_end m) s'
          end
      end
  end.

Definition replace_global (r : regex) (f : rmatch_result -> jsstring)
    (s : jsstring) : jsstring :=
  replace_loop (S (length s)) r f 0 s.

(** [s.replace(r, f)] for a pattern without the global flag: the first
    match only. *)
Definition replace_first (r : regex) (f : rmatch_result -> jsstring)
    (s : jsstring) : jsstring :=
  match search r 0 s with
  | None => s
  | Some (skipped, m) => skipped ++ f m ++ m_after m
  end.

(** [s.match(r)] for a pattern with the global flag: the texts of all
    matches, or [None] (JavaScript's [null]) when there is none. *)
Fixpoint match_loop (fuel : nat) (r : regex) (idx : nat) (s : jsstring)
  : list jsstring :=
  match fuel with
  | O => []
  | S fuel' =>
      match search r idx s with
      | None => []
      | Some (_, m) =>
          m_text m ::
          match m_text m, m_after m with
          | [], [] => []
          | [], _ :: s' => match_loop fuel' r (S (m_end m)) s'
          | _ :: _, s' => match_loop fuel' r (m_end m) s'
          end
      end
  end.

Definition match_global (r : regex) (s : jsstring) : option (list jsstring) :=
  match match_loop (S (length s)) r 0 s with
  | [] => None
  | l => Some l
  end.

(** [s.split(r)]: the pattern is tried at every position [q] before the
    end of the subject; a match that ends after the start [p] of the
    current piece closes the piece, and the next piece starts where the
    match ends.  [cur] is the text between [p] and [q].  The one pattern
    the script splits with has no capture group, so no captures are
    spliced between the pieces. *)
Fixpoint split_loop (fuel : nat) (r : regex) (p q : nat)
    (cur : jsstring) (s : jsstring) : list jsstring :=
  match fuel with
  | O => [cur ++ s]
  | S fuel' =>
      match s with
      | [] => [cur]
      | c :: s' =>
          match match_at r q s with
          | Some m =>
              if (m_end m =? p)%nat
              then split_loop fuel' r p (S q) (cur ++ [c]) s'
              else cur :: split_loop fuel' r (m_end m) (m_end m) []
                             (m_after m)
          | None => split_loop fuel' r p (S q) (cur ++ [c]) s'
          end
      end
  end.

Definition split_regex (r : regex) (s : jsstring) : list jsstring :=
  match s with
  | [] => match match_at r 0 [] with Some _ => [] | None => [[]] end
  | _ :: _ => split_loop (S (2 * length s)) r 0 0 [] s
  end.

Infix "<.>" := Seq (at level 41, right associativity).
Infix "<|>" := Alt (at level 42, right associativity).

Definition ws : regex := Class is_whitespace.
Definition not_whitespace (c : N) : bool := negb (is_whitespace c).
Definition nonws : regex := Class not_whitespace.

(** ** The patterns of the script *)

(** [/\.|\/|\\|\\\\/] *)
Definition gervillSeparatorRegex : regex :=
  Lit (str ".") <|> Lit (str "/") <|> Lit [92] <|> Lit [92; 92].

(** [params.join(`\\${n}`)]: the components with a back-reference to group
    [n] between them. *)
Fixpoint join_backref (n : nat) (params : list jsstring) : regex :=
  match params with
  | [] => Eps
  | [p] => Lit p
  | p :: params' => Lit p <.> Backref n <.> join_backref n params'
  end.

(** [createGervillRegexSource]: the pattern for one dotted package name and
    the next value of the counter [id].  The function returns the source
    text of the pattern, [createGervillRegexSourceText] below; the
    components of the package names of the script are identifiers, and for
    such components the text is read as the pattern given here
    ([parse_pattern]).  The counter is read and incremented when the
    separator of the join is built, whether or not the join uses it. *)
Definition createGervillRegexSource (path : jsstring) (id : nat)
  : regex * nat :=
  match split_on 46 path with
  | [] => (Eps, id)
  | [param1] => (Lit param1, id)
  | param1 :: params =>
      (Lit param1 <.> Group gervillSeparatorRegex <.> join_backref id params,
       S id)
  end.

Definition packages : list jsstring :=
  [str "javax.sound"; str "com.sun.media.sound"].

(** [packages.map(createGervillRegexSource).join('|')], the counter
    threaded through the calls from left to right. *)
Fixpoint gervillAlternatives (pkgs : list jsstring) (id : nat) : regex :=
  match pkgs with
  | [] => Eps
  | [p] => fst (createGervillRegexSource p id)
  | p :: pkgs' =>
      let (r, id') := createGervillRegexSource p id in
      r <|> gervillAlternatives pkgs' id'
  end.

Definition gervillRegex : regex := gervillAlternatives packages 1.

(** The header pattern: [^], any code units ([\s\S], greedy star), the
    word package, [\s+\S+;], optional white space, and any number of import
    clauses [import\s+\S+;] each followed by optional white space. *)
Definition packageAndImportsRegex : regex :=
  Bol <.> Star (Class (fun c => is_whitespace c || negb (is_whitespace c)))
  <.> Lit (str "package") <.> Plus ws <.> Plus nonws <.> Lit (str ";")
  <.> Star ws
  <.> Star (Lit (str "import") <.> Plus ws <.> Plus nonws <.> Lit (str ";")
            <.> Star ws).

(** [/\{@link([^{}]+)\}/] *)
Definition not_brace (c : N) : bool := negb ((c =? 123) || (c =? 125)).

Definition commentsLinkRegex : regex :=
  Lit (str "{@link") <.> Group (Plus (Class not_brace)) <.> Lit (str "}").

(** [/(?:@(throws|see))/] *)
Definition throwsOrSeeRegex : regex :=
  Lit (str "@") <.> Group (Lit (str "throws") <|> Lit (str "see")).

Definition finalCommentsLinkRegex : regex :=
  commentsLinkRegex <|> throwsOrSeeRegex.

(** [/\/(?=\w+.java)/], the pattern [fetchFile] splits a path with; the
    dot of the pattern stands for any code unit but a line terminator. *)
Definition not_line_terminator (c : N) : bool := negb (is_line_terminator c).

Definition fileLookahead : regex :=
  Plus (Class is_word_char) <.> Class not_line_terminator
  <.> Lit (str "java").

Definition fileSplitRegex : regex :=
  Lit (str "/") <.> Lookahead fileLookahead.

(** [/\/$/] *)
Definition trailingSlashRegex : regex := Lit (str "/") <.> Eol.

(** [/\S+$/g] *)
Definition lastTokenRegex : regex := Plus nonws <.> Eol.

(** ** Errors and outcomes

    A routine of the script returns, throws (an [async] function then
    rejects its promise), or, for the two recursive walks of the model,
    runs out of the recursion budget it was given. *)

Inductive error : Type :=
| TypeError
| TransportError
| FilesystemError
| UnrecognizedFlag (flag : option jsstring).

Inductive outcome (A : Type) : Type :=
| Done (a : A)
| Throw (e : error)
| OutOfFuel.

Arguments Done {A} a.
Arguments Throw {A} e.
Arguments OutOfFuel {A}.

(** ** The directory lister, text part *)

Record ListingEntry : Type := Entry {
  isDirectory : bool;
  name : jsstring
}.

(** [entry => entry[0] === 'd'] *)
Definition entryIsDirectory (entry : jsstring) : bool :=
  match entry with
  | c :: _ => c =? 100
  | [] => false
  end.

(** The filter of [getFileListing]. *)
Definition keepEntry (entry : jsstring) : bool :=
  negb (jseq (trim entry) [])
  && (endsWith entry (str ".java") || entryIsDirectory entry).

(** The mapped function of [getFileListing]: [entry.match(...)] is [null]
    when nothing matches, and indexing [null] throws a [TypeError]. *)
Definition toEntry (entry : jsstring) : outcome ListingEntry :=
  match match_global lastTokenRegex entry with
  | Some (first :: _) => Done (Entry (entryIsDirectory entry) first)
  | _ => Throw TypeError
  end.

(** [Array.prototype.map] with a callback that may throw: the first throw
    ends the whole call. *)
Fixpoint map_outcome {A B} (f : A -> outcome B) (l : list A)
  : outcome (list B) :=
  match l with
  | [] => Done []
  | a :: l' =>
      match f a with
      | Done b =>
          match map_outcome f l' with
          | Done bs => Done (b :: bs)
          | Throw e => Throw e
          | OutOfFuel => OutOfFuel
          end
      | Throw e => Throw e
      | OutOfFuel => OutOfFuel
      end
  end.

(** What [getFileListing] makes of the listing document it received. *)
Definition parseListing (doc : jsstring) : outcome (list ListingEntry) :=
  map_outcome toEntry (List.filter keepEntry (split_on 10 doc)).

(** ** The rewrite engine, text part *)

(** The callback of the first [replace] of [createFileCopies]: [rest]
    holds the captures (then the offset and the subject, which the loop
    does not reach: the pattern has one group for each of the two
    packages); the first capture that is truthy, a non-empty string, is
    echoed after the prefix.  A callback that returns nothing yields
    [undefined], which [replace] turns into text. *)
Fixpoint gervillCallbackLoop (count : nat) (rest : list (option jsstring))
    (matched : jsstring) : option jsstring :=
  match count with
  | O => None
  | S count' =>
      match rest with
      | Some (c :: sep) :: _ => Some (str "gervill" ++ (c :: sep) ++ matched)
      | _ :: rest' => gervillCallbackLoop count' rest' matched
      | [] => None
      end
  end.

Definition to_text (v : option jsstring) : jsstring :=
  match v with
  | Some s => s
  | None => str "undefined"
  end.

Definition gervillCallback (m : rmatch_result) : jsstring :=
  to_text (gervillCallbackLoop (length packages) (m_groups m) (m_text m)).

(** [coalesce(a, b)]: [a == null ? b : a] *)
Definition coalesce {A} (a b : option A) : option A :=
  match a with
  | None => b
  | Some _ => a
  end.

Definition docTagCallback (m : rmatch_result) : jsstring :=
  to_text (coalesce (nth 0 (m_groups m) None) (nth 1 (m_groups m) None)).

Definition packagePass (content : jsstring) : jsstring :=
  replace_global gervillRegex gervillCallback content.

Definition docTagPass (content : jsstring) : jsstring :=
  replace_global finalCommentsLinkRegex docTagCallback content.

(** [newFileContent] of [createFileCopies]: the renamed copy. *)
Definition newFileContent (originalContent : jsstring) : jsstring :=
  docTagPass (packagePass originalContent).

(** [cleanForComparison], over the external comment stripper. *)
Definition cleanForComparison (strip : jsstring -> jsstring)
    (contents : jsstring) : jsstring :=
  strip (replace_first packageAndImportsRegex (fun _ => []) contents).

(** ** Notions used to state the properties *)

(** The longest prefix of code units that satisfy [p], and what follows
    it. *)
Fixpoint take_while (p : N -> bool) (s : jsstring) : jsstring :=
  match s with
  | c :: s' => if p c then c :: take_while p s' else []
  | [] => []
  end.

Fixpoint drop_while (p : N -> bool) (s : jsstring) : jsstring :=
  match s with
  | c :: s' => if p c then drop_while p s' else s
  | [] => []
  end.

(** [st'] is a position of the subject at or after [st]. *)
Definition later (st st' : mstate) : Prop :=
  exists w, ms_rest st = w ++ ms_rest st'
            /\ ms_idx st' = (ms_idx st + length w)%nat.

(** Patterns without the assertion [^] match the same way wherever the
    text stands in the subject. *)
Fixpoint bol_free (r : regex) : bool :=
  match r with
  | Bol => false
  | Seq r1 r2 | Alt r1 r2 => bol_free r1 && bol_free r2
  | Star r' | Group r' | Lookahead r' => bol_free r'
  | _ => true
  end.

Definition shift (d : nat) (st : mstate) : mstate :=
  MState (d + ms_idx st) (ms_rest st) (ms_caps st).

Definition shift_result (d : nat) (m : rmatch_result) : rmatch_result :=
  MatchResult (m_text m) (m_groups m) (m_after m) (d + m_end m).

(** A greedy star over a character class, by recursion on the text. *)
Fixpoint star_class (p : N -> bool) (idx : nat) (s : jsstring)
    (caps : list (nat * jsstring)) (k : mstate -> option mstate)
  : option mstate :=
  match s with
  | c :: s' =>
      if p c
      then or_else (star_class p (S idx) s' caps k)
                   (fun _ => k (MState idx s caps))
      else k (MState idx s caps)
  | [] => k (MState idx [] caps)
  end.

(** A match result with more text after it. *)
Definition extend_after (t : jsstring) (m : rmatch_result) : rmatch_result :=
  MatchResult (m_text m) (m_groups m) (m_after m ++ t) (m_end m).

(** No match that starts in [x] needs or reaches the text [y] that follows
    it: at every position of [x] the pattern behaves as if [x] ended the
    subject. *)
Definition local_in (r : regex) (x y : jsstring) : Prop :=
  forall x1 x2, x = x1 ++ x2 -> x2 <> [] ->
    match_at r 0 (x2 ++ y) = option_map (extend_after y) (match_at r 0 x2).

(** The texts the separator group can capture, in the order of its
    alternatives. *)
Definition separators : list jsstring := [[46]; [47]; [92]; [92; 92]].

(** A dotted name with [sep] in the place of every dot. *)
Fixpoint join_with (sep : jsstring) (parts : list jsstring) : jsstring :=
  match parts with
  | [] => []
  | [p] => p
  | p :: parts' => p ++ sep ++ join_with sep parts'
  end.

Definition dotted (sep : jsstring) (pkg : jsstring) : jsstring :=
  join_with sep (split_on 46 pkg).

(** The texts the package pattern matches, each with the captures it
    leaves, in the order the pattern tries them. *)
Definition gervillShapes : list (jsstring * list (option jsstring)) :=
  map (fun sep => (dotted sep (str "javax.sound"), [Some sep; None]))
      separators
  ++ map (fun sep => (dotted sep (str "com.sun.media.sound"),
                      [None; Some sep]))
         separators.

Definition shape_match (shapes : list (jsstring * list (option jsstring)))
    (idx : nat) (s : jsstring) : option rmatch_result :=
  match find (fun sh => is_prefix (fst sh) s) shapes with
  | Some (t, gs) =>
      Some (MatchResult t gs (skipn (length t) s) (idx + length t))
  | None => None
  end.

(** What the doc-tag pattern matches at the start of [s]: a link tag with
    its non-empty, brace-free inner text, or one of the two tag keywords
    behind an at-sign. *)
Definition docTagShape (idx : nat) (s : jsstring) : option rmatch_result :=
  if is_prefix (str "{@link") s then
    let s1 := skipn 6 s in
    match take_while not_brace s1, drop_while not_brace s1 with
    | c :: inner, 125 :: after =>
        Some (MatchResult (str "{@link" ++ (c :: inner) ++ str "}")
                [Some (c :: inner); None] after
                (idx + (7 + length (c :: inner))))
    | _, _ => None
    end
  else if is_prefix (str "@throws") s then
    Some (MatchResult (str "@throws") [None; Some (str "throws")]
            (skipn 7 s) (idx + 7))
  else if is_prefix (str "@see") s then
    Some (MatchResult (str "@see") [None; Some (str "see")]
            (skipn 4 s) (idx + 4))
  else None.

(** [x] ends inside a link tag that is not closed: some suffix of [x]
    starts with the opener of a link tag and has no brace after it. *)
Fixpoint open_link (x : jsstring) : bool :=
  match x with
  | [] => false
  | _ :: x' =>
      (is_prefix (str "{@link") x
       && match drop_while not_brace (skipn 6 x) with
          | [] => true
          | _ :: _ => false
          end)
      || open_link x'
  end.

(** The text [y] does not begin with the end of an opener or of a tag
    keyword. *)
Definition no_tag_tail (y : jsstring) : Prop :=
  forall t, In t [str "{@link"; str "@throws"; str "@see"] ->
  forall k, (1 <= k < length t)%nat -> is_prefix (skipn k t) y = false.

(** Neither a brace nor an at-sign. *)
Definition plain_char (c : N) : bool := not_brace c && negb (c =? 64).

(** The last code unit of the line is white space. *)
Definition ends_with_whitespace (line : jsstring) : bool :=
  match rev line with
  | c :: _ => is_whitespace c
  | [] => false
  end.

(** The final white-space-delimited token of a line: its longest suffix
    free of white space. *)
Definition final_token (line : jsstring) : jsstring :=
  rev (take_while not_whitespace (rev line)).

(** ** The collaborators of the script

    The remote server, the file system and the comment stripper are not
    part of the script.  A [world] gives each of them as a function of a
    state the script cannot see otherwise; nothing is assumed of their
    behaviour.  [http_get] answers a request for a remote path with the body
    of the response, or with nothing when the transport fails; the file
    system calls either succeed or reject. *)

Record dirent : Type := Dirent {
  dirent_name : jsstring;
  dirent_isDirectory : bool
}.

Record world : Type := World {
  wstate : Type;
  http_get : jsstring -> wstate -> option jsstring * wstate;
  fs_mkdir : jsstring -> wstate -> bool * wstate;
  fs_writeFile : jsstring -> jsstring -> wstate -> bool * wstate;
  fs_readFile : jsstring -> wstate -> option jsstring * wstate;
  fs_opendir : jsstring -> wstate -> option (list dirent) * wstate;
  strip : jsstring -> jsstring
}.

(** The calls the script makes, in the order it makes them.  A request to
    the server is recorded with the routine that issued it: the directory
    lister or the per-file download. *)
Inductive event : Type :=
| EListing (path : jsstring)
| EDownload (path : jsstring)
| EMkdir (path : jsstring)
| EWriteFile (path content : jsstring)
| EReadFile (path : jsstring)
| EOpendir (path : jsstring)
| ELog (message : jsstring).

Inductive request_kind : Type := ForListing | ForFile.

Definition request_event (kind : request_kind) (path : jsstring) : event :=
  match kind with
  | ForListing => EListing path
  | ForFile => EDownload path
  end.

(** A routine of the script: from a state of the world to an outcome, the
    state it leaves and the calls it made. *)
Definition M (S A : Type) : Type := S -> outcome A * S * list event.

Definition ret {S A} (a : A) : M S A := fun w => (Done a, w, []).

Definition throw {S A} (e : error) : M S A := fun w => (Throw e, w, []).

Definition out_of_fuel {S A} : M S A := fun w => (OutOfFuel, w, []).

Definition bind {S A B} (m : M S A) (k : A -> M S B) : M S B :=
  fun w =>
    match m w with
    | (Done a, w1, ev1) =>
        match k a w1 with
        | (r, w2, ev2) => (r, w2, ev1 ++ ev2)
        end
    | (Throw e, w1, ev1) => (Throw e, w1, ev1)
    | (OutOfFuel, w1, ev1) => (OutOfFuel, w1, ev1)
    end.

Notation "x <- m ;; k" := (bind m (fun x => k))
  (at level 100, m at next level, right associativity).
Notation "m ;;; k" := (bind m (fun _ => k))
  (at level 100, right associativity).

Definition lift_outcome {S A} (o : outcome A) : M S A := fun w => (o, w, []).

(** [for (const x of l) await body(x)] *)
Fixpoint for_each {S A} (l : list A) (body : A -> M S unit) : M S unit :=
  match l with
  | [] => ret tt
  | a :: l' => body a ;;; for_each l' body
  end.

Definition events_of {S A} (r : outcome A * S * list event) : list event :=
  snd r.

Definition outcome_of {S A} (r : outcome A * S * list event) : outcome A :=
  fst (fst r).

Definition state_of {S A} (r : outcome A * S * list event) : S :=
  snd (fst r).

(** The output trees. *)
Definition originalTree : jsstring := str "original/".
Definition renamedTree : jsstring :=
  str "../gervill-control/output/src/gervill/".
Definition originalCompTree : jsstring :=
  str "../gervill-control/comp/original-comp/".
Definition renamedCompTree : jsstring :=
  str "../gervill-control/comp/gervill-comp/".

Section Script.
Variable E : world.

(** [skipclasses.json] is not part of the sources at hand; the set built
    from it is a parameter of the script. *)
Variable skipclasses : gset (list N).

Abbreviation Run := (M (wstate E)).

(** [getFileContentsAsString], with the routine that asks. *)
Definition getFileContentsAsString (kind : request_kind) (path : jsstring)
  : Run jsstring :=
  fun w =>
    match http_get E path w with
    | (Some data, w') => (Done data, w', [request_event kind path])
    | (None, w') => (Throw TransportError, w', [request_event kind path])
    end.

Definition mkdir (path : jsstring) : Run unit :=
  fun w =>
    match fs_mkdir E path w with
    | (true, w') => (Done tt, w', [EMkdir path])
    | (false, w') => (Throw FilesystemError, w', [EMkdir path])
    end.

Definition writeFile (path content : jsstring) : Run unit :=
  fun w =>
    match fs_writeFile E path content w with
    | (true, w') => (Done tt, w', [EWriteFile path content])
    | (false, w') => (Throw FilesystemError, w', [EWriteFile path content])
    end.

Definition readFile (path : jsstring) : Run jsstring :=
  fun w =>
    match fs_readFile E path w with
    | (Some data, w') => (Done data, w', [EReadFile path])
    | (None, w') => (Throw FilesystemError, w', [EReadFile path])
    end.

Definition opendir (path : jsstring) : Run (list dirent) :=
  fun w =>
    match fs_opendir E path w with
    | (Some entries, w') => (Done entries, w', [EOpendir path])
    | (None, w') => (Throw FilesystemError, w', [EOpendir path])
    end.

Definition console_log (message : jsstring) : Run unit :=
  fun w => (Done tt, w, [ELog message]).

Definition getFileListing (path : jsstring) : Run (list ListingEntry) :=
  doc <- getFileContentsAsString ForListing path ;;
  lift_outcome (parseListing doc).

(** [createFileCopies].  Its [directory] and [filename] are spliced into
    template literals, where [undefined] reads as text. *)
Definition createFileCopies (directory filename : option jsstring)
    (originalContent : jsstring) : Run unit :=
  mkdir (renamedTree ++ to_text directory) ;;;
  mkdir (originalCompTree ++ to_text directory) ;;;
  mkdir (renamedCompTree ++ to_text directory) ;;;
  let newContent := newFileContent originalContent in
  let path := to_text directory ++ str "/" ++ to_text filename in
  writeFile (renamedTree ++ path) newContent ;;;
  writeFile (originalCompTree ++ path)
            (cleanForComparison (strip E) originalContent) ;;;
  writeFile (renamedCompTree ++ path)
            (cleanForComparison (strip E) newContent).

Definition fetchFileAux (directory filename : option jsstring)
    (makeCopies : bool) : Run unit :=
  mkdir (originalTree ++ to_text directory) ;;;
  let path := to_text directory ++ str "/" ++ to_text filename in
  console_log (str "downloading " ++ path) ;;;
  originalContent <- getFileContentsAsString ForFile path ;;
  console_log (str "saving      " ++ path) ;;;
  writeFile (originalTree ++ path) originalContent ;;;
  if makeCopies then createFileCopies directory filename originalContent
  else ret tt.

(** [fetchFile]: the first two pieces of the split are the directory and
    the file name; a piece that is not there is [undefined]. *)
Definition fetchFile (path : jsstring) (makeCopies : bool) : Run unit :=
  let parts := split_regex fileSplitRegex path in
  fetchFileAux (nth_error parts 0) (nth_error parts 1) makeCopies.

(** The body of the loop of [fetchDirectoryAux], over the recursive call
    for a sub-directory. *)
Definition fetchEntry (recur : jsstring -> bool -> Run unit)
    (directory : jsstring) (makeCopies : bool) (entry : ListingEntry)
  : Run unit :=
  let fileOrDirName := directory ++ str "/" ++ name entry in
  if isDirectory entry then recur fileOrDirName makeCopies
  else if negb (bool_decide (fileOrDirName ∈ skipclasses))
       then fetchFileAux (Some directory) (Some (name entry)) makeCopies
       else ret tt.

(** [fetchDirectoryAux]; [fuel] bounds the depth of the recursion. *)
Fixpoint fetchDirectoryAux (fuel : nat) (directory : jsstring)
    (makeCopies : bool) : Run unit :=
  match fuel with
  | O => out_of_fuel
  | S fuel' =>
      fileListing <- getFileListing directory ;;
      for_each fileListing
        (fetchEntry (fetchDirectoryAux fuel') directory makeCopies)
  end.

Definition fetchDirectory (fuel : nat) (path : jsstring) (makeCopies : bool)
  : Run unit :=
  fetchDirectoryAux fuel (replace_first trailingSlashRegex (fun _ => []) path)
    makeCopies.

Definition createCopiesOfSingleFileAux (directory filename : option jsstring)
  : Run unit :=
  originalContent <-
    readFile (originalTree ++ to_text directory ++ str "/"
              ++ to_text filename) ;;
  createFileCopies directory filename originalContent.

Definition createCopiesOfSingleFile (path : jsstring) : Run unit :=
  let parts := split_regex fileSplitRegex path in
  createCopiesOfSingleFileAux (nth_error parts 0) (nth_error parts 1).

Definition copyEntry (recur : jsstring -> Run unit) (directory : jsstring)
    (d : dirent) : Run unit :=
  if dirent_isDirectory d
  then recur (directory ++ str "/" ++ dirent_name d)
  else createCopiesOfSingleFileAux (Some directory) (Some (dirent_name d)).

(** [createCopiesOfFilesInDir]; [fuel] bounds the depth of the recursion. *)
Fixpoint createCopiesOfFilesInDir (fuel : nat) (directory : jsstring)
  : Run unit :=
  match fuel with
  | O => out_of_fuel
  | S fuel' =>
      dir <- opendir (originalTree ++ directory) ;;
      for_each dir (copyEntry (createCopiesOfFilesInDir fuel') directory)
  end.

Definition createCopiesOfFiles (fuel : nat) : Run unit :=
  createCopiesOfFilesInDir fuel [].

(** [main], on the flag [process.argv[2]]. *)
Definition main (fuel : nat) (flag : option jsstring) : Run unit :=
  match flag with
  | Some f =>
      if jseq f (str "-d") then
        fetchDirectory fuel (str "javax/sound/midi") false ;;;
        fetchDirectory fuel (str "javax/sound/sampled") false ;;;
        fetchDirectory fuel (str "com/sun/media/sound") false
      else if jseq f (str "-c") then createCopiesOfFiles fuel
      else throw (UnrecognizedFlag flag)
  | None => throw (UnrecognizedFlag flag)
  end.

End Script.

(** ** A file system and a server to run the script against

    A world in the manner of Node on a POSIX file system, used where a
    property depends on what the file system does.  A path is resolved to
    its non-empty segments, each taken for a name; a leading [..] is kept
    as a segment, the parent of the working directory being one more
    directory of the model.  This is what the file system does for paths
    that have no [.] segment and no [..] segment after a name; the world
    [posix_world] below resolves those too.  A directory maps to the names
    of its entries in directory order, a file to its content. *)

Record disk : Type := Disk {
  d_files : gmap (list (list N)) (list N);
  d_dirs : gmap (list (list N)) (list (list N))
}.

Definition segments (path : jsstring) : list jsstring :=
  List.filter (fun s => negb (jseq s [])) (split_on 47 path).

Definition dir_entries (d : disk) (p : list jsstring) : list jsstring :=
  default [] (d_dirs d !! p).

(** The working directory always exists. *)
Definition dir_exists (d : disk) (p : list jsstring) : bool :=
  match p with
  | [] => true
  | _ :: _ => bool_decide (is_Some (d_dirs d !! p))
  end.

Definition add_entry (parent : list jsstring) (n : jsstring)
    (dirs : gmap (list (list N)) (list (list N)))
  : gmap (list (list N)) (list (list N)) :=
  <[parent := default [] (dirs !! parent) ++ [n]]> dirs.

(** [mkdir] with [recursive: true]: the missing directories of the path
    are created from the top; a file in the way makes the call reject. *)
Fixpoint mkdir_from (pre rest : list jsstring) (d : disk) : option disk :=
  match rest with
  | [] => Some d
  | n :: rest' =>
      let q := pre ++ [n] in
      match d_files d !! q with
      | Some _ => None
      | None =>
          mkdir_from q rest'
            (if bool_decide (is_Some (d_dirs d !! q)) then d
             else Disk (d_files d) (<[q := []]> (add_entry pre n (d_dirs d))))
      end
  end.

Definition disk_mkdir (p : list jsstring) (d : disk) : option disk :=
  mkdir_from [] p d.

(** [writeFile]: rejects when the path is a directory or when its parent
    is not one; creates the file when it is new. *)
Definition disk_writeFile (p : list jsstring) (content : jsstring) (d : disk)
  : option disk :=
  match rev p with
  | [] => None
  | n :: rparent =>
      let parent := rev rparent in
      if dir_exists d parent && negb (bool_decide (is_Some (d_dirs d !! p)))
      then
        Some (Disk (<[p := content]> (d_files d))
                (if bool_decide (is_Some (d_files d !! p)) then d_dirs d
                 else add_entry parent n (d_dirs d)))
      else None
  end.

Definition disk_opendir (p : list jsstring) (d : disk)
  : option (list dirent) :=
  if dir_exists d p
  then Some (map (fun n =>
                    Dirent n (bool_decide (is_Some (d_dirs d !! (p ++ [n])))))
               (dir_entries d p))
  else None.

Definition node_world (remote : jsstring -> option jsstring)
    (stripper : jsstring -> jsstring) : world :=
  World disk
    (fun path d => (remote path, d))
    (fun path d =>
       match disk_mkdir (segments path) d with
       | Some d' => (true, d')
       | None => (false, d)
       end)
    (fun path content d =>
       match disk_writeFile (segments path) content d with
       | Some d' => (true, d')
       | None => (false, d)
       end)
    (fun path d => (d_files d !! segments path, d))
    (fun path d => (disk_opendir (segments path) d, d))
    stripper.

Definition empty_disk : disk := Disk ∅ ∅.

(** ** Properties of traces *)

(** Every call a routine makes, from whatever state, satisfies [P]. *)
Definition all_events {S A} (P : event -> Prop) (m : M S A) : Prop :=
  forall w, Forall P (events_of (m w)).

(** The event creates a directory or writes a file at a path below
    [tree]. *)
Definition writes_under (tree : jsstring) (e : event) : bool :=
  match e with
  | EMkdir p | EWriteFile p _ => is_prefix tree p
  | _ => false
  end.

(** The event is a call of the download phase: a request to the server, a
    log line, or a directory or file made below [original/]. *)
Definition download_event (e : event) : bool :=
  match e with
  | EListing _ | EDownload _ | ELog _ => true
  | EMkdir p | EWriteFile p _ => is_prefix originalTree p
  | EReadFile _ | EOpendir _ => false
  end.

Definition outputTrees : list jsstring :=
  [originalTree; renamedTree; originalCompTree; renamedCompTree].

(** The event neither downloads the remote file [p] nor writes its copy
    in one of the four trees. *)
Definition leaves_alone (p : jsstring) (e : event) : Prop :=
  e <> EDownload p
  /\ forall tree content, In tree outputTrees ->
       e <> EWriteFile (tree ++ p) content.

(** The scenario of an excluded file: a directory with a sub-directory,
    the excluded file and another file. *)
Definition scenario_remote (path : jsstring) : option jsstring :=
  if jseq path (str "com/sun/media/sound") then
    Some (str "drwxr-xr-x 0 midi" ++ [10]
          ++ str "-rw-r--r-- 5 Bad.java" ++ [10]
          ++ str "-rw-r--r-- 5 Good.java" ++ [10])
  else if jseq path (str "com/sun/media/sound/midi") then
    Some (str "-rw-r--r-- 5 Note.java" ++ [10])
  else
    Some (str "package com.sun.media.sound;" ++ [10]
          ++ str "import javax.sound.midi.Note;" ++ [10]
          ++ str "class A {}" ++ [10]).

Definition scenario_skip : gset (list N) :=
  {[ str "com/sun/media/sound/Bad.java" ]}.

Definition scenario_world : world := node_world scenario_remote (fun t => t).

(** What holds of every call of the download phase: it is a call of that
    phase, and its path does not begin with the prefix of a derived
    tree. *)
Definition mirror_only (e : event) : Prop :=
  download_event e = true
  /\ writes_under renamedTree e = false
  /\ writes_under originalCompTree e = false
  /\ writes_under renamedCompTree e = false.

(** The pattern of [fetchFile] matches a slash that is followed by [s]:
    [s] starts with word characters, one more code unit and [java]. *)
Definition splits_before (s : jsstring) : bool :=
  match match_at fileLookahead 0 s with
  | Some _ => true
  | None => false
  end.

(** No slash of [d] is matched by the pattern of [fetchFile] when [d] is
    followed by [tail]. *)
Fixpoint split_free (d tail : jsstring) : bool :=
  match d with
  | [] => true
  | c :: d' =>
      negb ((c =? 47) && splits_before (d' ++ tail)) && split_free d' tail
  end.

(** The calls of a complete run of [createFileCopies], in order. *)
Definition copy_calls (E : world) (directory filename : option jsstring)
    (originalContent : jsstring) : list event :=
  let path := to_text directory ++ str "/" ++ to_text filename in
  [EMkdir (renamedTree ++ to_text directory);
   EMkdir (originalCompTree ++ to_text directory);
   EMkdir (renamedCompTree ++ to_text directory);
   EWriteFile (renamedTree ++ path) (newFileContent originalContent);
   EWriteFile (originalCompTree ++ path)
     (cleanForComparison (strip E) originalContent);
   EWriteFile (renamedCompTree ++ path)
     (cleanForComparison (strip E) (newFileContent originalContent))].

(** A disk on which the place of the original-comparison copy of
    [d/F.java] is taken by a directory. *)
Definition blocked_disk : disk :=
  default empty_disk
    (disk_mkdir
       (segments (str "../gervill-control/comp/original-comp/d/F.java"))
       empty_disk).

Definition file_at (d : disk) (path : jsstring) : option jsstring :=
  d_files d !! segments path.

(** The text contains the opener of a line comment or of a block
    comment. *)
Fixpoint has_comment_opener (t : jsstring) : bool :=
  match t with
  | [] => false
  | c :: t' =>
      ((c =? 47)
       && match t' with
          | c' :: _ => (c' =? 47) || (c' =? 42)
          | [] => false
          end)
      || has_comment_opener t'
  end.

(** The content of the scenario of C3 and what is left of it. *)
Definition headerExample : jsstring :=
  str "package foo;" ++ [10] ++ str "import bar.Baz;" ++ [10; 10]
  ++ str "class C {}" ++ [10].

Definition headerExampleBody : jsstring := str "class C {}" ++ [10].

(** ** Notions for the two runs of the copy orchestrator *)

(** No path of the disk is both a file and a directory, and the working
    directory is not a file. *)
Definition consistent (d : disk) : Prop :=
  dom (d_files d) ## dom (d_dirs d) /\ [] ∉ dom (d_files d).

(** Every file and every directory of [d] is one of [d'] too. *)
Definition covers (d d' : disk) : Prop :=
  dom (d_files d) ⊆ dom (d_files d') /\ dom (d_dirs d) ⊆ dom (d_dirs d').

(** The two disks hold the same mirror below [original]. *)
Definition same_mirror (d d' : disk) : Prop :=
  forall q, d_files d !! (str "original" :: q)
            = d_files d' !! (str "original" :: q)
            /\ d_dirs d !! (str "original" :: q)
               = d_dirs d' !! (str "original" :: q).

(** The files after the writes of a trace, none of which was rejected. *)
Definition apply_event (files : gmap (list (list N)) (list N)) (e : event)
  : gmap (list (list N)) (list N) :=
  match e with
  | EWriteFile p c => <[segments p := c]> files
  | _ => files
  end.

Definition apply_events (ev : list event)
    (files : gmap (list (list N)) (list N))
  : gmap (list (list N)) (list N) :=
  fold_left apply_event ev files.

(** The last content a trace writes to the file [k], if it writes it. *)
Fixpoint last_write (k : list (list N)) (ev : list event)
  : option (list N) :=
  match ev with
  | [] => None
  | e :: ev' =>
      match last_write k ev' with
      | Some c => Some c
      | None =>
          match e with
          | EWriteFile p c =>
              if bool_decide (segments p = k) then Some c else None
          | _ => None
          end
      end
  end.

(** The path resolves into the tree of derived copies, next to the
    working directory. *)
Definition derived_path (path : jsstring) : Prop :=
  exists rest, segments path = [46; 46] :: rest.

(** What a routine does to the disk, whatever its outcome: files and
    directories are only added, the mirror stays as it is, a consistent
    disk stays consistent, and when the routine returns the files are those
    its trace wrote. *)
Definition effects {A} (m : M disk A) : Prop :=
  forall d r d' ev,
    m d = (r, d', ev) ->
    covers d d' /\ same_mirror d d' /\ (consistent d -> consistent d')
    /\ (forall a, r = Done a -> d_files d' = apply_events ev (d_files d)).

(** A routine that returned on [dA] returns again, with the same result
    and the same calls, on any consistent disk [dB] that holds the same
    mirror and already has every file and directory the first run left;
    the second run adds no file or directory and writes its trace. *)
Definition redo {A} (m : M disk A) : Prop :=
  forall dA dB a dA' ev,
    m dA = (Done a, dA', ev) ->
    covers dA' dB -> consistent dB -> same_mirror dA dB ->
    exists dB',
      m dB = (Done a, dB', ev)
      /\ d_dirs dB' = d_dirs dB
      /\ d_files dB' = apply_events ev (d_files dB)
      /\ dom (d_files dB') = dom (d_files dB)
      /\ same_mirror dA' dB'.

(** The disk after the download phase of the scenario. *)
Definition mirror_disk : disk :=
  state_of (fetchDirectory scenario_world scenario_skip 3
              (str "com/sun/media/sound") false empty_disk).

(** ** Notions for further properties of the script *)

(** [t] occurs in [s]. *)
Fixpoint occurs (t s : jsstring) : bool :=
  is_prefix t s
  || match s with
     | [] => false
     | _ :: s' => occurs t s'
     end.

(** The last code unit of the path is a slash. *)
Definition ends_with_slash (path : jsstring) : bool :=
  match rev path with
  | c :: _ => c =? 47
  | [] => false
  end.

(** Every back-reference of the pattern refers to a capture group that is
    opened before it in the same alternative; [g] is the number of the
    next group, [lo] the number of the first group of the alternative. *)
Fixpoint refs_ok (lo g : nat) (r : regex) : bool :=
  match r with
  | Backref n => (lo <=? n)%nat && (n <? g)%nat
  | Group r' => refs_ok lo (S g) r'
  | Seq r1 r2 => refs_ok lo g r1 && refs_ok lo (g + ngroups r1) r2
  | Alt r1 r2 =>
      refs_ok g g r1 && refs_ok (g + ngroups r1) (g + ngroups r1) r2
  | Star r' | Lookahead r' => refs_ok lo g r'
  | _ => true
  end.

(** The event is a call of the copy phase: a directory opened or a file
    read below [original/], a directory made or a file written below one
    of the three derived trees. *)
Definition copy_event (e : event) : bool :=
  match e with
  | EOpendir p | EReadFile p => is_prefix originalTree p
  | EMkdir p | EWriteFile p _ =>
      is_prefix renamedTree p || is_prefix originalCompTree p
      || is_prefix renamedCompTree p
  | EListing _ | EDownload _ | ELog _ => false
  end.

Definition is_write (e : event) : bool :=
  match e with
  | EWriteFile _ _ => true
  | _ => false
  end.

(** What [getFileListing] guarantees of an entry it returns. *)
Definition entry_ok (e : ListingEntry) : Prop :=
  name e <> [] /\ forallb not_whitespace (name e) = true
  /\ (isDirectory e = false -> endsWith (name e) (str ".java") = true).

(** The header pattern applied by [cleanForComparison], before the
    comments are stripped. *)
Definition stripHeader (contents : jsstring) : jsstring :=
  replace_first packageAndImportsRegex (fun _ => []) contents.

(** ** The header of a file, as the header pattern reads it *)

(** The class [\s\S]: any code unit. *)
Definition any_unit (c : N) : bool := is_whitespace c || negb (is_whitespace c).

(** The import clause of the header pattern and what follows the word
    [package] in it. *)
Definition importClauseRegex : regex :=
  Lit (str "import") <.> Plus ws <.> Plus nonws <.> Lit (str ";") <.> Star ws.

Definition headerTailRegex : regex :=
  Plus ws <.> Plus nonws <.> Lit (str ";") <.> Star ws
  <.> Star importClauseRegex.

(** A clause after its keyword: white space, a name free of white space,
    a semicolon and the white space that ends the line. *)
Record clause : Type := Clause {
  c_gap : jsstring;
  c_name : jsstring;
  c_end : jsstring
}.

Definition clause_ok (c : clause) : bool :=
  match c_gap c, c_name c, c_end c with
  | _ :: _, _ :: _, _ :: _ =>
      forallb is_whitespace (c_gap c) && forallb not_whitespace (c_name c)
      && forallb is_whitespace (c_end c)
  | _, _, _ => false
  end.

Definition clause_text (keyword : jsstring) (c : clause) : jsstring :=
  keyword ++ c_gap c ++ c_name c ++ str ";" ++ c_end c.

Definition imports_text (l : list clause) : jsstring :=
  concat (map (clause_text (str "import")) l).

(** The text begins with an import clause of the header pattern: the word
    [import], white space, and a run free of white space that has a
    semicolon after its first code unit. *)
Definition starts_import_clause (s : jsstring) : bool :=
  is_prefix (str "import") s
  && match take_while is_whitespace (skipn 6 s) with
     | [] => false
     | _ :: _ =>
         existsb (N.eqb 59)
           (tl (take_while not_whitespace
                  (drop_while is_whitespace (skipn 6 s))))
     end.

(** A code unit that is no brace and neither [j] nor [c]. *)
Definition quiet_char (c : N) : bool :=
  not_brace c && negb (c =? 106) && negb (c =? 99).

(** ** A file system that resolves dot segments

    The file system walks a path segment by segment: [.] stays where it
    is, [..] goes to the parent, a name goes into the directory of that
    name, which has to be there.  The working directory and the
    directories above it, written as runs of [..], are always there. *)

Definition dot : jsstring := [46].
Definition dotdot : jsstring := [46; 46].

Definition parent_of (cur : list jsstring) : list jsstring :=
  match rev cur with
  | [] => [dotdot]
  | n :: r => if jseq n dotdot then cur ++ [dotdot] else rev r
  end.

Definition is_dir (d : disk) (p : list jsstring) : bool :=
  forallb (fun n => jseq n dotdot) p
  || bool_decide (is_Some (d_dirs d !! p)).

(** The directory reached from [cur] along [segs], when every name on the
    way is a directory. *)
Fixpoint walk_dirs (d : disk) (cur : list jsstring) (segs : list jsstring)
  : option (list jsstring) :=
  match segs with
  | [] => Some cur
  | n :: segs' =>
      if jseq n dot then walk_dirs d cur segs'
      else if jseq n dotdot then walk_dirs d (parent_of cur) segs'
      else if is_dir d (cur ++ [n]) then walk_dirs d (cur ++ [n]) segs'
      else None
  end.

(** What the path names: the directories before the last segment are
    walked, the last segment need not be there. *)
Definition resolve (d : disk) (segs : list jsstring)
  : option (list jsstring) :=
  match rev segs with
  | [] => Some []
  | n :: rinit =>
      match walk_dirs d [] (rev rinit) with
      | Some cur =>
          if jseq n dot then Some cur
          else if jseq n dotdot then Some (parent_of cur)
          else Some (cur ++ [n])
      | None => None
      end
  end.

(** [mkdir] with [recursive: true]: the names of the path are walked and
    the directories that are missing are made on the way; a file in the
    way makes the call reject. *)
Fixpoint posix_mkdir_from (cur segs : list jsstring) (d : disk)
  : option disk :=
  match segs with
  | [] => Some d
  | n :: segs' =>
      if jseq n dot then posix_mkdir_from cur segs' d
      else if jseq n dotdot then posix_mkdir_from (parent_of cur) segs' d
      else
        let q := cur ++ [n] in
        match d_files d !! q with
        | Some _ => None
        | None =>
            posix_mkdir_from q segs'
              (if is_dir d q then d
               else Disk (d_files d)
                      (<[q := []]> (add_entry cur n (d_dirs d))))
        end
  end.

(** [writeFile]: the directories of the path are walked; the call rejects
    when one is missing, when the last segment is a dot segment or when
    the path is a directory; it creates the file when it is new. *)
Definition posix_writeFile (segs : list jsstring) (content : jsstring)
    (d : disk) : option disk :=
  match rev segs with
  | [] => None
  | n :: rinit =>
      match walk_dirs d [] (rev rinit) with
      | Some cur =>
          if jseq n dot || jseq n dotdot || is_dir d (cur ++ [n]) then None
          else
            Some (Disk (<[cur ++ [n] := content]> (d_files d))
                    (if bool_decide (is_Some (d_files d !! (cur ++ [n])))
                     then d_dirs d
                     else add_entry cur n (d_dirs d)))
      | None => None
      end
  end.

Definition posix_readFile (segs : list jsstring) (d : disk)
  : option jsstring :=
  match resolve d segs with
  | Some p => d_files d !! p
  | None => None
  end.

Definition posix_opendir (segs : list jsstring) (d : disk)
  : option (list dirent) :=
  match resolve d segs with
  | Some p =>
      if is_dir d p
      then Some (map (fun n =>
                        Dirent n
                          (bool_decide (is_Some (d_dirs d !! (p ++ [n])))))
                   (dir_entries d p))
      else None
  | None => None
  end.

Definition posix_world (remote : jsstring -> option jsstring)
    (stripper : jsstring -> jsstring) : world :=
  World disk
    (fun path d => (remote path, d))
    (fun path d =>
       match posix_mkdir_from [] (segments path) d with
       | Some d' => (true, d')
       | None => (false, d)
       end)
    (fun path content d =>
       match posix_writeFile (segments path) content d with
       | Some d' => (true, d')
       | None => (false, d)
       end)
    (fun path d => (posix_readFile (segments path) d, d))
    (fun path d => (posix_opendir (segments path) d, d))
    stripper.

(** ** Notions for the download phase on that file system *)

(** The path has neither a [.] nor a [..] segment. *)
Definition plain_segment (n : jsstring) : bool :=
  negb (jseq n dot) && negb (jseq n dotdot).

Definition dot_free (path : jsstring) : bool :=
  forallb plain_segment (segments path).

(** No name in the listing of [directory], nor in the listings of the
    directories the walk reaches from it within [fuel] levels, has a dot
    segment. *)
Fixpoint listings_dot_free (remote : jsstring -> option jsstring)
    (fuel : nat) (directory : jsstring) : bool :=
  match fuel with
  | O => true
  | S fuel' =>
      match remote directory with
      | Some doc =>
          match parseListing doc with
          | Done entries =>
              forallb
                (fun e =>
                   dot_free (name e)
                   && (if isDirectory e
                       then listings_dot_free remote fuel'
                              (directory ++ str "/" ++ name e)
                       else true))
                entries
          | _ => true
          end
      | None => true
      end
  end.

(** Nothing but the mirror has changed: every file and every directory
    outside [original] is as it was; the working directory itself may have
    [original] as a new entry. *)
Definition only_mirror_changed (d d' : disk) : Prop :=
  forall q, hd_error q <> Some (str "original") ->
            d_files d' !! q = d_files d !! q
            /\ (q <> [] -> d_dirs d' !! q = d_dirs d !! q).

(** The files and directories of one of the trees are as they were. *)
Definition tree_unchanged (tree : jsstring) (d d' : disk) : Prop :=
  forall q, d_files d' !! (segments tree ++ q) = d_files d !! (segments tree ++ q)
            /\ d_dirs d' !! (segments tree ++ q)
               = d_dirs d !! (segments tree ++ q).

Definition derived_unchanged (d d' : disk) : Prop :=
  tree_unchanged renamedTree d d' /\ tree_unchanged originalCompTree d d'
  /\ tree_unchanged renamedCompTree d d'.

(** A disk on which the renamed tree holds one file. *)
Definition derived_disk : disk :=
  default empty_disk
    (posix_writeFile (segments (renamedTree ++ str "Evil.java"))
       (str "class Evil {}")
       (default empty_disk
          (posix_mkdir_from [] (segments renamedTree) empty_disk))).

(** A server whose listing of the first root names a file by a path
    with [..] segments. *)
Definition evil_remote (path : jsstring) : option jsstring :=
  if jseq path (str "javax/sound/midi") then
    Some (str "-rw-r--r-- 5 ../../../../../gervill-control/output/src/gervill/Evil.java"
          ++ [10])
  else if jseq path (str "javax/sound/sampled") then Some []
  else if jseq path (str "com/sun/media/sound") then Some []
  else Some (str "class Evil { int changed; }").

(** ** The pattern of the package pass as text

    [createGervillRegexSource] returns the source text of a pattern, and
    the texts of the packages, joined with bars, are handed to the
    [RegExp] constructor.  The definitions below build that text and read
    it as the constructor does, for the syntax the script writes: literal
    code units, escaped punctuation, capture groups, alternatives and
    decimal escapes. *)

(** [gervillSeparatorRegex.source] *)
Definition gervillSeparatorSource : jsstring := str "\.|\/|\\|\\\\".

(** A number in a template literal: its decimal digits. *)
Fixpoint uint_units (d : Decimal.uint) : jsstring :=
  match d with
  | Decimal.Nil => []
  | Decimal.D0 d' => 48 :: uint_units d'
  | Decimal.D1 d' => 49 :: uint_units d'
  | Decimal.D2 d' => 50 :: uint_units d'
  | Decimal.D3 d' => 51 :: uint_units d'
  | Decimal.D4 d' => 52 :: uint_units d'
  | Decimal.D5 d' => 53 :: uint_units d'
  | Decimal.D6 d' => 54 :: uint_units d'
  | Decimal.D7 d' => 55 :: uint_units d'
  | Decimal.D8 d' => 56 :: uint_units d'
  | Decimal.D9 d' => 57 :: uint_units d'
  end.

Definition decimal (n : nat) : jsstring := uint_units (Nat.to_uint n).

(** [createGervillRegexSource], the text it returns and the next value of
    the counter. *)
Definition createGervillRegexSourceText (path : jsstring) (id : nat)
  : jsstring * nat :=
  match split_on 46 path with
  | [] => ([], id)
  | [param1] => (param1, id)
  | param1 :: params =>
      (param1 ++ str "(" ++ gervillSeparatorSource ++ str ")"
       ++ join_with (92 :: decimal id) params,
       S id)
  end.

(** [packages.map(createGervillRegexSource).join('|')] *)
Fixpoint gervillSourceText (pkgs : list jsstring) (id : nat) : jsstring :=
  match pkgs with
  | [] => []
  | [p] => fst (createGervillRegexSourceText p id)
  | p :: pkgs' =>
      let (t, id') := createGervillRegexSourceText p id in
      t ++ str "|" ++ gervillSourceText pkgs' id'
  end.

(** The terms of an alternative as the constructor reads them. *)
Inductive atom : Type :=
| AChar (c : N)
| AGroup (r : regex)
| ABackref (n : nat).

(** Literal code units that follow each other make one literal. *)
Fixpoint lits (atoms : list atom) : list regex :=
  match atoms with
  | [] => []
  | AChar c :: atoms' =>
      match lits atoms' with
      | Lit s :: rs => Lit (c :: s) :: rs
      | rs => Lit [c] :: rs
      end
  | AGroup r :: atoms' => Group r :: lits atoms'
  | ABackref n :: atoms' => Backref n :: lits atoms'
  end.

Fixpoint seq_of (l : list regex) : regex :=
  match l with
  | [] => Eps
  | [r] => r
  | r :: l' => r <.> seq_of l'
  end.

Definition assemble (atoms : list atom) : regex := seq_of (lits atoms).

Definition is_digit (c : N) : bool := (48 <=? c) && (c <=? 57).

(** ECMAScript [SyntaxCharacter]. *)
Definition is_syntax_char (c : N) : bool :=
  existsb (N.eqb c) (str "^$\.*+?()[]{}|").

Fixpoint units_uint (ds : jsstring) : Decimal.uint :=
  match ds with
  | [] => Decimal.Nil
  | c :: ds' =>
      let d := units_uint ds' in
      if c =? 48 then Decimal.D0 d
      else if c =? 49 then Decimal.D1 d
      else if c =? 50 then Decimal.D2 d
      else if c =? 51 then Decimal.D3 d
      else if c =? 52 then Decimal.D4 d
      else if c =? 53 then Decimal.D5 d
      else if c =? 54 then Decimal.D6 d
      else if c =? 55 then Decimal.D7 d
      else if c =? 56 then Decimal.D8 d
      else Decimal.D9 d
  end.

Definition digits_value (ds : jsstring) : nat := Nat.of_uint (units_uint ds).

(** A disjunction up to a closing parenthesis or the end of the text, and
    an alternative up to a bar, a closing parenthesis or the end.  A
    backslash before digits is a decimal escape and takes all the digits
    that follow; before a syntax character or a slash it makes the
    character literal.  What the script does not write (quantifiers,
    classes, assertions, groups that start with a question mark, other
    escapes) is not read. *)
Fixpoint parse_disjunction (fuel : nat) (s : jsstring)
  : option (regex * jsstring) :=
  match fuel with
  | O => None
  | S fuel' =>
      match parse_alternative fuel' s with
      | Some (atoms, 124 :: rest) =>
          match parse_disjunction fuel' rest with
          | Some (r, rest') => Some (assemble atoms <|> r, rest')
          | None => None
          end
      | Some (atoms, rest) => Some (assemble atoms, rest)
      | None => None
      end
  end
with parse_alternative (fuel : nat) (s : jsstring)
  : option (list atom * jsstring) :=
  match fuel with
  | O => None
  | S fuel' =>
      match s with
      | [] => Some ([], [])
      | c :: s' =>
          if (c =? 124) || (c =? 41) then Some ([], s)
          else if c =? 40 then
            match s' with
            | 63 :: _ => None
            | _ =>
                match parse_disjunction fuel' s' with
                | Some (r, 41 :: rest) =>
                    match parse_alternative fuel' rest with
                    | Some (atoms, rest') => Some (AGroup r :: atoms, rest')
                    | None => None
                    end
                | _ => None
                end
            end
          else if c =? 92 then
            match s' with
            | [] => None
            | e :: s'' =>
                if is_digit e then
                  if e =? 48 then None
                  else
                    match parse_alternative fuel'
                            (drop_while is_digit s') with
                    | Some (atoms, rest') =>
                        Some (ABackref
                                (digits_value (take_while is_digit s'))
                                :: atoms, rest')
                    | None => None
                    end
                else if is_syntax_char e || (e =? 47) then
                  match parse_alternative fuel' s'' with
                  | Some (atoms, rest') => Some (AChar e :: atoms, rest')
                  | None => None
                  end
                else None
            end
          else if is_syntax_char c then None
          else
            match parse_alternative fuel' s' with
            | Some (atoms, rest') => Some (AChar c :: atoms, rest')
            | None => None
            end
      end
  end.

(** Every back-reference is to one of the groups 1 .. [n]. *)
Fixpoint backrefs_within (n : nat) (r : regex) : bool :=
  match r with
  | Backref k => (1 <=? k)%nat && (k <=? n)%nat
  | Seq r1 r2 | Alt r1 r2 => backrefs_within n r1 && backrefs_within n r2
  | Star r' | Group r' | Lookahead r' => backrefs_within n r'
  | _ => true
  end.

(** [new RegExp(source)]: a decimal escape is a back-reference when the
    pattern has that many groups; a larger one is read in another way,
    which the script does not rely on. *)
Definition parse_pattern (source : jsstring) : option regex :=
  match parse_disjunction (2 * length source + 2) source with
  | Some (r, []) => if backrefs_within (ngroups r) r then Some r else None
  | _ => None
  end.

(** A component that is an identifier: word characters, the first of
    them not a digit. *)
Definition is_identifier (p : jsstring) : bool :=
  match p with
  | [] => false
  | c :: _ => negb (is_digit c) && forallb is_word_char p
  end.

(** The terms of [params.join] with a decimal escape for group [n]
    between the components. *)
Fixpoint join_atoms (n : nat) (params : list jsstring) : list atom :=
  match params with
  | [] => []
  | [p] => map AChar p
  | p :: params' => map AChar p ++ ABackref n :: join_atoms n params'
  end.

(** With fuel for the length of the text, an alternative or a disjunction
    at the start of [s] is read as given. *)
Definition alt_ok (s : jsstring) (atoms : list atom) (rest : jsstring)
  : Prop :=
  forall f, (2 * length s + 1 <= f)%nat ->
            parse_alternative f s = Some (atoms, rest).

Definition disj_ok (s : jsstring) (r : regex) (rest : jsstring) : Prop :=
  forall f, (2 * length s + 2 <= f)%nat ->
            parse_disjunction f s = Some (r, rest).

(** * Properties *)

(** ** Strings *)

Lemma is_prefix_app (p s : jsstring) : is_prefix p (p ++ s) = true.
Proof.
  induction p as [|a p IH]; simpl; [reflexivity|].
  now rewrite N.eqb_refl, IH.
Qed.

Lemma is_prefix_true (p s : jsstring) :
  is_prefix p s = true -> s = p ++ skipn (length p) s.
Proof.
  revert s; induction p as [|a p IH]; intros [|b s]; simpl; try easy.
  intros H. apply andb_true_iff in H as [Hab Hp].
  apply N.eqb_eq in Hab. subst b. f_equal. now apply IH.
Qed.

Lemma is_prefix_spec (p s : jsstring) :
  is_prefix p s = true <-> exists t, s = p ++ t.
Proof.
  split.
  - intros H. eexists. now apply is_prefix_true.
  - intros [t ->]. apply is_prefix_app.
Qed.

Lemma skipn_length_app {A} (p s : list A) : skipn (length p) (p ++ s) = s.
Proof. induction p; simpl; auto. Qed.

Lemma take_drop_while (p : N -> bool) (s : jsstring) :
  take_while p s ++ drop_while p s = s.
Proof.
  induction s as [|c s IH]; simpl; [reflexivity|].
  destruct (p c); simpl; [now rewrite IH | reflexivity].
Qed.

Lemma take_while_forallb (p : N -> bool) (s : jsstring) :
  forallb p (take_while p s) = true.
Proof.
  induction s as [|c s IH]; simpl; [reflexivity|].
  destruct (p c) eqn:E; simpl; [now rewrite E | reflexivity].
Qed.

Lemma drop_while_head (p : N -> bool) (s : jsstring) c t :
  drop_while p s = c :: t -> p c = false.
Proof.
  induction s as [|a s IH]; simpl; [discriminate|].
  destruct (p a) eqn:E; [assumption|]. intros [= -> _]. exact E.
Qed.

Lemma take_while_all (p : N -> bool) (s t : jsstring) :
  forallb p s = true -> (forall c t', t = c :: t' -> p c = false) ->
  take_while p (s ++ t) = s /\ drop_while p (s ++ t) = t.
Proof.
  intros Hs Ht. induction s as [|a s IH]; simpl in *.
  - destruct t as [|c t']; simpl; [easy|].
    now rewrite (Ht c t' eq_refl).
  - apply andb_true_iff in Hs as [Ha Hs]. rewrite Ha.
    destruct (IH Hs) as [-> ->]. easy.
Qed.

(** ** The matcher *)

Lemma or_else_none {A} (a : option A) : or_else a (fun _ => None) = a.
Proof. now destruct a. Qed.

Lemma later_refl st : later st st.
Proof. exists []. simpl. split; [reflexivity | lia]. Qed.

Lemma later_trans st1 st2 st3 : later st1 st2 -> later st2 st3 -> later st1 st3.
Proof.
  intros [w1 [H1 I1]] [w2 [H2 I2]]. exists (w1 ++ w2).
  rewrite H1, H2, length_app, <- app_assoc. split; [reflexivity | lia].
Qed.

Lemma later_advance p st :
  is_prefix p (ms_rest st) = true -> later st (advance (length p) st).
Proof.
  intros H. exists p. simpl. split; [now apply is_prefix_true | reflexivity].
Qed.

(** A successful match hands its continuation a position at or after the
    one it started from. *)
Lemma rmatch_later (r : regex) :
  forall g st k res,
    rmatch r g st k = Some res ->
    exists st', later st st' /\ k st' = Some res.
Proof.
  induction r as [| s | p | r1 IH1 r2 IH2 | r1 IH1 r2 IH2 | r IH | r IH
                 | n | r IH | | ]; intros g st k res H; simpl in H.
  - exists st. split; [apply later_refl | exact H].
  - unfold match_text in H.
    destruct (is_prefix s (ms_rest st)) eqn:E; [|discriminate].
    eexists. split; [apply later_advance; exact E | exact H].
  - destruct (ms_rest st) as [|c t] eqn:E; [discriminate|].
    destruct (p c); [|discriminate].
    exists (advance 1 st). split; [|exact H].
    exists [c]. simpl. rewrite E. split; [reflexivity | lia].
  - apply IH1 in H as [st1 [L1 H]]. apply IH2 in H as [st2 [L2 H]].
    exists st2. split; [eapply later_trans; eauto | exact H].
  - unfold or_else in H.
    destruct (rmatch r1 g st k) eqn:E.
    + injection H as <-. now apply IH1 in E.
    + now apply IH2 in H.
  - remember (length (ms_rest st)) as fuel eqn:Ef. clear Ef.
    revert st H. induction fuel as [|fuel IHf]; intros st H; simpl in H.
    + exists st. split; [apply later_refl | exact H].
    + unfold or_else in H.
      destruct (rmatch r g st _) eqn:E.
      * injection H as <-. apply IH in E as [st1 [L1 E]].
        destruct (ms_idx st1 =? ms_idx st)%nat; [discriminate|].
        apply IHf in E as [st2 [L2 E]].
        exists st2. split; [eapply later_trans; eauto | exact E].
      * exists st. split; [apply later_refl | exact H].
  - apply IH in H as [st1 [L1 H]].
    eexists. split; [|exact H].
    destruct L1 as [w [Hw Hi]]. exists w. simpl. now split.
  - destruct (cap_lookup n (ms_caps st)) as [s|].
    + unfold match_text in H.
      destruct (is_prefix s (ms_rest st)) eqn:E; [|discriminate].
      eexists. split; [apply later_advance; exact E | exact H].
    + exists st. split; [apply later_refl | exact H].
  - destruct (rmatch r g st Some) as [st1|] eqn:E; [|discriminate].
    eexists. split; [|exact H].
    exists []. simpl. split; [reflexivity | lia].
  - destruct (ms_idx st =? 0)%nat; [|discriminate].
    exists st. split; [apply later_refl | exact H].
  - destruct (ms_rest st) eqn:E; [|discriminate].
    exists st. split; [apply later_refl | exact H].
Qed.

(** The text of a match and the text after it make up the subject. *)
Lemma match_at_split (r : regex) idx s m :
  match_at r idx s = Some m ->
  s = m_text m ++ m_after m /\ m_end m = (idx + length (m_text m))%nat.
Proof.
  unfold match_at. intros H.
  destruct (rmatch r 1 _ Some) as [st|] eqn:E; [|discriminate].
  injection H as <-. simpl.
  apply rmatch_later in E as [st' [[w [Hw Hi]] [= ->]]]. simpl in *.
  subst s. rewrite Hi.
  replace (idx + length w - idx)%nat with (length w) by lia.
  rewrite firstn_app, Nat.sub_diag, firstn_all. simpl.
  rewrite app_nil_r. now split.
Qed.

Lemma shift_advance d n st : advance n (shift d st) = shift d (advance n st).
Proof. unfold advance, shift. simpl. f_equal. lia. Qed.


(** Without [^], matching does not depend on where the text stands. *)
Lemma rmatch_shift (r : regex) :
  bol_free r = true ->
  forall d g st k k',
    (forall st', k' (shift d st') = option_map (shift d) (k st')) ->
    rmatch r g (shift d st) k' = option_map (shift d) (rmatch r g st k).
Proof.
  induction r as [| s | p | r1 IH1 r2 IH2 | r1 IH1 r2 IH2 | r IH | r IH
                 | n | r IH | | ]; intros Hb d g st k k' Hk; simpl in *.
  - apply Hk.
  - unfold match_text. simpl.
    destruct (is_prefix s (ms_rest st)); [|reflexivity].
    rewrite shift_advance. apply Hk.
  - destruct (ms_rest st) as [|c t]; [reflexivity|].
    destruct (p c); [|reflexivity].
    rewrite shift_advance. apply Hk.
  - apply andb_true_iff in Hb as [Hb1 Hb2].
    apply IH1; [exact Hb1|]. intros st'. now apply IH2.
  - apply andb_true_iff in Hb as [Hb1 Hb2].
    rewrite (IH1 Hb1 d g st k k' Hk), (IH2 Hb2 d _ st k k' Hk).
    now destruct (rmatch r1 g st k).
  - generalize (length (ms_rest st)) as fuel. intros fuel. revert st.
    induction fuel as [|fuel IHf]; intros st; simpl; [apply Hk|].
    rewrite (IH Hb d g st
               (fun st' => if (ms_idx st' =? ms_idx st)%nat then None
                           else star_loop (rmatch r) fuel g st' k)).
    + rewrite Hk. now destruct (rmatch r g st _).
    + intros st'. simpl.
      replace (d + ms_idx st' =? d + ms_idx st)%nat
        with (ms_idx st' =? ms_idx st)%nat.
      * destruct (ms_idx st' =? ms_idx st)%nat; [reflexivity | apply IHf].
      * destruct (Nat.eqb_spec (ms_idx st') (ms_idx st));
          symmetry; [apply Nat.eqb_eq | apply Nat.eqb_neq]; lia.
  - apply IH; [exact Hb|]. intros st'. simpl.
    replace (d + ms_idx st' - (d + ms_idx st))%nat
      with (ms_idx st' - ms_idx st)%nat by lia.
    apply (Hk (MState _ _ _)).
  - destruct (cap_lookup n (ms_caps st)) as [s|]; [|apply Hk].
    unfold match_text. simpl.
    destruct (is_prefix s (ms_rest st)); [|reflexivity].
    rewrite shift_advance. apply Hk.
  - rewrite (IH Hb d g st Some Some) by reflexivity.
    destruct (rmatch r g st Some) as [st1|]; simpl; [|reflexivity].
    apply (Hk (MState _ _ _)).
  - discriminate.
  - destruct (ms_rest st); [apply Hk | reflexivity].
Qed.

Lemma match_at_shift (r : regex) idx s :
  bol_free r = true ->
  match_at r idx s = option_map (shift_result idx) (match_at r 0 s).
Proof.
  intros Hb. unfold match_at.
  change (MState idx s []) with (MState idx s []).
  replace (MState idx s []) with (shift idx (MState 0 s []))
    by (unfold shift; simpl; f_equal; lia).
  rewrite (rmatch_shift r Hb idx 1 (MState 0 s []) Some Some)
    by reflexivity.
  destruct (rmatch r 1 (MState 0 s []) Some) as [st|]; simpl; [|reflexivity].
  unfold shift_result. simpl. do 2 f_equal.
  rewrite Nat.sub_0_r. f_equal. lia.
Qed.

(** The star of a class: the loop of the matcher is the recursion on the
    text. *)
Lemma star_loop_class (p : N -> bool) g k :
  forall fuel idx s caps,
    (length s <= fuel)%nat ->
    star_loop (rmatch (Class p)) fuel g (MState idx s caps) k
    = star_class p idx s caps k.
Proof.
  induction fuel as [|fuel IH]; intros idx s caps Hl.
  - destruct s; [reflexivity | simpl in Hl; lia].
  - destruct s as [|c s]; simpl; [reflexivity|].
    destruct (p c); [|reflexivity].
    replace (idx + 1 =? idx)%nat with false
      by (symmetry; apply Nat.eqb_neq; lia).
    unfold advance. simpl.
    replace (idx + 1)%nat with (S idx) by lia.
    f_equal. apply IH. simpl in Hl. lia.
Qed.

Lemma rmatch_star_class (p : N -> bool) g st k :
  rmatch (Star (Class p)) g st k
  = star_class p (ms_idx st) (ms_rest st) (ms_caps st) k.
Proof.
  destruct st as [idx s caps]. simpl. now apply star_loop_class.
Qed.

(** When the continuation cannot start with a code unit of the class, the
    greedy star takes the longest run and never gives any of it back. *)
Lemma star_class_max (p : N -> bool) caps k :
  (forall i c t, p c = true -> k (MState i (c :: t) caps) = None) ->
  forall s idx,
    star_class p idx s caps k
    = k (MState (idx + length (take_while p s)) (drop_while p s) caps).
Proof.
  intros Hk. induction s as [|c s IH]; intros idx; simpl.
  - now rewrite Nat.add_0_r.
  - destruct (p c) eqn:E; simpl.
    + rewrite IH, (Hk idx c s E), or_else_none.
      now rewrite Nat.add_succ_r.
    + now rewrite Nat.add_0_r.
Qed.

(** ** Global replacement

    For a pattern without [^] whose matches are never empty, and a
    callback that looks at the matched text and the captures only, global
    replacement obeys three equations that determine it. *)

Section GlobalReplace.
Variable r : regex.
Variable f : rmatch_result -> jsstring.
Hypothesis r_bol_free : bol_free r = true.
Hypothesis r_nonempty :
  forall idx s m, match_at r idx s = Some m -> m_text m <> [].
Hypothesis f_text_groups :
  forall m m', m_text m = m_text m' -> m_groups m = m_groups m' -> f m = f m'.

Lemma match_at_nil idx : match_at r idx [] = None.
Proof.
  destruct (match_at r idx []) as [m|] eqn:E; [|reflexivity].
  destruct (match_at_split _ _ _ _ E) as [H _].
  symmetry in H. apply app_eq_nil in H as [H _].
  now apply r_nonempty in E.
Qed.

Lemma match_at_after_shorter idx s m :
  match_at r idx s = Some m -> (length (m_after m) < length s)%nat.
Proof.
  intros E. destruct (match_at_split _ _ _ _ E) as [H _].
  apply r_nonempty in E. rewrite H, length_app.
  destruct (m_text m); [easy | simpl; lia].
Qed.

Lemma replace_loop_hit fuel idx s m :
  match_at r idx s = Some m ->
  replace_loop (S fuel) r f idx s
  = f m ++ replace_loop fuel r f (m_end m) (m_after m).
Proof.
  intros E. simpl. destruct s as [|c s]; simpl; rewrite E; simpl.
  - now rewrite match_at_nil in E.
  - pose proof (r_nonempty _ _ _ E) as Hne.
    destruct (m_text m); [easy | reflexivity].
Qed.

Lemma replace_loop_miss fuel idx c s :
  match_at r idx (c :: s) = None ->
  replace_loop (S fuel) r f idx (c :: s)
  = c :: replace_loop (S fuel) r f (S idx) s.
Proof.
  intros E. simpl. rewrite E.
  destruct (search r (S idx) s) as [[skipped m]|]; reflexivity.
Qed.

Lemma replace_loop_nil fuel idx : replace_loop fuel r f idx [] = [].
Proof.
  destruct fuel; simpl; [reflexivity|]. now rewrite match_at_nil.
Qed.

Lemma match_at_0 idx s :
  match_at r idx s = option_map (shift_result idx) (match_at r 0 s).
Proof. now apply match_at_shift. Qed.

(** Neither the budget of the loop, once it exceeds the length of the
    text, nor the index the scan starts from changes the result. *)
Lemma replace_loop_indep n :
  forall s fuel1 fuel2 idx1 idx2,
    (length s <= n)%nat -> (length s < fuel1)%nat -> (length s < fuel2)%nat ->
    replace_loop fuel1 r f idx1 s = replace_loop fuel2 r f idx2 s.
Proof.
  induction n as [n IH] using lt_wf_ind.
  intros s [|fuel1] [|fuel2] idx1 idx2 Hn H1 H2; try lia.
  destruct (match_at r 0 s) as [m|] eqn:E.
  - pose proof (match_at_after_shorter _ _ _ E) as Hs.
    rewrite (replace_loop_hit fuel1 idx1 s (shift_result idx1 m))
      by (rewrite match_at_0, E; reflexivity).
    rewrite (replace_loop_hit fuel2 idx2 s (shift_result idx2 m))
      by (rewrite match_at_0, E; reflexivity).
    simpl. f_equal; [now apply f_text_groups|].
    apply (IH (length (m_after m))); lia.
  - destruct s as [|c s]; [now rewrite !replace_loop_nil|].
    rewrite !replace_loop_miss by (rewrite match_at_0, E; reflexivity).
    f_equal. apply (IH (length s)); simpl in *; lia.
Qed.

Lemma replace_global_hit s m :
  match_at r 0 s = Some m ->
  replace_global r f s = f m ++ replace_global r f (m_after m).
Proof.
  intros E. unfold replace_global. rewrite (replace_loop_hit _ _ _ _ E).
  f_equal. pose proof (match_at_after_shorter _ _ _ E).
  apply (replace_loop_indep (length (m_after m))); lia.
Qed.

Lemma replace_global_miss c s :
  match_at r 0 (c :: s) = None ->
  replace_global r f (c :: s) = c :: replace_global r f s.
Proof.
  intros E. unfold replace_global. rewrite (replace_loop_miss _ _ _ _ E).
  f_equal. apply (replace_loop_indep (length s)); simpl; lia.
Qed.

Lemma replace_global_nil : replace_global r f [] = [].
Proof. apply replace_loop_nil. Qed.

Lemma local_in_suffix x1 x2 y : local_in r (x1 ++ x2) y -> local_in r x2 y.
Proof.
  intros H a b -> Hb. apply (H (x1 ++ a) b); [|exact Hb].
  now rewrite app_assoc.
Qed.

(** Where no match spans the seam, the replacement of a concatenation is
    the concatenation of the replacements. *)
Lemma replace_global_app x y :
  local_in r x y ->
  replace_global r f (x ++ y) = replace_global r f x ++ replace_global r f y.
Proof.
  remember (length x) as n eqn:Hn. revert x Hn.
  induction n as [n IH] using lt_wf_ind. intros x Hn Hloc.
  destruct x as [|c x]; [now rewrite replace_global_nil|].
  pose proof (Hloc [] (c :: x) eq_refl ltac:(discriminate)) as Hm.
  destruct (match_at r 0 (c :: x)) as [m|] eqn:E; simpl in Hm;
    change ((c :: x) ++ y) with (c :: (x ++ y)).
  - rewrite (replace_global_hit _ _ Hm), (replace_global_hit _ _ E).
    simpl. rewrite <- app_assoc. f_equal; [now apply f_text_groups|].
    pose proof (match_at_after_shorter _ _ _ E) as Hs.
    destruct (match_at_split _ _ _ _ E) as [Hx _].
    apply (IH (length (m_after m))); [subst n; lia | reflexivity |].
    apply (local_in_suffix (m_text m)). now rewrite <- Hx.
  - rewrite (replace_global_miss _ _ Hm), (replace_global_miss _ _ E).
    simpl. f_equal. apply (IH (length x)); [subst n; simpl; lia | reflexivity |].
    now apply (local_in_suffix [c]).
Qed.

End GlobalReplace.

(** ** The package pattern *)

Local Arguments N.eqb : simpl never.

Ltac split_text :=
  match goal with
  | |- context [N.eqb ?a ?b] =>
      destruct (N.eqb_spec a b);
      [try subst; try discriminate | try congruence]; simpl
  | |- context [is_prefix _ ?s] => is_var s; destruct s as [|? ?]; simpl
  | |- context [match ?s with [] => _ | _ :: _ => _ end] =>
      is_var s; destruct s as [|? ?]; simpl
  end.

Lemma shape_match_shift shapes idx s :
  shape_match shapes idx s
  = option_map (shift_result idx) (shape_match shapes 0 s).
Proof.
  unfold shape_match.
  destruct (find _ shapes) as [[t gs]|]; reflexivity.
Qed.

Lemma gervill_match_at_0 s :
  match_at gervillRegex 0 s = shape_match gervillShapes 0 s.
Proof.
  let r := eval vm_compute in gervillRegex in change gervillRegex with r.
  let l := eval vm_compute in gervillShapes in change gervillShapes with l.
  unfold match_at, shape_match. simpl. unfold match_text. simpl.
  repeat split_text; reflexivity.
Qed.

(** The package pattern matches exactly the eight texts of
    [gervillShapes]. *)
Lemma gervill_match_at idx s :
  match_at gervillRegex idx s = shape_match gervillShapes idx s.
Proof.
  rewrite match_at_shift by reflexivity.
  now rewrite gervill_match_at_0, <- shape_match_shift.
Qed.

Lemma is_prefix_seam_tail (t x : jsstring) c y :
  ~ In c t -> is_prefix t (x ++ c :: y) = is_prefix t x.
Proof.
  revert x. induction t as [|a t IH]; intros x Hc; [now destruct x|].
  destruct x as [|b x]; simpl.
  - destruct (N.eqb_spec a c) as [->|]; [|reflexivity].
    exfalso. apply Hc. now left.
  - rewrite IH; [reflexivity|]. intros H. apply Hc. now right.
Qed.

(** A text that has no [c] after its first code unit cannot begin in a
    non-empty [x] and run into a following text that starts with [c]. *)
Lemma is_prefix_seam (t x : jsstring) c y :
  x <> [] -> ~ In c (tl t) -> is_prefix t (x ++ c :: y) = is_prefix t x.
Proof.
  intros Hx Hc. destruct t as [|a t]; [now destruct x|].
  destruct x as [|b x]; [easy|]. simpl.
  now rewrite is_prefix_seam_tail.
Qed.

Lemma skipn_prefix_app (t x y : jsstring) :
  is_prefix t x = true ->
  skipn (length t) (x ++ y) = skipn (length t) x ++ y.
Proof.
  intros H. apply is_prefix_true in H. rewrite H at 1.
  rewrite <- app_assoc, skipn_length_app.
  rewrite H at 2. now rewrite skipn_length_app.
Qed.

Lemma shape_match_seam shapes (x : jsstring) c y :
  x <> [] ->
  Forall (fun sh => ~ In c (tl (fst sh))) shapes ->
  shape_match shapes 0 (x ++ c :: y)
  = option_map (extend_after (c :: y)) (shape_match shapes 0 x).
Proof.
  intros Hx Hs. unfold shape_match.
  induction Hs as [|[t gs] shapes Ht Hs IH]; simpl; [reflexivity|].
  rewrite (is_prefix_seam t x c y Hx Ht).
  destruct (is_prefix t x) eqn:E; [|exact IH].
  simpl. unfold extend_after. simpl. now rewrite skipn_prefix_app.
Qed.

Lemma shape_match_nonempty shapes idx s m :
  Forall (fun sh => fst sh <> []) shapes ->
  shape_match shapes idx s = Some m -> m_text m <> [].
Proof.
  unfold shape_match. intros Hs H.
  destruct (find _ shapes) as [[t gs]|] eqn:E; [|discriminate].
  injection H as <-. simpl. apply find_some in E as [E _].
  rewrite List.Forall_forall in Hs. apply (Hs _ E).
Qed.

Lemma gervill_nonempty idx s m :
  match_at gervillRegex idx s = Some m -> m_text m <> [].
Proof.
  rewrite gervill_match_at. apply shape_match_nonempty.
  repeat constructor; discriminate.
Qed.

Lemma gervillCallback_text_groups m m' :
  m_text m = m_text m' -> m_groups m = m_groups m' ->
  gervillCallback m = gervillCallback m'.
Proof. unfold gervillCallback. now intros -> ->. Qed.

(** No match of the package pattern begins before a [j] or a [c] and runs
    into it. *)
Lemma gervill_local (x : jsstring) c y :
  c = 106 \/ c = 99 -> local_in gervillRegex x (c :: y).
Proof.
  intros Hc x1 x2 _ Hx2. rewrite !gervill_match_at.
  apply shape_match_seam; [exact Hx2|].
  destruct Hc as [-> | ->];
    repeat constructor; simpl; intros H;
    repeat (destruct H as [H|H]; [discriminate H|]); exact H.
Qed.

(** ** The doc-tag pattern *)

Lemma firstn_length_app {A} (a b : list A) n :
  n = length a -> firstn n (a ++ b) = a.
Proof.
  intros ->. rewrite firstn_app, Nat.sub_diag, firstn_all. simpl.
  apply app_nil_r.
Qed.

Ltac norm_const t :=
  let v := eval cbv -[not_brace is_whitespace not_whitespace is_word_char
                      is_line_terminator not_line_terminator
                      negb orb andb] in t in
  change t with v.

Lemma docTag_match_at_0 s :
  match_at finalCommentsLinkRegex 0 s = docTagShape 0 s.
Proof.
  unfold docTagShape.
  norm_const finalCommentsLinkRegex.
  norm_const (str "{@link"). norm_const (str "@throws").
  norm_const (str "@see"). norm_const (str "throws").
  norm_const (str "see"). norm_const (str "}").
  match goal with |- context [is_prefix ?p s] =>
    destruct (is_prefix p s) eqn:E end.
  - apply is_prefix_true in E. rewrite E. clear E.
    match goal with |- context [skipn ?n s] => generalize (skipn n s) end.
    clear s. intros s.
    unfold match_at. simpl. unfold match_text, advance. simpl.
    destruct s as [|c t]; simpl; [reflexivity|].
    destruct (not_brace c) eqn:Ec; simpl.
    + change (skipn 0 t) with t.
      match goal with |- context [star_loop ?f ?n ?g ?st ?k] =>
        replace (star_loop f n g st k) with (star_class not_brace 7 t [] k)
          by (symmetry; apply (star_loop_class not_brace g k); simpl; lia)
      end.
      rewrite star_class_max.
      2:{ intros i c0 t0 Hc. simpl.
          destruct (N.eqb_spec 125 c0) as [<-|]; [discriminate|reflexivity]. }
      simpl.
      pose proof (take_drop_while not_brace t) as Ht.
      destruct (drop_while not_brace t) as [|b after]; simpl; [reflexivity|].
      destruct (N.eqb_spec 125 b) as [<-|Hb]; simpl.
      * remember (take_while not_brace t) as tw eqn:Htw. clear Htw.
        subst t. change (skipn 0 after) with after.
        rewrite (firstn_length_app tw (125 :: after) (length tw))
          by reflexivity.
        replace (tw ++ 125 :: after) with ((tw ++ [125]) ++ after)
          by (now rewrite <- app_assoc).
        rewrite firstn_length_app by (rewrite length_app; reflexivity).
        rewrite Nat.add_1_r. reflexivity.
      * destruct b as [|b]; [reflexivity|].
        repeat (destruct b as [b|b|]; try reflexivity). congruence.
    + reflexivity.
  - unfold match_at. cbn [rmatch]. unfold match_text at 1.
    cbn [ms_rest]. rewrite E. clear E.
    cbn [or_else]. unfold match_text, advance. simpl.
    repeat split_text; reflexivity.
Qed.

Lemma docTagShape_shift idx s :
  docTagShape idx s = option_map (shift_result idx) (docTagShape 0 s).
Proof.
  unfold docTagShape.
  repeat match goal with
         | |- context [if ?b then _ else _] => destruct b
         | |- context [match ?l with [] => _ | _ :: _ => _ end] => destruct l
         | |- context [match ?c with 0 => _ | N.pos _ => _ end] => destruct c
         | |- context [match ?c with xH => _ | xO _ => _ | xI _ => _ end] =>
             destruct c
         end; reflexivity.
Qed.

(** The doc-tag pattern matches a link tag or a tag keyword, as
    [docTagShape] describes. *)
Lemma docTag_match_at idx s :
  match_at finalCommentsLinkRegex idx s = docTagShape idx s.
Proof.
  rewrite match_at_shift by reflexivity.
  now rewrite docTag_match_at_0, <- docTagShape_shift.
Qed.

Lemma take_while_app_stop (p : N -> bool) (a y : jsstring) :
  drop_while p a <> [] ->
  take_while p (a ++ y) = take_while p a
  /\ drop_while p (a ++ y) = drop_while p a ++ y.
Proof.
  induction a as [|c a IH]; simpl; [easy|].
  destruct (p c); [|easy]. intros H. destruct (IH H) as [-> ->]. easy.
Qed.

Lemma take_while_app_all (p : N -> bool) (a y : jsstring) :
  drop_while p a = [] ->
  take_while p (a ++ y) = a ++ take_while p y
  /\ drop_while p (a ++ y) = drop_while p y.
Proof.
  induction a as [|c a IH]; simpl; [easy|].
  destruct (p c); [|discriminate]. intros H.
  destruct (IH H) as [-> ->]. easy.
Qed.

Lemma drop_while_nil_forallb (p : N -> bool) (a : jsstring) :
  drop_while p a = [] <-> forallb p a = true.
Proof.
  induction a as [|c a IH]; simpl; [easy|].
  destruct (p c); simpl; [exact IH | easy].
Qed.

Lemma is_prefix_no_straddle_tail (t x y : jsstring) :
  (forall k, (k < length t)%nat -> is_prefix (skipn k t) y = false) ->
  is_prefix t (x ++ y) = is_prefix t x.
Proof.
  revert x. induction t as [|a t IH]; intros x H; [now destruct x|].
  destruct x as [|b x].
  - specialize (H 0%nat ltac:(simpl; lia)).
    change (is_prefix (a :: t) y = false) in H.
    change ([] ++ y) with y. now rewrite H.
  - simpl. rewrite IH; [reflexivity|].
    intros k Hk. apply (H (S k)). simpl. lia.
Qed.

(** [t] cannot begin in a non-empty [x] and end in [y] when no proper
    suffix of [t] is the beginning of [y]. *)
Lemma is_prefix_no_straddle (t x y : jsstring) :
  x <> [] ->
  (forall k, (1 <= k < length t)%nat -> is_prefix (skipn k t) y = false) ->
  is_prefix t (x ++ y) = is_prefix t x.
Proof.
  intros Hx H. destruct t as [|a t]; [now destruct x|].
  destruct x as [|b x]; [easy|]. simpl.
  rewrite is_prefix_no_straddle_tail; [reflexivity|].
  intros k Hk. apply (H (S k)). simpl. lia.
Qed.

Lemma docTag_nonempty idx s m :
  match_at finalCommentsLinkRegex idx s = Some m -> m_text m <> [].
Proof.
  rewrite docTag_match_at. unfold docTagShape.
  repeat match goal with
         | |- context [if ?b then _ else _] => destruct b
         | |- context [match ?l with [] => _ | _ :: _ => _ end] => destruct l
         | |- context [match ?c with 0 => _ | N.pos _ => _ end] => destruct c
         | |- context [match ?c with xH => _ | xO _ => _ | xI _ => _ end] =>
             destruct c
         end; intros [= <-] || discriminate; discriminate.
Qed.

Lemma docTagCallback_text_groups m m' :
  m_text m = m_text m' -> m_groups m = m_groups m' ->
  docTagCallback m = docTagCallback m'.
Proof. unfold docTagCallback. now intros _ ->. Qed.

Lemma docTagPass_hit s m :
  docTagShape 0 s = Some m ->
  docTagPass s = docTagCallback m ++ docTagPass (m_after m).
Proof.
  intros H. unfold docTagPass.
  apply (replace_global_hit finalCommentsLinkRegex docTagCallback
           eq_refl docTag_nonempty docTagCallback_text_groups).
  now rewrite docTag_match_at.
Qed.

Lemma docTagPass_miss c s :
  docTagShape 0 (c :: s) = None -> docTagPass (c :: s) = c :: docTagPass s.
Proof.
  intros H. unfold docTagPass.
  apply (replace_global_miss finalCommentsLinkRegex docTagCallback
           eq_refl docTag_nonempty docTagCallback_text_groups).
  now rewrite docTag_match_at.
Qed.

Lemma docTagPass_nil : docTagPass [] = [].
Proof.
  apply (replace_global_nil finalCommentsLinkRegex docTagCallback
           docTag_nonempty).
Qed.

Lemma docTagPass_app x y :
  local_in finalCommentsLinkRegex x y ->
  docTagPass (x ++ y) = docTagPass x ++ docTagPass y.
Proof.
  apply (replace_global_app finalCommentsLinkRegex docTagCallback
           eq_refl docTag_nonempty docTagCallback_text_groups).
Qed.

Lemma packagePass_hit s m :
  shape_match gervillShapes 0 s = Some m ->
  packagePass s = gervillCallback m ++ packagePass (m_after m).
Proof.
  intros H. unfold packagePass.
  apply (replace_global_hit gervillRegex gervillCallback
           eq_refl gervill_nonempty gervillCallback_text_groups).
  now rewrite gervill_match_at.
Qed.

Lemma packagePass_app x y :
  local_in gervillRegex x y ->
  packagePass (x ++ y) = packagePass x ++ packagePass y.
Proof.
  apply (replace_global_app gervillRegex gervillCallback
           eq_refl gervill_nonempty gervillCallback_text_groups).
Qed.

Lemma no_tag_tail_brace y : no_tag_tail (123 :: y).
Proof.
  intros t Ht k Hk. simpl in Ht.
  destruct Ht as [<-|[<-|[<-|[]]]];
    do 8 (destruct k as [|k]; [simpl in Hk; try lia; reflexivity|]);
    simpl in Hk; lia.
Qed.

Lemma no_tag_tail_at y :
  is_prefix (str "link") y = false -> no_tag_tail (64 :: y).
Proof.
  intros Hy t Ht k Hk. simpl in Ht.
  destruct Ht as [<-|[<-|[<-|[]]]];
    do 8 (destruct k as [|k];
          [simpl in Hk; try lia; try reflexivity; exact Hy|]);
    simpl in Hk; lia.
Qed.

Lemma docTagShape_seam (x y : jsstring) :
  x <> [] -> no_tag_tail y ->
  (is_prefix (str "{@link") x = true ->
   drop_while not_brace (skipn 6 x) <> [] \/ exists y', y = 123 :: y') ->
  docTagShape 0 (x ++ y) = option_map (extend_after y) (docTagShape 0 x).
Proof.
  intros Hx Hy Hl. unfold docTagShape.
  rewrite !(is_prefix_no_straddle _ x y Hx)
    by (apply Hy; simpl; auto).
  destruct (is_prefix (str "{@link") x) eqn:E1.
  - change 6%nat with (length (str "{@link")).
    rewrite (skipn_prefix_app _ _ _ E1).
    change (length (str "{@link")) with 6%nat in *.
    destruct (Hl eq_refl) as [Hd | [y' ->]].
    + destruct (take_while_app_stop not_brace _ y Hd) as [-> ->].
      destruct (take_while not_brace (skipn 6 x)) as [|c inner];
        [reflexivity|].
      destruct (drop_while not_brace (skipn 6 x)) as [|b after]; [easy|].
      simpl. destruct b as [|b]; [reflexivity|].
      repeat (destruct b as [b|b|]; try reflexivity).
    + destruct (drop_while not_brace (skipn 6 x)) as [|b after] eqn:Ed.
      * destruct (take_while_app_all not_brace _ (123 :: y') Ed) as [-> ->].
        simpl. rewrite app_nil_r.
        destruct (skipn 6 x); now destruct (take_while not_brace _).
      * assert (Hd : drop_while not_brace (skipn 6 x) <> [])
          by (rewrite Ed; discriminate).
        destruct (take_while_app_stop not_brace _ (123 :: y') Hd) as [-> ->].
        rewrite Ed.
        destruct (take_while not_brace (skipn 6 x)) as [|c inner];
          [reflexivity|].
        simpl. destruct b as [|b]; [reflexivity|].
        repeat (destruct b as [b|b|]; try reflexivity).
  - destruct (is_prefix (str "@throws") x) eqn:E2.
    + simpl. unfold extend_after. simpl.
      change 7%nat with (length (str "@throws")) at 1 3.
      now rewrite (skipn_prefix_app _ _ _ E2).
    + destruct (is_prefix (str "@see") x) eqn:E3; [|reflexivity].
      simpl. unfold extend_after. simpl.
      change 4%nat with (length (str "@see")) at 1 3.
      now rewrite (skipn_prefix_app _ _ _ E3).
Qed.

Lemma open_link_suffix (x1 x2 : jsstring) :
  open_link (x1 ++ x2) = false -> open_link x2 = false.
Proof.
  induction x1 as [|c x1 IH]; [easy|].
  simpl app. intros H. apply IH.
  change (open_link (c :: x1 ++ x2)) with
    ((is_prefix (str "{@link") (c :: x1 ++ x2)
      && match drop_while not_brace (skipn 6 (c :: x1 ++ x2)) with
         | [] => true
         | _ :: _ => false
         end) || open_link (x1 ++ x2)) in H.
  now apply orb_false_iff in H.
Qed.

Lemma open_link_closed (x : jsstring) :
  open_link x = false -> is_prefix (str "{@link") x = true ->
  drop_while not_brace (skipn 6 x) <> [].
Proof.
  destruct x as [|c x]; [discriminate|]. intros H E.
  change (open_link (c :: x)) with
    ((is_prefix (str "{@link") (c :: x)
      && match drop_while not_brace (skipn 6 (c :: x)) with
         | [] => true
         | _ :: _ => false
         end) || open_link x) in H.
  apply orb_false_iff in H as [H _]. rewrite E, andb_true_l in H.
  intros Hd. now rewrite Hd in H.
Qed.

(** No match of the doc-tag pattern begins before an opening brace and
    runs into it. *)
Lemma docTag_local_brace (x y : jsstring) :
  local_in finalCommentsLinkRegex x (123 :: y).
Proof.
  intros x1 x2 _ Hx2. rewrite !docTag_match_at.
  apply docTagShape_seam; [exact Hx2 | apply no_tag_tail_brace |].
  intros _. right. now exists y.
Qed.

(** Outside an open link tag, no match begins before an at-sign that does
    not start the word of a link opener and runs into it. *)
Lemma docTag_local_at (x y : jsstring) :
  open_link x = false -> is_prefix (str "link") y = false ->
  local_in finalCommentsLinkRegex x (64 :: y).
Proof.
  intros Hx Hy x1 x2 -> Hx2. rewrite !docTag_match_at.
  apply docTagShape_seam; [exact Hx2 | now apply no_tag_tail_at |].
  intros E. left. apply open_link_closed; [|exact E].
  now apply (open_link_suffix x1).
Qed.

Lemma docTagShape_other c s :
  c <> 123 -> c <> 64 -> docTagShape 0 (c :: s) = None.
Proof.
  intros H1 H2. unfold docTagShape.
  norm_const (str "{@link"). norm_const (str "@throws").
  norm_const (str "@see"). simpl.
  destruct (N.eqb_spec 123 c); [congruence|].
  destruct (N.eqb_spec 64 c); [congruence|]. reflexivity.
Qed.

Lemma plain_char_spec c :
  plain_char c = true -> not_brace c = true /\ c <> 123 /\ c <> 64.
Proof.
  unfold plain_char, not_brace. intros H.
  apply andb_true_iff in H as [H1 H2]. rewrite H1. split; [reflexivity|].
  apply negb_true_iff, orb_false_iff in H1 as [H1 _].
  apply negb_true_iff in H2.
  split; [now apply N.eqb_neq | now apply N.eqb_neq].
Qed.


Lemma forallb_plain_not_brace (g : jsstring) :
  forallb plain_char g = true -> forallb not_brace g = true.
Proof.
  induction g as [|c g IH]; [reflexivity|]. simpl. intros H.
  apply andb_true_iff in H as [Hc Hg].
  apply plain_char_spec in Hc as (-> & _). now rewrite IH.
Qed.


(** ** C1: the package pass *)

Lemma packagePass_shape (pkg sep pre post : jsstring) :
  In pkg packages -> In sep separators ->
  packagePass (pre ++ dotted sep pkg ++ post)
  = packagePass pre ++ (str "gervill" ++ sep ++ dotted sep pkg)
    ++ packagePass post.
Proof.
  intros Hp Hs. simpl in Hp, Hs.
  destruct Hp as [<-|[<-|[]]]; destruct Hs as [<-|[<-|[<-|[<-|[]]]]];
    match goal with |- context [dotted ?s ?p] => norm_const (dotted s p) end;
    norm_const (str "gervill");
    cbn [app];
    (rewrite packagePass_app
       by (apply gervill_local; (now left) || (now right)));
    f_equal;
    match goal with |- packagePass ?s = _ =>
      rewrite (packagePass_hit s _ eq_refl)
    end; reflexivity.
Qed.

Lemma gervill_text_plain (pkg sep : jsstring) :
  In pkg packages -> In sep separators ->
  exists g, str "gervill" ++ sep ++ dotted sep pkg = 103 :: g
            /\ forallb plain_char (103 :: g) = true.
Proof.
  intros Hp Hs. simpl in Hp, Hs.
  destruct Hp as [<-|[<-|[]]]; destruct Hs as [<-|[<-|[<-|[<-|[]]]]];
    eexists; (split; [vm_compute; reflexivity | vm_compute; reflexivity]).
Qed.



(** ** C2: the doc-tag pass *)

Lemma docTagShape_link (inner post : jsstring) :
  inner <> [] -> forallb not_brace inner = true ->
  docTagShape 0 (str "{@link" ++ inner ++ str "}" ++ post)
  = Some (MatchResult (str "{@link" ++ inner ++ str "}")
            [Some inner; None] post (7 + length inner)).
Proof.
  intros Hne Hnb. unfold docTagShape.
  rewrite is_prefix_app.
  change 6%nat with (length (str "{@link")). rewrite skipn_length_app.
  destruct (take_while_all not_brace inner (str "}" ++ post) Hnb)
    as [-> ->].
  - intros c t' [= <- _]. reflexivity.
  - destruct inner as [|c inner]; [easy|]. reflexivity.
Qed.

(** A link tag is replaced by its inner text. *)
Lemma docTagPass_link (pre inner post : jsstring) :
  inner <> [] -> forallb not_brace inner = true ->
  docTagPass (pre ++ str "{@link" ++ inner ++ str "}" ++ post)
  = docTagPass pre ++ inner ++ docTagPass post.
Proof.
  intros Hne Hnb.
  rewrite docTagPass_app by apply docTag_local_brace.
  f_equal.
  now rewrite (docTagPass_hit _ _ (docTagShape_link inner post Hne Hnb)).
Qed.

(** A tag keyword loses its at-sign; what follows it is rewritten on its
    own. *)
Lemma docTagPass_keyword (kw pre post : jsstring) :
  In kw [str "throws"; str "see"] -> open_link pre = false ->
  docTagPass (pre ++ 64 :: kw ++ post)
  = docTagPass pre ++ kw ++ docTagPass post.
Proof.
  intros Hk Hpre. simpl in Hk.
  destruct Hk as [<-|[<-|[]]];
    (rewrite docTagPass_app
       by (apply docTag_local_at; [exact Hpre | reflexivity]));
    f_equal;
    match goal with |- docTagPass ?s = _ =>
      rewrite (docTagPass_hit s _ eq_refl)
    end; reflexivity.
Qed.

(** C2, as the script has it.  In the renamed copy a link tag with a
    non-empty inner text free of braces is replaced by that inner text; a
    [throws] or [see] keyword behind an at-sign, outside a link tag left
    open before it, is replaced by the keyword without the at-sign; in both
    cases the text before and the text after are rewritten on their own, so
    nothing that follows the keyword is removed. *)
Theorem docTags_rewritten (content pre post : jsstring) :
  (forall inner,
      inner <> [] -> forallb not_brace inner = true ->
      packagePass content = pre ++ str "{@link" ++ inner ++ str "}" ++ post ->
      newFileContent content = docTagPass pre ++ inner ++ docTagPass post)
  /\ (forall kw,
         In kw [str "throws"; str "see"] -> open_link pre = false ->
         packagePass content = pre ++ 64 :: kw ++ post ->
         newFileContent content = docTagPass pre ++ kw ++ docTagPass post).
Proof.
  unfold newFileContent. split.
  - intros inner Hne Hnb ->. now apply docTagPass_link.
  - intros kw Hk Hpre ->. now apply docTagPass_keyword.
Qed.

Lemma docTags_rewritten_witness :
  newFileContent (str "/** {@link Foo#bar} x */")
  = str "/**  Foo#bar x */"
  /\ (open_link (str "/** ") = false
      /\ newFileContent (str "/** @throws IOException if closed */")
         = str "/** throws IOException if closed */").
Proof.
  split.
  - refine (proj1 (docTags_rewritten (str "/** {@link Foo#bar} x */")
                     (str "/** ") (str " x */"))
              (str " Foo#bar") _ _ _);
      [discriminate | reflexivity | reflexivity].
  - split; [reflexivity|].
    refine (proj2 (docTags_rewritten
                     (str "/** @throws IOException if closed */")
                     (str "/** ") (str " IOException if closed */"))
              (str "throws") _ _ _);
      [now left | reflexivity | reflexivity].
Defined.

(** C2 as stated fails: the at-sign of the keyword is dropped, and the
    description after the keyword stays. *)
Lemma docTags_keyword_counterexample :
  newFileContent (str "/** @throws IOException if closed */")
  = str "/** throws IOException if closed */"
  /\ ~ In 64 (newFileContent (str "/** @throws IOException if closed */")).
Proof.
  split; [reflexivity|]. vm_compute. intuition discriminate.
Qed.

(** ** The last token of a listing line *)

Lemma forallb_rev (p : N -> bool) (s : jsstring) :
  forallb p (rev s) = forallb p s.
Proof.
  induction s as [|c s IH]; [reflexivity|]. simpl.
  now rewrite forallb_app, IH, andb_comm; simpl; rewrite andb_true_r.
Qed.

Lemma take_while_id (p : N -> bool) (s : jsstring) :
  forallb p s = true -> take_while p s = s.
Proof.
  induction s as [|c s IH]; [reflexivity|]. simpl. intros H.
  apply andb_true_iff in H as [-> H]. now rewrite IH.
Qed.

Lemma final_token_cons c s :
  final_token (c :: s)
  = if forallb not_whitespace (c :: s) then c :: s else final_token s.
Proof.
  unfold final_token. simpl rev.
  destruct (forallb not_whitespace s) eqn:Es.
  - assert (Hd : drop_while not_whitespace (rev s) = [])
      by (now apply drop_while_nil_forallb; rewrite forallb_rev).
    destruct (take_while_app_all not_whitespace _ [c] Hd) as [-> _].
    rewrite (take_while_id _ (rev s)) by now rewrite forallb_rev.
    simpl. rewrite Es, andb_true_r.
    destruct (not_whitespace c); simpl.
    + now rewrite rev_app_distr, rev_involutive.
    + now rewrite app_nil_r, rev_involutive.
  - assert (Hd : drop_while not_whitespace (rev s) <> []).
    { intros H. apply drop_while_nil_forallb in H.
      rewrite forallb_rev in H. congruence. }
    destruct (take_while_app_stop not_whitespace _ [c] Hd) as [-> _].
    simpl. now rewrite Es, andb_false_r.
Qed.

Lemma lastToken_match_at_0 s :
  match_at lastTokenRegex 0 s
  = match s with
    | [] => None
    | _ :: _ =>
        if forallb not_whitespace s
        then Some (MatchResult s [] [] (length s))
        else None
    end.
Proof.
  unfold match_at, lastTokenRegex, Plus, nonws.
  destruct s as [|c s]; [reflexivity|].
  cbn [rmatch ms_rest ngroups]. simpl forallb.
  destruct (not_whitespace c); [|reflexivity].
  unfold advance. cbn [ms_idx ms_rest ms_caps].
  change (skipn 1 (c :: s)) with s.
  match goal with |- context [star_loop ?f ?n ?g ?st ?k] =>
    replace (star_loop f n g st k)
      with (star_class not_whitespace 1 s [] k)
      by (symmetry; apply (star_loop_class not_whitespace g k); simpl; lia)
  end.
  rewrite star_class_max by reflexivity.
  cbn [ms_rest ms_idx ms_caps]. simpl andb.
  pose proof (take_drop_while not_whitespace s) as Hs.
  destruct (drop_while not_whitespace s) as [|b t] eqn:Ed.
  - rewrite (proj1 (drop_while_nil_forallb _ _) Ed).
    rewrite app_nil_r in Hs. rewrite Hs. cbn [ms_idx ms_rest ms_caps].
    simpl. now rewrite firstn_all.
  - destruct (forallb not_whitespace s) eqn:Ef; [|reflexivity].
    apply drop_while_nil_forallb in Ef. congruence.
Qed.

Lemma lastToken_match_at idx s :
  match_at lastTokenRegex idx s
  = match s with
    | [] => None
    | _ :: _ =>
        if forallb not_whitespace s
        then Some (MatchResult s [] [] (idx + length s))
        else None
    end.
Proof.
  rewrite match_at_shift by reflexivity. rewrite lastToken_match_at_0.
  destruct s; [reflexivity|]. now destruct (forallb _ _).
Qed.

Lemma search_lastToken s :
  forall idx,
    search lastTokenRegex idx s
    = match final_token s with
      | [] => None
      | t =>
          Some (firstn (length s - length t) s,
                MatchResult t [] [] (idx + length s))
      end.
Proof.
  induction s as [|c s IH]; intros idx; [reflexivity|].
  cbn [search]. rewrite lastToken_match_at, final_token_cons, IH.
  destruct (forallb not_whitespace (c :: s)).
  - now rewrite Nat.sub_diag.
  - destruct (final_token s) as [|b t] eqn:Et; [reflexivity|].
    assert (Hl : (length (b :: t) <= length s)%nat).
    { rewrite <- Et. unfold final_token. rewrite length_rev.
      rewrite <- (length_rev s).
      rewrite <- (take_drop_while not_whitespace (rev s)) at 2.
      rewrite length_app. lia. }
    replace (length (c :: s) - length (b :: t))%nat
      with (S (length s - length (b :: t))) by (simpl in *; lia).
    simpl firstn. do 3 f_equal. simpl. lia.
Qed.

Lemma match_global_lastToken s :
  match_global lastTokenRegex s
  = match final_token s with
    | [] => None
    | t => Some [t]
    end.
Proof.
  unfold match_global. cbn [match_loop]. rewrite search_lastToken.
  destruct (final_token s) as [|b t]; [reflexivity|].
  cbn [m_text m_after]. now destruct (length s).
Qed.

Lemma toEntry_final_token line :
  toEntry line
  = match final_token line with
    | [] => Throw TypeError
    | t => Done (Entry (entryIsDirectory line) t)
    end.
Proof.
  unfold toEntry. rewrite match_global_lastToken.
  now destruct (final_token line).
Qed.

Lemma final_token_nil line :
  final_token line = [] <-> line = [] \/ ends_with_whitespace line = true.
Proof.
  unfold final_token, ends_with_whitespace.
  destruct (rev line) as [|c t] eqn:E.
  - split; [|reflexivity]. intros _. left.
    apply (f_equal (@rev N)) in E. now rewrite rev_involutive in E.
  - simpl. unfold not_whitespace at 1.
    destruct (is_whitespace c); simpl.
    + split; [now right | reflexivity].
    + split.
      * intros H. apply (f_equal (@length N)) in H.
        rewrite length_app in H. simpl in H. lia.
      * intros [-> | H]; discriminate.
Qed.

(** ** C4 and C10: the directory lister *)

Lemma map_outcome_toEntry_done (lines : list jsstring) :
  (forall line, In line lines -> ends_with_whitespace line = false
                                 /\ line <> []) ->
  map_outcome toEntry lines
  = Done (map (fun line => Entry (entryIsDirectory line) (final_token line))
              lines).
Proof.
  induction lines as [|l lines IH]; intros H; [reflexivity|].
  cbn [map_outcome map]. rewrite toEntry_final_token.
  destruct (final_token l) as [|b t] eqn:E.
  - apply final_token_nil in E. destruct (H l (or_introl eq_refl)) as [H1 H2].
    destruct E; congruence.
  - rewrite IH; [reflexivity|]. intros line Hl. apply H. now right.
Qed.

Lemma map_outcome_toEntry_throw (lines : list jsstring) line :
  In line lines -> ends_with_whitespace line = true ->
  map_outcome toEntry lines = Throw TypeError.
Proof.
  intros Hin Hws. induction lines as [|l lines IH]; [easy|].
  cbn [map_outcome]. rewrite toEntry_final_token.
  destruct (final_token l) as [|b t] eqn:E; [reflexivity|].
  destruct Hin as [-> | Hin].
  - assert (final_token line = []) by (apply final_token_nil; now right).
    congruence.
  - now rewrite IH.
Qed.

Lemma keepEntry_nonempty line : keepEntry line = true -> line <> [].
Proof. now intros H ->. Qed.

(** C4, as the script has it.  For a listing document in which no kept
    line ends in white space, [getFileListing] returns one entry for each
    line that is not blank after trimming and that starts with [d] or ends
    in [.java], in the order of the document; the entry is a directory
    exactly when the line starts with [d], and its name is the final
    white-space-delimited token of the line. *)
Theorem listing_entries (doc : jsstring) :
  (forall line, In line (split_on 10 doc) -> keepEntry line = true ->
                ends_with_whitespace line = false) ->
  parseListing doc
  = Done (map (fun line => Entry (entryIsDirectory line) (final_token line))
              (List.filter keepEntry (split_on 10 doc))).
Proof.
  intros H. unfold parseListing. apply map_outcome_toEntry_done.
  intros line Hl. apply List.filter_In in Hl as [Hin Hk].
  split; [now apply H | now apply keepEntry_nonempty].
Qed.

Lemma listing_entries_witness :
  parseListing (str "drwxr-xr-x 0 midi" ++ [10]
                ++ str "-rw-r--r-- 17 MidiSystem.java" ++ [10]
                ++ str "-rw-r--r-- 9 package.html" ++ [10])
  = Done [Entry true (str "midi"); Entry false (str "MidiSystem.java")].
Proof.
  refine (listing_entries (str "drwxr-xr-x 0 midi" ++ [10]
                ++ str "-rw-r--r-- 17 MidiSystem.java" ++ [10]
                ++ str "-rw-r--r-- 9 package.html" ++ [10]) _).
  intros line Hl Hk. vm_compute in Hl.
  repeat (destruct Hl as [<-|Hl]; [reflexivity || discriminate Hk|]).
  destruct Hl.
Defined.

(** C4 as stated fails on a listing with CRLF line ends: the directory
    line is kept, ends in a carriage return, and the call throws. *)
Lemma listing_crlf_counterexample :
  parseListing (str "drwxr-xr-x 0 midi" ++ [13; 10]) = Throw TypeError.
Proof. reflexivity. Qed.

(** C10.  A listing line that passes the filter and ends in white space
    has no final token for the pattern to match, and [getFileListing]
    throws instead of returning entries. *)
Theorem listing_trailing_whitespace_throws (doc line : jsstring) :
  In line (split_on 10 doc) -> keepEntry line = true ->
  ends_with_whitespace line = true ->
  match_global lastTokenRegex line = None
  /\ parseListing doc = Throw TypeError.
Proof.
  intros Hin Hk Hws. split.
  - rewrite match_global_lastToken.
    assert (final_token line = []) as -> by (apply final_token_nil; now right).
    reflexivity.
  - unfold parseListing. apply (map_outcome_toEntry_throw _ line); [|exact Hws].
    apply List.filter_In. now split.
Qed.

Lemma listing_trailing_whitespace_throws_witness :
  In (str "drwxr-xr-x 0 midi" ++ [13])
     (split_on 10 (str "drwxr-xr-x 0 midi" ++ [13; 10]
                   ++ str "-rw-r--r-- 17 MidiSystem.java" ++ [13; 10]))
  /\ match_global lastTokenRegex (str "drwxr-xr-x 0 midi" ++ [13]) = None
  /\ parseListing (str "drwxr-xr-x 0 midi" ++ [13; 10]
                   ++ str "-rw-r--r-- 17 MidiSystem.java" ++ [13; 10])
     = Throw TypeError.
Proof.
  assert (Hin : In (str "drwxr-xr-x 0 midi" ++ [13])
     (split_on 10 (str "drwxr-xr-x 0 midi" ++ [13; 10]
                   ++ str "-rw-r--r-- 17 MidiSystem.java" ++ [13; 10])))
    by (vm_compute; now left).
  split; [exact Hin|].
  exact (listing_trailing_whitespace_throws _ _ Hin eq_refl eq_refl).
Defined.

(** ** Traces *)

Lemma all_events_ret {S A} (P : event -> Prop) (a : A) :
  all_events P (@ret S A a).
Proof. intros w. constructor. Qed.

Lemma all_events_out_of_fuel {S A} (P : event -> Prop) :
  all_events P (@out_of_fuel S A).
Proof. intros w. constructor. Qed.

Lemma all_events_throw {S A} (P : event -> Prop) e :
  all_events P (@throw S A e).
Proof. intros w. constructor. Qed.

Lemma all_events_lift {S A} (P : event -> Prop) (o : outcome A) :
  all_events P (@lift_outcome S A o).
Proof. intros w. constructor. Qed.

Lemma all_events_bind {S A B} (P : event -> Prop) (m : M S A)
    (k : A -> M S B) :
  all_events P m -> (forall a, all_events P (k a)) ->
  all_events P (bind m k).
Proof.
  intros Hm Hk w. unfold bind. specialize (Hm w).
  destruct (m w) as [[[a|e|] w1] ev1]; simpl in *; try exact Hm.
  specialize (Hk a w1).
  destruct (k a w1) as [[r w2] ev2]. simpl in *.
  apply Forall_app. now split.
Qed.

Lemma all_events_for_each {S A} (P : event -> Prop) (l : list A)
    (body : A -> M S unit) :
  (forall a, In a l -> all_events P (body a)) ->
  all_events P (for_each l body).
Proof.
  induction l as [|a l IH]; intros H; simpl.
  - apply all_events_ret.
  - apply all_events_bind; [apply H; now left|].
    intros _. apply IH. intros b Hb. apply H. now right.
Qed.

Section ScriptTraces.
Variable E : world.
Variable skipclasses : gset (list N).
Variable P : event -> Prop.

Lemma all_events_request kind path :
  P (request_event kind path) ->
  all_events P (getFileContentsAsString E kind path).
Proof.
  intros H w. unfold getFileContentsAsString.
  destruct (http_get E path w) as [[data|] w']; repeat constructor; exact H.
Qed.

Lemma all_events_mkdir path : P (EMkdir path) -> all_events P (mkdir E path).
Proof.
  intros H w. unfold mkdir.
  destruct (fs_mkdir E path w) as [[|] w']; repeat constructor; exact H.
Qed.

Lemma all_events_writeFile path content :
  P (EWriteFile path content) -> all_events P (writeFile E path content).
Proof.
  intros H w. unfold writeFile.
  destruct (fs_writeFile E path content w) as [[|] w'];
    repeat constructor; exact H.
Qed.

Lemma all_events_log message :
  P (ELog message) -> all_events P (console_log E message).
Proof. intros H w. repeat constructor. exact H. Qed.

Lemma all_events_getFileListing path :
  P (EListing path) -> all_events P (getFileListing E path).
Proof.
  intros H. apply all_events_bind.
  - now apply all_events_request.
  - intros doc. apply all_events_lift.
Qed.

(** What [fetchFileAux] calls, in terms of the path it works on. *)
Lemma all_events_fetchFileAux directory filename makeCopies :
  let path := to_text directory ++ str "/" ++ to_text filename in
  (forall p, P (EMkdir p)) -> (forall m, P (ELog m)) ->
  P (EDownload path) ->
  (forall tree content, In tree outputTrees ->
     P (EWriteFile (tree ++ path) content)) ->
  all_events P (fetchFileAux E directory filename makeCopies).
Proof.
  intros path Hmk Hlog Hget Hwr. unfold fetchFileAux.
  repeat first
    [ apply all_events_bind; [|intros ?]
    | apply all_events_mkdir; apply Hmk
    | apply all_events_log; apply Hlog
    | apply all_events_request; exact Hget
    | apply all_events_writeFile; apply Hwr; simpl; tauto ].
  destruct makeCopies; [|apply all_events_ret].
  unfold createFileCopies.
  repeat first
    [ apply all_events_bind; [|intros ?]
    | apply all_events_mkdir; apply Hmk
    | apply all_events_writeFile; apply Hwr; simpl; tauto ].
Qed.

End ScriptTraces.

(** ** C5: excluded files *)

Lemma outputTrees_apart (t1 t2 a b : jsstring) :
  In t1 outputTrees -> In t2 outputTrees -> t1 ++ a = t2 ++ b -> a = b.
Proof.
  unfold outputTrees. norm_const originalTree. norm_const renamedTree.
  norm_const originalCompTree. norm_const renamedCompTree.
  intros H1 H2 H. simpl in H1, H2.
  destruct H1 as [<-|[<-|[<-|[<-|[]]]]];
    destruct H2 as [<-|[<-|[<-|[<-|[]]]]];
    simpl in H; try discriminate H;
    repeat (injection H as H); exact H.
Qed.

Lemma leaves_alone_other (p path : jsstring) :
  path <> p ->
  leaves_alone p (EDownload path)
  /\ forall tree content, In tree outputTrees ->
       leaves_alone p (EWriteFile (tree ++ path) content).
Proof.
  intros Hne. split.
  - split; [congruence | discriminate].
  - intros tree content Ht. split; [discriminate|].
    intros tree' content' Ht' [= H _]. apply Hne.
    now apply (outputTrees_apart tree tree').
Qed.

Lemma fetchDirectoryAux_leaves_alone (E : world) (skipclasses : gset (list N)) p :
  p ∈ skipclasses ->
  forall fuel directory makeCopies,
    all_events (leaves_alone p)
      (fetchDirectoryAux E skipclasses fuel directory makeCopies).
Proof.
  intros Hp. induction fuel as [|fuel IH]; intros directory makeCopies.
  - apply all_events_out_of_fuel.
  - cbn [fetchDirectoryAux]. apply all_events_bind.
    + apply all_events_getFileListing. split; discriminate.
    + intros listing. apply all_events_for_each. intros entry _.
      unfold fetchEntry. destruct (isDirectory entry); [apply IH|].
      case_bool_decide as Hskip; simpl; [apply all_events_ret|].
      assert (Hne : directory ++ str "/" ++ name entry <> p)
        by (intros Heq; apply Hskip; cbv zeta; now rewrite Heq).
      destruct (leaves_alone_other p _ Hne) as [Hd Hw].
      apply all_events_fetchFileAux;
        [intros q | intros m | exact Hd | exact Hw]; split; discriminate.
Qed.

(** C5.  Whatever the server answers and the file system does, a walk of
    [fetchDirectory] never issues the download request for a remote path
    of the exclusion set and never writes a file for it in the mirror or
    in one of the three derived trees. *)
Theorem excluded_never_downloaded (E : world) (skipclasses : gset (list N)) p
    fuel root makeCopies w :
  p ∈ skipclasses ->
  Forall (leaves_alone p)
    (events_of (fetchDirectory E skipclasses fuel root makeCopies w)).
Proof.
  intros Hp. now apply fetchDirectoryAux_leaves_alone.
Qed.

Lemma excluded_never_downloaded_witness :
  str "com/sun/media/sound/Bad.java" ∈ scenario_skip
  /\ Forall (leaves_alone (str "com/sun/media/sound/Bad.java"))
       (events_of (fetchDirectory scenario_world scenario_skip 3
                     (str "com/sun/media/sound/") true empty_disk)).
Proof.
  split.
  - apply elem_of_singleton. reflexivity.
  - apply excluded_never_downloaded. apply elem_of_singleton. reflexivity.
Defined.

(** In the scenario the walk completes and downloads the two other files,
    the one of the sub-directory first. *)
Example scenario_downloads :
  let r := fetchDirectory scenario_world scenario_skip 3
             (str "com/sun/media/sound/") false empty_disk in
  outcome_of r = Done tt
  /\ List.filter (fun e => match e with EDownload _ => true | _ => false end)
       (events_of r)
     = [EDownload (str "com/sun/media/sound/midi/Note.java");
        EDownload (str "com/sun/media/sound/Good.java")].
Proof. vm_compute. split; reflexivity. Qed.

(** ** C9: the download flag *)

Lemma mirror_only_original (x content : jsstring) :
  mirror_only (EMkdir (originalTree ++ x))
  /\ mirror_only (EWriteFile (originalTree ++ x) content).
Proof.
  unfold mirror_only, download_event, writes_under.
  rewrite is_prefix_app. repeat split; reflexivity.
Qed.

Lemma fetchDirectoryAux_mirror_only (E : world)
    (skipclasses : gset (list N)) :
  forall fuel directory,
    all_events mirror_only (fetchDirectoryAux E skipclasses fuel directory false).
Proof.
  induction fuel as [|fuel IH]; intros directory.
  - apply all_events_out_of_fuel.
  - cbn [fetchDirectoryAux]. apply all_events_bind.
    + apply all_events_getFileListing. now repeat split.
    + intros listing. apply all_events_for_each. intros entry _.
      unfold fetchEntry. destruct (isDirectory entry); [apply IH|].
      case_bool_decide; simpl; [apply all_events_ret|].
      unfold fetchFileAux.
      repeat first
        [ apply all_events_bind; [|intros ?]
        | apply all_events_mkdir; apply (proj1 (mirror_only_original _ []))
        | apply all_events_log; now repeat split
        | apply all_events_request; now repeat split
        | apply all_events_writeFile; apply mirror_only_original
        | apply (all_events_ret mirror_only tt) ].
Qed.

(** Under the flag [-d] every directory made and every file written has
    a path that begins with [original/]; none has a path that begins with
    the prefix of a derived tree, and nothing is read: each of the three
    walks runs with copy generation off. *)
Lemma download_flag_paths (E : world)
    (skipclasses : gset (list N)) fuel w :
  Forall mirror_only
    (events_of (main E skipclasses fuel (Some (str "-d")) w)).
Proof.
  revert w. change (all_events mirror_only
                      (main E skipclasses fuel (Some (str "-d")))).
  unfold main.
  replace (jseq (str "-d") (str "-d")) with true by reflexivity.
  repeat (apply all_events_bind; [|intros ?]);
    apply fetchDirectoryAux_mirror_only.
Qed.

(** ** C7: the single-file entry point *)

Lemma fileSplit_match_at_0 c s :
  match_at fileSplitRegex 0 (c :: s)
  = if (c =? 47) && splits_before s
    then Some (MatchResult [47] [] s 1)
    else None.
Proof.
  unfold match_at, fileSplitRegex, splits_before, match_at.
  cbn [rmatch]. unfold match_text at 1. cbn [ms_rest ms_idx ms_caps].
  norm_const (str "/"). cbn [is_prefix length].
  rewrite (N.eqb_sym c 47).
  destruct (N.eqb_spec 47 c) as [<-|Hc]; [|reflexivity].
  cbn [andb advance ms_rest ms_idx ms_caps skipn Nat.add ngroups].
  change (MState 1 s []) with (shift 1 (MState 0 s [])).
  rewrite (rmatch_shift fileLookahead eq_refl 1 _ (MState 0 s []) Some Some)
    by reflexivity.
  destruct (rmatch fileLookahead 1 (MState 0 s []) Some) as [st|];
    reflexivity.
Qed.

Lemma fileSplit_match_at idx c s :
  match_at fileSplitRegex idx (c :: s)
  = if (c =? 47) && splits_before s
    then Some (MatchResult [47] [] s (idx + 1))
    else None.
Proof.
  rewrite match_at_shift by reflexivity. rewrite fileSplit_match_at_0.
  now destruct ((c =? 47) && splits_before s).
Qed.

Lemma split_loop_no_slash (name : jsstring) :
  ~ In 47 name ->
  forall fuel p q cur,
    (length name <= fuel)%nat ->
    split_loop fuel fileSplitRegex p q cur name = [cur ++ name].
Proof.
  intros Hn. induction name as [|c name IH]; intros fuel p q cur Hf.
  - destruct fuel; simpl; now rewrite ?app_nil_r.
  - destruct fuel as [|fuel]; [simpl in Hf; lia|].
    cbn [split_loop]. rewrite fileSplit_match_at.
    destruct (N.eqb_spec c 47) as [->|Hc]; [exfalso; apply Hn; now left|].
    cbn [andb]. rewrite IH.
    + now rewrite <- app_assoc.
    + intros H. apply Hn. now right.
    + simpl in Hf. lia.
Qed.

(** The split of a path whose only matched slash is the one before the
    file name. *)
Lemma split_directory_name (directory name : jsstring) :
  split_free directory (47 :: name) = true ->
  splits_before name = true -> ~ In 47 name ->
  forall fuel p q cur,
    (p <= q)%nat ->
    (length directory + S (length name) <= fuel)%nat ->
    split_loop fuel fileSplitRegex p q cur (directory ++ 47 :: name)
    = [cur ++ directory; name].
Proof.
  intros Hfree Hname Hslash.
  induction directory as [|c d IH]; intros fuel p q cur Hpq Hf.
  - destruct fuel as [|fuel]; [simpl in Hf; lia|].
    cbn [app split_loop]. rewrite fileSplit_match_at, Hname.
    cbn [N.eqb andb m_end m_after]. rewrite N.eqb_refl. cbn [andb m_end m_after].
    replace (q + 1 =? p)%nat with false
      by (symmetry; apply Nat.eqb_neq; lia).
    rewrite app_nil_r. f_equal.
    rewrite split_loop_no_slash; [reflexivity | exact Hslash |].
    simpl in Hf. lia.
  - destruct fuel as [|fuel]; [simpl in Hf; lia|].
    cbn [split_free] in Hfree. apply andb_true_iff in Hfree as [Hc Hfree].
    apply negb_true_iff in Hc.
    change ((c :: d) ++ 47 :: name) with (c :: (d ++ 47 :: name)).
    cbn [split_loop]. rewrite fileSplit_match_at, Hc.
    rewrite (IH Hfree); [now rewrite <- app_assoc | lia | simpl in Hf; lia].
Qed.

Lemma split_regex_directory_name (directory name : jsstring) :
  split_free directory (47 :: name) = true ->
  splits_before name = true -> ~ In 47 name ->
  split_regex fileSplitRegex (directory ++ str "/" ++ name)
  = [directory; name].
Proof.
  intros Hfree Hname Hslash. unfold split_regex.
  change (str "/" ++ name) with (47 :: name).
  destruct (directory ++ 47 :: name) as [|c s] eqn:E;
    [now destruct directory|].
  rewrite <- E.
  rewrite (split_directory_name directory name Hfree Hname Hslash); 
    [reflexivity | lia |].
  rewrite length_app. simpl. lia.
Qed.

(** Where the slash before the file name is the only slash of the path
    that is followed by word characters, one more code unit and [java],
    and the path is not in the exclusion set, [fetchFile] on the path and
    the per-file branch of the directory walk on the directory and the
    file name are the same routine. *)
Lemma fetchFile_same_as_walk (E : world) (skipclasses : gset (list N))
    (recur : jsstring -> bool -> M (wstate E) unit)
    (directory fname : jsstring) (makeCopies : bool) :
  split_free directory (47 :: fname) = true ->
  splits_before fname = true ->
  ~ In 47 fname ->
  directory ++ str "/" ++ fname ∉ skipclasses ->
  fetchFile E (directory ++ str "/" ++ fname) makeCopies
  = fetchEntry E skipclasses recur directory makeCopies (Entry false fname).
Proof.
  intros Hfree Hname Hslash Hskip. unfold fetchFile, fetchEntry.
  rewrite split_regex_directory_name by assumption.
  cbn [isDirectory name nth_error].
  now rewrite bool_decide_eq_false_2.
Qed.

Example fetchFile_same_as_walk_example :
  (str "javax/sound/midi" ++ str "/" ++ str "MidiSystem.java"
     ∉ scenario_skip)
  /\ fetchFile scenario_world (str "javax/sound/midi/MidiSystem.java") true
     = fetchEntry scenario_world scenario_skip (fun _ _ => ret tt)
         (str "javax/sound/midi") true (Entry false (str "MidiSystem.java")).
Proof.
  assert (Hskip : str "javax/sound/midi" ++ str "/" ++ str "MidiSystem.java"
                  ∉ scenario_skip)
    by (intros H; apply elem_of_singleton in H; discriminate H).
  split; [exact Hskip|].
  refine (fetchFile_same_as_walk scenario_world scenario_skip _
            (str "javax/sound/midi") (str "MidiSystem.java") true
            _ _ _ Hskip).
  - vm_compute. reflexivity.
  - vm_compute. reflexivity.
  - vm_compute. intuition discriminate.
Qed.

(** C7.  [fetchFile] does not recover the directory and the file name
    of every path.  For a file name that is not a bare identifier nothing
    is split off: the whole path becomes the directory, the file name is
    [undefined], and the request and the write go to the path with
    [/undefined] after it, where the walk requests and writes the file
    itself.  The dot of the split pattern stands for any code unit, so a
    slash before a directory that is followed by a directory named [java]
    is split at too, and the file name is lost again. *)
Theorem fetchFile_file_name_lost :
  events_of (fetchFile scenario_world (str "javax/sound/midi/package-info.java")
               false empty_disk)
  = [EMkdir (str "original/javax/sound/midi/package-info.java");
     ELog (str "downloading javax/sound/midi/package-info.java/undefined");
     EDownload (str "javax/sound/midi/package-info.java/undefined");
     ELog (str "saving      javax/sound/midi/package-info.java/undefined");
     EWriteFile (str "original/javax/sound/midi/package-info.java/undefined")
       (str "package com.sun.media.sound;" ++ [10]
        ++ str "import javax.sound.midi.Note;" ++ [10]
        ++ str "class A {}" ++ [10])]
  /\ events_of (fetchEntry scenario_world scenario_skip (fun _ _ => ret tt)
                  (str "javax/sound/midi") false
                  (Entry false (str "package-info.java")) empty_disk)
     = [EMkdir (str "original/javax/sound/midi");
        ELog (str "downloading javax/sound/midi/package-info.java");
        EDownload (str "javax/sound/midi/package-info.java");
        ELog (str "saving      javax/sound/midi/package-info.java");
        EWriteFile (str "original/javax/sound/midi/package-info.java")
          (str "package com.sun.media.sound;" ++ [10]
           ++ str "import javax.sound.midi.Note;" ++ [10]
           ++ str "class A {}" ++ [10])]
  /\ split_regex fileSplitRegex (str "com/sun/java/Foo.java")
     = [str "com"; str "sun/java"; str "Foo.java"]
  /\ fetchFile scenario_world (str "com/sun/java/Foo.java") false
     = fetchFileAux scenario_world (Some (str "com")) (Some (str "sun/java"))
         false.
Proof.
  split; [vm_compute; reflexivity|].
  split; [vm_compute; reflexivity|].
  split; [vm_compute; reflexivity|].
  unfold fetchFile.
  replace (split_regex fileSplitRegex (str "com/sun/java/Foo.java"))
    with [str "com"; str "sun/java"; str "Foo.java"]
    by (vm_compute; reflexivity).
  reflexivity.
Qed.

Lemma or_else_is_Some_r {A} (a : option A) (b : unit -> option A) :
  is_Some (b tt) -> is_Some (or_else a b).
Proof. destruct a; simpl; eauto. Qed.

Lemma or_else_is_Some_l {A} (a : option A) (b : unit -> option A) :
  is_Some a -> is_Some (or_else a b).
Proof. intros [x ->]. simpl. eauto. Qed.

(** A greedy star gives back what it must: if the continuation succeeds
    after some run of the class, the star succeeds. *)
Lemma star_class_is_Some (p : N -> bool) caps k (s1 s2 : jsstring) :
  forallb p s1 = true ->
  forall idx,
    is_Some (k (MState (idx + length s1) s2 caps)) ->
    is_Some (star_class p idx (s1 ++ s2) caps k).
Proof.
  induction s1 as [|a s1 IH]; intros Hp idx Hk.
  - simpl in *. rewrite Nat.add_0_r in Hk.
    destruct s2 as [|c s2]; simpl; [exact Hk|].
    destruct (p c); [|exact Hk]. now apply or_else_is_Some_r.
  - simpl in Hp. apply andb_true_iff in Hp as [Ha Hp].
    simpl. rewrite Ha. apply or_else_is_Some_l. apply IH; [exact Hp|].
    replace (S idx + length s1)%nat with (idx + length (a :: s1))%nat
      by (simpl; lia).
    exact Hk.
Qed.

(** A file name made of an identifier, one more code unit that does not
    end a line, and [java] is split from what precedes it. *)
Lemma splits_before_identifier (w : jsstring) c (rest : jsstring) :
  w <> [] -> forallb is_word_char w = true ->
  not_line_terminator c = true ->
  splits_before (w ++ c :: str "java" ++ rest) = true.
Proof.
  intros Hw Hp Hc. destruct w as [|a w]; [easy|].
  simpl in Hp. apply andb_true_iff in Hp as [Ha Hp].
  unfold splits_before, match_at, fileLookahead, Plus.
  norm_const (str "java").
  cbn [rmatch app ms_rest ngroups]. rewrite Ha.
  unfold advance. cbn [ms_idx ms_rest ms_caps skipn].
  change (skipn 0 (w ++ c :: 106 :: 97 :: 118 :: 97 :: rest))
    with (w ++ c :: 106 :: 97 :: 118 :: 97 :: rest).
  change (0 + 1)%nat with 1%nat.
  match goal with |- context [star_loop ?f ?n ?g ?st ?k] =>
    replace (star_loop f n g st k)
      with (star_class is_word_char 1 (w ++ c :: 106 :: 97 :: 118 :: 97 :: rest) [] k)
      by (symmetry; apply (star_loop_class is_word_char g k); simpl; lia);
    assert (Hs : is_Some (star_class is_word_char 1
                  (w ++ c :: 106 :: 97 :: 118 :: 97 :: rest) [] k))
  end.
  { apply star_class_is_Some; [exact Hp|].
    cbn [ms_rest]. rewrite Hc. unfold match_text. cbn [ms_rest skipn].
    change (106 :: 97 :: 118 :: 97 :: rest)
      with ([106; 97; 118; 97] ++ rest).
    rewrite (is_prefix_app [106; 97; 118; 97] rest). eauto. }
  destruct Hs as [st ->]. reflexivity.
Qed.

(** ** C8: the three derived files *)

Lemma createFileCopies_trace (E : world)
    (directory filename : option jsstring) (content : jsstring)
    (w : wstate E) :
  let r := createFileCopies E directory filename content w in
  (outcome_of r = Done tt ->
   events_of r = copy_calls E directory filename content)
  /\ (exists k, events_of r
                = firstn k (copy_calls E directory filename content))
  /\ outcome_of r <> OutOfFuel.
Proof.
  unfold createFileCopies, copy_calls, bind, mkdir, writeFile,
    outcome_of, events_of.
  repeat match goal with
         | |- context [fs_mkdir E ?p ?s] =>
             destruct (fs_mkdir E p s) as [[|] ?]
         | |- context [fs_writeFile E ?p ?c ?s] =>
             destruct (fs_writeFile E p c s) as [[|] ?]
         end; simpl;
    (split; [try discriminate; reflexivity | split; [|discriminate]]).
  - now exists 6%nat.
  - now exists 6%nat.
  - now exists 5%nat.
  - now exists 4%nat.
  - now exists 3%nat.
  - now exists 2%nat.
  - now exists 1%nat.
Qed.

(** C8, as the script has it.  A call of [createFileCopies] that returns
    has made its three directories and written its three files, in that
    order, each content derived from the one input; a call that throws has
    made a leading part of these calls, the last of them the one that was
    rejected. *)
Theorem createFileCopies_calls (E : world)
    (directory filename : option jsstring) (content : jsstring)
    (w : wstate E) :
  let r := createFileCopies E directory filename content w in
  (outcome_of r = Done tt ->
   events_of r = copy_calls E directory filename content)
  /\ (exists k, events_of r
                = firstn k (copy_calls E directory filename content))
  /\ outcome_of r <> OutOfFuel.
Proof. apply createFileCopies_trace. Qed.

Lemma createFileCopies_calls_witness :
  let r := createFileCopies scenario_world (Some (str "d"))
             (Some (str "F.java")) (str "class F {}") empty_disk in
  outcome_of r = Done tt
  /\ events_of r
     = copy_calls scenario_world (Some (str "d")) (Some (str "F.java"))
         (str "class F {}").
Proof.
  split; [reflexivity|].
  exact (proj1 (createFileCopies_calls scenario_world (Some (str "d"))
                  (Some (str "F.java")) (str "class F {}") empty_disk)
           eq_refl).
Defined.

(** C8 as stated fails when a write is rejected in the middle of the
    call: here the second one, whose path is a directory.  The renamed
    copy is on the disk, the two comparison copies are not. *)
Lemma createFileCopies_partial_counterexample :
  let r := createFileCopies scenario_world (Some (str "d"))
             (Some (str "F.java")) (str "class F {}") blocked_disk in
  outcome_of r = Throw FilesystemError
  /\ file_at (state_of r) (str "../gervill-control/output/src/gervill/d/F.java")
     = Some (str "class F {}")
  /\ file_at (state_of r) (str "../gervill-control/comp/original-comp/d/F.java")
     = None
  /\ file_at (state_of r) (str "../gervill-control/comp/gervill-comp/d/F.java")
     = None.
Proof. vm_compute. repeat split; reflexivity. Qed.

(** ** C3: the comparison copy of the original *)

(** C3.  With a comment stripper that leaves text without comment openers
    as it is, the comparison form of the example content is the class
    declaration alone: the header pattern takes the package clause, the
    import clause and the white space after them.  A call of
    [createFileCopies] that returns has written that text to the
    original-comparison tree. *)
Theorem original_comparison_example (E : world)
    (directory filename : option jsstring) (w : wstate E) :
  (forall t, has_comment_opener t = false -> strip E t = t) ->
  cleanForComparison (strip E) headerExample = headerExampleBody
  /\ (outcome_of (createFileCopies E directory filename headerExample w)
       = Done tt ->
      In (EWriteFile (originalCompTree ++ to_text directory ++ str "/"
                        ++ to_text filename) headerExampleBody)
         (events_of (createFileCopies E directory filename headerExample w))).
Proof.
  intros Hstrip.
  assert (Hc : cleanForComparison (strip E) headerExample = headerExampleBody).
  { unfold cleanForComparison.
    replace (replace_first packageAndImportsRegex (fun _ => []) headerExample)
      with headerExampleBody by (vm_compute; reflexivity).
    apply Hstrip. reflexivity. }
  split; [exact Hc|]. intros Hd.
  rewrite (proj1 (createFileCopies_trace E directory filename headerExample w)
             Hd).
  unfold copy_calls. rewrite Hc. simpl. tauto.
Qed.

Lemma original_comparison_example_witness :
  (forall t, has_comment_opener t = false -> strip scenario_world t = t)
  /\ cleanForComparison (strip scenario_world) headerExample
     = headerExampleBody.
Proof.
  assert (H : forall t, has_comment_opener t = false ->
                        strip scenario_world t = t) by reflexivity.
  split; [exact H|].
  exact (proj1 (original_comparison_example scenario_world
                  (Some (str "d")) (Some (str "C.java")) empty_disk H)).
Defined.

(** ** The file system of the model *)

Lemma lookup_apply_events (ev : list event) :
  forall files k,
    apply_events ev files !! k
    = match last_write k ev with
      | Some c => Some c
      | None => files !! k
      end.
Proof.
  induction ev as [|e ev IH]; intros files k; [reflexivity|].
  unfold apply_events in *. cbn [fold_left last_write]. rewrite IH.
  destruct (last_write k ev); [reflexivity|].
  destruct e; try reflexivity. simpl.
  case_bool_decide as Hk.
  - subst k. apply lookup_insert_eq.
  - now apply lookup_insert_ne.
Qed.

(** Writing the same trace once more changes nothing. *)
Lemma apply_events_twice (ev : list event) files :
  apply_events ev (apply_events ev files) = apply_events ev files.
Proof.
  apply map_eq. intros k. rewrite !lookup_apply_events.
  now destruct (last_write k ev).
Qed.

Lemma apply_events_app (ev1 ev2 : list event) files :
  apply_events (ev1 ++ ev2) files = apply_events ev2 (apply_events ev1 files).
Proof. unfold apply_events. apply fold_left_app. Qed.

Lemma covers_refl d : covers d d.
Proof. split; reflexivity. Qed.

Lemma covers_trans d1 d2 d3 : covers d1 d2 -> covers d2 d3 -> covers d1 d3.
Proof. intros [H1 H2] [H3 H4]. split; set_solver. Qed.

Lemma same_mirror_refl d : same_mirror d d.
Proof. intros q. now split. Qed.

Lemma same_mirror_sym d d' : same_mirror d d' -> same_mirror d' d.
Proof. intros H q. destruct (H q). now split. Qed.

Lemma same_mirror_trans d1 d2 d3 :
  same_mirror d1 d2 -> same_mirror d2 d3 -> same_mirror d1 d3.
Proof.
  intros H1 H2 q. destruct (H1 q) as [-> ->]. apply H2.
Qed.

Lemma dom_add_entry (parent : list (list N)) (n : list N) (dirs : gmap (list (list N)) (list (list N))) :
  dom (add_entry parent n dirs) = {[parent]} ∪ dom dirs.
Proof. unfold add_entry. apply dom_insert_L. Qed.

Lemma lookup_add_entry_ne (parent : list (list N)) (n : list N)
    (dirs : gmap (list (list N)) (list (list N))) k :
  k <> parent -> add_entry parent n dirs !! k = dirs !! k.
Proof. intros H. unfold add_entry. now apply lookup_insert_ne. Qed.

Local Set Warnings "-clear-no-such-hyp".

Lemma mkdir_from_cons pre n rest d :
  mkdir_from pre (n :: rest) d
  = match d_files d !! (pre ++ [n]) with
    | Some _ => None
    | None =>
        mkdir_from (pre ++ [n]) rest
          (if bool_decide (is_Some (d_dirs d !! (pre ++ [n]))) then d
           else Disk (d_files d)
                  (<[pre ++ [n] := []]> (add_entry pre n (d_dirs d))))
    end.
Proof. reflexivity. Qed.

Lemma prefix_step (pre : list (list N)) n rest i :
  (pre ++ [n]) ++ firstn i rest = pre ++ firstn (S i) (n :: rest).
Proof. simpl. now rewrite <- app_assoc. Qed.

Lemma mkdir_from_effects rest :
  forall pre d d',
    mkdir_from pre rest d = Some d' ->
    d_files d' = d_files d
    /\ dom (d_dirs d) ⊆ dom (d_dirs d')
    /\ (forall k, (forall i, k <> pre ++ firstn i rest) ->
                  d_dirs d' !! k = d_dirs d !! k)
    /\ (forall i, (1 <= i <= length rest)%nat ->
                  pre ++ firstn i rest ∈ dom (d_dirs d')
                  /\ d_files d !! (pre ++ firstn i rest) = None)
    /\ (dom (d_files d) ## dom (d_dirs d) -> pre ∉ dom (d_files d) ->
        dom (d_files d') ## dom (d_dirs d')).
Proof.
  induction rest as [|n rest IH]; intros pre d d' H.
  - injection H as <-.
    split; [|split; [|split; [|split]]]; try done.
    intros i Hi. simpl in Hi. lia.
  - rewrite mkdir_from_cons in H.
    destruct (d_files d !! (pre ++ [n])) as [c|] eqn:Ef; [discriminate|].
    apply IH in H as (Hfiles & Hmono & Hframe & Hcreated & Hcons).
    case_bool_decide as Hq; simpl in *.
    + split; [|split; [|split; [|split]]].
      * exact Hfiles.
      * exact Hmono.
      * intros k Hk. apply Hframe. intros i. rewrite prefix_step. apply Hk.
      * intros i Hi. destruct i as [|[|i]]; [lia | | ].
        -- split; [|exact Ef]. simpl. apply Hmono. now apply elem_of_dom.
        -- rewrite <- prefix_step. apply Hcreated. lia.
      * intros Hd Hpre. apply Hcons; [exact Hd|].
        now apply not_elem_of_dom.
    + split; [|split; [|split; [|split]]].
      * exact Hfiles.
      * etransitivity; [|exact Hmono].
        rewrite dom_insert_L, dom_add_entry. set_solver.
      * intros k Hk. rewrite Hframe.
        -- rewrite lookup_insert_ne, lookup_add_entry_ne; [reflexivity | |].
           ++ intros ->. apply (Hk 0%nat). simpl. now rewrite app_nil_r.
           ++ intros <-. now apply (Hk 1%nat).
        -- intros i. rewrite prefix_step. apply Hk.
      * intros i Hi. destruct i as [|[|i]]; [lia | | ].
        -- split; [|exact Ef]. simpl.
           apply Hmono. rewrite dom_insert_L. set_solver.
        -- rewrite <- prefix_step. apply Hcreated. lia.
      * intros Hd Hpre. apply Hcons.
        -- rewrite dom_insert_L, dom_add_entry.
           apply not_elem_of_dom in Ef. set_solver.
        -- now apply not_elem_of_dom.
Qed.

(** Making directories that are all there changes nothing. *)
Lemma mkdir_from_redo rest :
  forall pre u,
    (forall i, (1 <= i <= length rest)%nat ->
               pre ++ firstn i rest ∈ dom (d_dirs u)
               /\ d_files u !! (pre ++ firstn i rest) = None) ->
    mkdir_from pre rest u = Some u.
Proof.
  induction rest as [|n rest IH]; intros pre u H; [reflexivity|].
  rewrite mkdir_from_cons.
  destruct (H 1%nat ltac:(simpl; lia)) as [Hd Hf].
  change (pre ++ firstn 1 (n :: rest)) with (pre ++ [n]) in Hd, Hf.
  rewrite Hf. apply elem_of_dom in Hd.
  rewrite bool_decide_eq_true_2 by exact Hd.
  apply IH. intros i Hi. rewrite prefix_step. apply H. simpl. lia.
Qed.

Lemma disk_mkdir_effects (h : list N) rest d d' :
  disk_mkdir (h :: rest) d = Some d' ->
  d_files d' = d_files d
  /\ dom (d_dirs d) ⊆ dom (d_dirs d')
  /\ (forall k, k <> [] -> hd_error k <> Some h ->
                d_dirs d' !! k = d_dirs d !! k)
  /\ (forall i, (1 <= i <= S (length rest))%nat ->
                firstn i (h :: rest) ∈ dom (d_dirs d')
                /\ d_files d !! firstn i (h :: rest) = None)
  /\ (consistent d -> consistent d').
Proof.
  intros H. apply mkdir_from_effects in H
    as (Hfiles & Hmono & Hframe & Hcreated & Hcons).
  split; [exact Hfiles|]. split; [exact Hmono|].
  split; [|split].
  - intros k Hk Hh. apply Hframe. intros [|i]; simpl; [exact Hk|].
    intros ->. now apply Hh.
  - intros i Hi. apply (Hcreated i). simpl. lia.
  - intros [Hd Hroot]. split.
    + now apply Hcons.
    + now rewrite Hfiles.
Qed.

Lemma rev_cons_split (p : list (list N)) n rparent :
  rev p = n :: rparent -> p = rev rparent ++ [n].
Proof.
  intros H. apply (f_equal (@rev (list N))) in H.
  now rewrite rev_involutive in H.
Qed.

Lemma disk_writeFile_effects (h : list N) rest content d d' :
  disk_writeFile (h :: rest) content d = Some d' ->
  d_files d' = <[h :: rest := content]> (d_files d)
  /\ dom (d_dirs d) ⊆ dom (d_dirs d')
  /\ (forall k, k <> [] -> hd_error k <> Some h ->
                d_dirs d' !! k = d_dirs d !! k)
  /\ (exists parent n, h :: rest = parent ++ [n]
                       /\ dir_exists d parent = true)
  /\ d_dirs d !! (h :: rest) = None
  /\ (consistent d -> consistent d').
Proof.
  unfold disk_writeFile.
  destruct (rev (h :: rest)) as [|n rparent] eqn:Er; [discriminate|].
  apply rev_cons_split in Er.
  destruct (dir_exists d (rev rparent)) eqn:Ed; [|discriminate].
  case_bool_decide as Hdir; [discriminate|]. simpl.
  intros [= <-]. simpl.
  assert (Hnone : d_dirs d !! (h :: rest) = None)
    by (destruct (d_dirs d !! (h :: rest)) eqn:E; [|reflexivity];
        exfalso; apply Hdir; eauto).
  assert (Hparent : rev rparent = [] \/ hd_error (rev rparent) = Some h).
  { destruct (rev rparent) as [|a l]; [now left|]. right.
    simpl in Er. now injection Er as -> _. }
  split; [reflexivity|]. split; [|split; [|split; [|split]]].
  - case_bool_decide; [reflexivity|]. rewrite dom_add_entry. set_solver.
  - intros k Hk Hh. case_bool_decide; [reflexivity|].
    apply lookup_add_entry_ne. destruct Hparent as [Hp|Hp]; congruence.
  - exists (rev rparent), n. now split.
  - exact Hnone.
  - intros [Hd Hroot]. split; simpl.
    + rewrite dom_insert_L.
      assert (h :: rest ∉ dom (d_dirs d)) by now apply not_elem_of_dom.
      case_bool_decide as Hf.
      * set_solver.
      * rewrite dom_add_entry.
        assert (rev rparent ∉ dom (d_files d)).
        { destruct (rev rparent) as [|a l] eqn:E; [exact Hroot|].
          simpl in Ed. apply bool_decide_eq_true in Ed.
          apply elem_of_dom in Ed. set_solver. }
        assert (h :: rest <> rev rparent).
        { intros Heq. rewrite Heq in Er at 1.
          apply (f_equal (@length (list N))) in Er.
          rewrite length_app in Er. simpl in Er. lia. }
        set_solver.
    + rewrite dom_insert_L. set_solver.
Qed.

(** Writing a file that is there changes its content only. *)
Lemma disk_writeFile_redo (p : list (list N)) content u parent n :
  p = parent ++ [n] -> dir_exists u parent = true ->
  d_dirs u !! p = None -> is_Some (d_files u !! p) ->
  disk_writeFile p content u
  = Some (Disk (<[p := content]> (d_files u)) (d_dirs u)).
Proof.
  intros -> Hd Hnone Hf. unfold disk_writeFile.
  rewrite rev_app_distr. simpl. rewrite rev_involutive, Hd.
  rewrite bool_decide_eq_false_2 by (rewrite Hnone; now intros [? ?]).
  simpl. now rewrite bool_decide_eq_true_2.
Qed.

(** ** The two runs of the copy orchestrator *)

Lemma effects_ret {A} (a : A) : effects (@ret disk A a).
Proof.
  intros d r d' ev [= <- <- <-].
  split; [apply covers_refl|]. split; [apply same_mirror_refl|].
  split; [auto|]. reflexivity.
Qed.

Lemma effects_out_of_fuel {A} : effects (@out_of_fuel disk A).
Proof.
  intros d r d' ev [= <- <- <-].
  split; [apply covers_refl|]. split; [apply same_mirror_refl|].
  split; [auto|]. reflexivity.
Qed.

Lemma effects_bind {A B} (m : M disk A) (k : A -> M disk B) :
  effects m -> (forall a, effects (k a)) -> effects (bind m k).
Proof.
  intros Hm Hk d r d' ev. unfold bind.
  destruct (m d) as [[r1 d1] ev1] eqn:E1.
  destruct (Hm _ _ _ _ E1) as (Hc1 & Hs1 & Hk1 & Hf1).
  destruct r1 as [a|e|].
  - destruct (k a d1) as [[r2 d2] ev2] eqn:E2.
    destruct (Hk a _ _ _ _ E2) as (Hc2 & Hs2 & Hk2 & Hf2).
    intros [= <- <- <-].
    split; [eapply covers_trans; eauto|].
    split; [eapply same_mirror_trans; eauto|].
    split; [auto|].
    intros b ->. rewrite apply_events_app, (Hf2 b eq_refl).
    now rewrite (Hf1 a eq_refl).
  - intros [= <- <- <-].
    split; [exact Hc1|]. split; [exact Hs1|]. split; [exact Hk1|].
    discriminate.
  - intros [= <- <- <-].
    split; [exact Hc1|]. split; [exact Hs1|]. split; [exact Hk1|].
    discriminate.
Qed.

Lemma effects_for_each {A} (l : list A) (body : A -> M disk unit) :
  (forall a, effects (body a)) -> effects (for_each l body).
Proof.
  intros H. induction l as [|a l IH]; simpl.
  - apply effects_ret.
  - apply effects_bind; [apply H | intros _; exact IH].
Qed.

Lemma redo_ret {A} (a : A) : redo (@ret disk A a).
Proof.
  intros dA dB b dA' ev [= <- <- <-] Hc Hk Hs.
  exists dB. repeat split; try reflexivity; apply Hs.
Qed.

Lemma covers_same_dom dA dB dB' :
  covers dA dB -> d_dirs dB' = d_dirs dB ->
  dom (d_files dB') = dom (d_files dB) -> covers dA dB'.
Proof. intros [H1 H2] Hd Hf. split; [now rewrite Hf | now rewrite Hd]. Qed.

Lemma consistent_same_dom dB dB' :
  consistent dB -> d_dirs dB' = d_dirs dB ->
  dom (d_files dB') = dom (d_files dB) -> consistent dB'.
Proof. intros [H1 H2] Hd Hf. split; now rewrite Hf, ?Hd. Qed.

Lemma redo_bind {A B} (m : M disk A) (k : A -> M disk B) :
  redo m -> (forall a, redo (k a)) -> (forall a, effects (k a)) ->
  redo (bind m k).
Proof.
  intros Hm Hk He dA dB b dA' ev. unfold bind.
  destruct (m dA) as [[r1 dA1] ev1] eqn:E1.
  destruct r1 as [a|e|]; [|discriminate|discriminate].
  destruct (k a dA1) as [[r2 dA2] ev2] eqn:E2.
  intros [= -> <- <-] Hc Hcons Hs.
  destruct (He a _ _ _ _ E2) as (Hc2 & _).
  destruct (Hm _ _ _ _ _ E1 (covers_trans _ _ _ Hc2 Hc) Hcons Hs)
    as (dB1 & -> & Hd1 & Hf1 & Hdom1 & Hs1).
  destruct (Hk a _ dB1 _ _ _ E2) as (dB2 & -> & Hd2 & Hf2 & Hdom2 & Hs2).
  - now apply (covers_same_dom _ dB).
  - now apply (consistent_same_dom dB).
  - exact Hs1.
  - exists dB2. split; [reflexivity|].
    split; [congruence|].
    split; [now rewrite apply_events_app, Hf2, Hf1|].
    split; [congruence | exact Hs2].
Qed.

Lemma redo_for_each {A} (l : list A) (body : A -> M disk unit) :
  (forall a, redo (body a)) -> (forall a, effects (body a)) ->
  redo (for_each l body).
Proof.
  intros H He. induction l as [|a l IH]; simpl.
  - apply redo_ret.
  - apply redo_bind; [apply H | intros _; exact IH |].
    intros _. now apply effects_for_each.
Qed.

Lemma segments_originalTree (x : jsstring) :
  segments (originalTree ++ x) = str "original" :: segments x.
Proof. reflexivity. Qed.

Lemma derived_renamedTree (x : jsstring) : derived_path (renamedTree ++ x).
Proof.
  exists (str "gervill-control" :: str "output" :: str "src"
          :: str "gervill" :: segments x).
  reflexivity.
Qed.

Lemma derived_originalCompTree (x : jsstring) :
  derived_path (originalCompTree ++ x).
Proof.
  exists (str "gervill-control" :: str "comp" :: str "original-comp"
          :: segments x).
  reflexivity.
Qed.

Lemma derived_renamedCompTree (x : jsstring) :
  derived_path (renamedCompTree ++ x).
Proof.
  exists (str "gervill-control" :: str "comp" :: str "gervill-comp"
          :: segments x).
  reflexivity.
Qed.

Lemma disk_opendir_same_mirror dA dB q :
  same_mirror dA dB ->
  disk_opendir (str "original" :: q) dA = disk_opendir (str "original" :: q) dB.
Proof.
  intros Hs. unfold disk_opendir, dir_exists, dir_entries.
  rewrite (proj2 (Hs q)). destruct (bool_decide _); [|reflexivity].
  f_equal. apply map_ext. intros n.
  change ((str "original" :: q) ++ [n]) with (str "original" :: (q ++ [n])).
  now rewrite (proj2 (Hs (q ++ [n]))).
Qed.

Lemma mirror_key_not_derived (q : list (list N)) :
  str "original" :: q <> [] /\ hd_error (str "original" :: q) <> Some [46; 46].
Proof. split; discriminate. Qed.

Ltac derived_tac :=
  lazymatch goal with
  | |- derived_path (renamedTree ++ _) => apply derived_renamedTree
  | |- derived_path (originalCompTree ++ _) => apply derived_originalCompTree
  | |- derived_path (renamedCompTree ++ _) => apply derived_renamedCompTree
  end.

Section NodeOps.
Variable remote : jsstring -> option jsstring.
Variable stripper : jsstring -> jsstring.

Local Abbreviation W := (node_world remote stripper).

Lemma effects_mkdir path : derived_path path -> effects (mkdir W path).
Proof.
  intros [rest Hseg] d r d' ev. unfold mkdir. simpl. rewrite Hseg.
  destruct (disk_mkdir ([46; 46] :: rest) d) as [d1|] eqn:E.
  - intros [= <- <- <-].
    apply disk_mkdir_effects in E as (Hf & Hm & Hfr & _ & Hc).
    split; [split; [now rewrite Hf | exact Hm]|].
    split; [|split; [exact Hc|]].
    + intros q. rewrite Hf. split; [reflexivity|]. symmetry.
      apply Hfr; apply mirror_key_not_derived.
    + intros _ _. now rewrite Hf.
  - intros [= <- <- <-].
    split; [apply covers_refl|]. split; [apply same_mirror_refl|].
    split; [auto | discriminate].
Qed.

Lemma effects_writeFile path content :
  derived_path path -> effects (writeFile W path content).
Proof.
  intros [rest Hseg] d r d' ev. unfold writeFile. simpl. rewrite Hseg.
  destruct (disk_writeFile ([46; 46] :: rest) content d) as [d1|] eqn:E.
  - intros [= <- <- <-].
    apply disk_writeFile_effects in E as (Hf & Hm & Hfr & _ & _ & Hc).
    split; [split; [rewrite Hf, dom_insert_L; set_solver | exact Hm]|].
    split; [|split; [exact Hc|]].
    + intros q. split.
      * rewrite Hf. symmetry. now apply lookup_insert_ne.
      * symmetry. apply Hfr; apply mirror_key_not_derived.
    + intros _ _. simpl. now rewrite Hseg.
  - intros [= <- <- <-].
    split; [apply covers_refl|]. split; [apply same_mirror_refl|].
    split; [auto | discriminate].
Qed.

Lemma effects_readFile path : effects (readFile W path).
Proof.
  intros d r d' ev. unfold readFile. simpl.
  destruct (d_files d !! segments path); intros [= <- <- <-];
    (split; [apply covers_refl|]; split; [apply same_mirror_refl|];
     split; [auto|]); [reflexivity | discriminate].
Qed.

Lemma effects_opendir path : effects (opendir W path).
Proof.
  intros d r d' ev. unfold opendir. simpl.
  destruct (disk_opendir (segments path) d); intros [= <- <- <-];
    (split; [apply covers_refl|]; split; [apply same_mirror_refl|];
     split; [auto|]); [reflexivity | discriminate].
Qed.

End NodeOps.

Ltac effects_tac :=
  cbv zeta;
  lazymatch goal with
  | |- effects (bind _ _) =>
      apply effects_bind; [effects_tac | intros ?; effects_tac]
  | |- effects (mkdir _ _) => apply effects_mkdir; derived_tac
  | |- effects (writeFile _ _ _) => apply effects_writeFile; derived_tac
  end.

Section NodeRuns.
Variable remote : jsstring -> option jsstring.
Variable stripper : jsstring -> jsstring.

Local Abbreviation W := (node_world remote stripper).

Lemma effects_createFileCopies directory filename content :
  effects (createFileCopies W directory filename content).
Proof. unfold createFileCopies. effects_tac. Qed.

Lemma effects_createCopiesOfSingleFileAux directory filename :
  effects (createCopiesOfSingleFileAux W directory filename).
Proof.
  unfold createCopiesOfSingleFileAux. apply effects_bind.
  - apply effects_readFile.
  - intros content. apply effects_createFileCopies.
Qed.

Lemma effects_createCopiesOfFilesInDir fuel :
  forall directory, effects (createCopiesOfFilesInDir W fuel directory).
Proof.
  induction fuel as [|fuel IH]; intros directory.
  - apply effects_out_of_fuel.
  - cbn [createCopiesOfFilesInDir]. apply effects_bind.
    + apply effects_opendir.
    + intros dir. apply effects_for_each. intros entry. unfold copyEntry.
      destruct (dirent_isDirectory entry);
        [apply IH | apply effects_createCopiesOfSingleFileAux].
Qed.

End NodeRuns.


Section NodeRedoOps.
Variable remote : jsstring -> option jsstring.
Variable stripper : jsstring -> jsstring.

Local Abbreviation W := (node_world remote stripper).

Lemma redo_mkdir path : derived_path path -> redo (mkdir W path).
Proof.
  intros [rest Hseg] dA dB a dA' ev. unfold mkdir. simpl. rewrite Hseg.
  destruct (disk_mkdir ([46; 46] :: rest) dA) as [d1|] eqn:E;
    [|discriminate].
  intros [= <- <- <-] [Hcf Hcd] [Hdis Hroot] Hs.
  apply disk_mkdir_effects in E as (Hf & Hm & Hfr & Hcr & _).
  assert (Hre : disk_mkdir ([46; 46] :: rest) dB = Some dB).
  { apply mkdir_from_redo. intros i Hi.
    destruct (Hcr i ltac:(simpl in *; lia)) as [Hin _].
    simpl app. split; [now apply Hcd|].
    apply not_elem_of_dom. apply Hcd in Hin. set_solver. }
  rewrite Hre. exists dB. split; [reflexivity|].
  split; [reflexivity|]. split; [reflexivity|]. split; [reflexivity|].
  intros q. destruct (Hs q) as [<- <-]. rewrite Hf. split; [reflexivity|].
  apply Hfr; apply mirror_key_not_derived.
Qed.

Lemma redo_writeFile path content :
  derived_path path -> redo (writeFile W path content).
Proof.
  intros [rest Hseg] dA dB a dA' ev. unfold writeFile. simpl. rewrite Hseg.
  destruct (disk_writeFile ([46; 46] :: rest) content dA) as [d1|] eqn:E;
    [|discriminate].
  intros [= <- <- <-] [Hcf Hcd] [Hdis Hroot] Hs.
  apply disk_writeFile_effects in E
    as (Hf & Hm & Hfr & (parent & n & Hp & Hex) & _ & _).
  assert (Hin : [46; 46] :: rest ∈ dom (d_files dB))
    by (apply Hcf; rewrite Hf, dom_insert_L; set_solver).
  assert (Hre : disk_writeFile ([46; 46] :: rest) content dB
                = Some (Disk (<[[46; 46] :: rest := content]> (d_files dB))
                          (d_dirs dB))).
  { apply (disk_writeFile_redo _ _ _ parent n Hp).
    - destruct parent as [|a l]; [reflexivity|]. simpl in *.
      apply bool_decide_eq_true in Hex. apply bool_decide_eq_true.
      apply elem_of_dom. apply Hcd, Hm. now apply elem_of_dom.
    - apply not_elem_of_dom. set_solver.
    - now apply elem_of_dom. }
  rewrite Hre. eexists. split; [reflexivity|]. simpl.
  split; [reflexivity|]. split; [now rewrite Hseg|].
  split; [rewrite dom_insert_L; set_solver|].
  intros q. destruct (Hs q) as [Hq1 Hq2]. cbn [d_files d_dirs]. split.
  - rewrite Hf, !lookup_insert_ne by discriminate. exact Hq1.
  - rewrite <- Hq2. apply Hfr; apply mirror_key_not_derived.
Qed.

Lemma redo_readFile x : redo (readFile W (originalTree ++ x)).
Proof.
  intros dA dB a dA' ev. unfold readFile. cbn [fs_readFile node_world].
  rewrite segments_originalTree.
  intros H Hc Hk Hs. rewrite <- (proj1 (Hs (segments x))).
  destruct (d_files dA !! (str "original" :: segments x)) as [c|];
    [|discriminate].
  injection H as <- <- <-. exists dB.
  repeat split; try reflexivity; apply Hs.
Qed.

Lemma redo_opendir x : redo (opendir W (originalTree ++ x)).
Proof.
  intros dA dB a dA' ev. unfold opendir. cbn [fs_opendir node_world].
  rewrite segments_originalTree.
  intros H Hc Hk Hs. rewrite <- (disk_opendir_same_mirror dA dB _ Hs).
  destruct (disk_opendir (str "original" :: segments x) dA) as [l|];
    [|discriminate].
  injection H as <- <- <-. exists dB.
  repeat split; try reflexivity; apply Hs.
Qed.

End NodeRedoOps.

Ltac redo_tac :=
  cbv zeta;
  lazymatch goal with
  | |- redo (bind _ _) =>
      apply redo_bind;
      [redo_tac | intros ?; redo_tac | intros ?; effects_tac]
  | |- redo (mkdir _ _) => apply redo_mkdir; derived_tac
  | |- redo (writeFile _ _ _) => apply redo_writeFile; derived_tac
  end.

Section NodeRedo.
Variable remote : jsstring -> option jsstring.
Variable stripper : jsstring -> jsstring.

Local Abbreviation W := (node_world remote stripper).

Lemma redo_createFileCopies directory filename content :
  redo (createFileCopies W directory filename content).
Proof. unfold createFileCopies. redo_tac. Qed.

Lemma redo_createCopiesOfSingleFileAux directory filename :
  redo (createCopiesOfSingleFileAux W directory filename).
Proof.
  unfold createCopiesOfSingleFileAux. apply redo_bind.
  - apply redo_readFile.
  - intros content. apply redo_createFileCopies.
  - intros content. apply effects_createFileCopies.
Qed.

Lemma redo_createCopiesOfFilesInDir fuel :
  forall directory, redo (createCopiesOfFilesInDir W fuel directory).
Proof.
  induction fuel as [|fuel IH]; intros directory.
  - intros dA dB a dA' ev H. discriminate H.
  - cbn [createCopiesOfFilesInDir]. apply redo_bind.
    + apply redo_opendir.
    + intros dir. apply redo_for_each; intros entry; unfold copyEntry;
        destruct (dirent_isDirectory entry);
        first [ apply IH | apply redo_createCopiesOfSingleFileAux
              | apply effects_createCopiesOfFilesInDir
              | apply effects_createCopiesOfSingleFileAux ].
    + intros dir. apply effects_for_each. intros entry. unfold copyEntry.
      destruct (dirent_isDirectory entry);
        [apply effects_createCopiesOfFilesInDir
        | apply effects_createCopiesOfSingleFileAux].
Qed.

End NodeRedo.


Lemma mirror_disk_consistent : consistent mirror_disk.
Proof.
  split.
  - refine (bool_decide_unpack
              (dom (d_files mirror_disk) ## dom (d_dirs mirror_disk)) _).
    vm_compute. exact I.
  - refine (bool_decide_unpack ([] ∉ dom (d_files mirror_disk)) _).
    vm_compute. exact I.
Qed.

Lemma run_eta {S A} (r : outcome A * S * list event) :
  r = (outcome_of r, state_of r, events_of r).
Proof. now destruct r as [[o s] e]. Qed.

Lemma disk_eq (d d' : disk) :
  d_files d = d_files d' -> d_dirs d = d_dirs d' -> d = d'.
Proof. destruct d, d'. simpl. now intros -> ->. Qed.

(** C6.  On a consistent disk, a run of the copy orchestrator that
    returns leaves the mirror as it found it and the files its trace
    wrote; run again on the disk it left, with the same budget, it
    returns, makes the same calls, so writes the same bytes to the same
    paths, and leaves the disk exactly as it was after the first run. *)
Theorem copies_twice_identical (remote : jsstring -> option jsstring)
    (stripper : jsstring -> jsstring) (fuel : nat) (d0 d1 : disk)
    (ev : list event) :
  consistent d0 ->
  createCopiesOfFiles (node_world remote stripper) fuel d0
  = (Done tt, d1, ev) ->
  same_mirror d0 d1
  /\ d_files d1 = apply_events ev (d_files d0)
  /\ createCopiesOfFiles (node_world remote stripper) fuel d1
     = (Done tt, d1, ev).
Proof.
  intros Hcons Hrun. unfold createCopiesOfFiles in *.
  destruct (effects_createCopiesOfFilesInDir remote stripper fuel [] _ _ _ _
              Hrun) as (Hcov & Hmir & Hk & Hfiles).
  specialize (Hfiles tt eq_refl).
  split; [exact Hmir|]. split; [exact Hfiles|].
  destruct (redo_createCopiesOfFilesInDir remote stripper fuel [] d0 d1 tt
              d1 ev Hrun (covers_refl d1) (Hk Hcons) Hmir)
    as (d2 & Hrun2 & Hdirs & Hf2 & _ & _).
  rewrite Hrun2. do 2 f_equal. apply disk_eq; [|exact Hdirs].
  now rewrite Hf2, Hfiles, apply_events_twice.
Qed.

Lemma copies_twice_identical_witness :
  consistent mirror_disk
  /\ outcome_of (createCopiesOfFiles scenario_world 7 mirror_disk) = Done tt
  /\ createCopiesOfFiles scenario_world 7
       (state_of (createCopiesOfFiles scenario_world 7 mirror_disk))
     = createCopiesOfFiles scenario_world 7 mirror_disk.
Proof.
  split; [exact mirror_disk_consistent|].
  assert (Hdone : outcome_of (createCopiesOfFiles scenario_world 7 mirror_disk)
                  = Done tt) by (vm_compute; reflexivity).
  split; [exact Hdone|].
  pose proof (run_eta (createCopiesOfFiles scenario_world 7 mirror_disk))
    as Heta.
  rewrite Hdone in Heta.
  rewrite Heta at 2.
  exact (proj2 (proj2 (copies_twice_identical scenario_remote (fun t => t) 7
                         mirror_disk _ _ mirror_disk_consistent Heta))).
Defined.

(** The first run of the witness writes the three copies of both mirrored
    files. *)
Example copies_run_writes :
  length (List.filter (fun e => match e with
                                | EWriteFile _ _ => true
                                | _ => false
                                end)
            (events_of (createCopiesOfFiles scenario_world 7 mirror_disk)))
  = 6%nat.
Proof. vm_compute. reflexivity. Qed.

(** * Further properties of the script *)

(** ** The flag of [main] *)

Lemma jseq_eq (a b : jsstring) : jseq a b = true <-> a = b.
Proof.
  unfold jseq. split.
  - intros H. apply andb_true_iff in H as [Hl Hp].
    apply Nat.eqb_eq in Hl. apply is_prefix_true in Hp.
    rewrite Hp. rewrite Hl, skipn_all. now rewrite app_nil_r.
  - intros ->. rewrite Nat.eqb_refl. simpl.
    rewrite <- (app_nil_r b) at 2. apply is_prefix_app.
Qed.

(** X1: a flag other than [-d] and [-c], or none, makes [main] throw
    before it calls anything. *)
Theorem main_unrecognized_flag (E : world) (skipclasses : gset (list N))
    (fuel : nat) (flag : option jsstring) (w : wstate E) :
  flag <> Some (str "-d") -> flag <> Some (str "-c") ->
  main E skipclasses fuel flag w = (Throw (UnrecognizedFlag flag), w, []).
Proof.
  intros Hd Hc. unfold main. destruct flag as [f|]; [|reflexivity].
  destruct (jseq f (str "-d")) eqn:E1.
  - apply jseq_eq in E1. congruence.
  - destruct (jseq f (str "-c")) eqn:E2; [|reflexivity].
    apply jseq_eq in E2. congruence.
Qed.

Lemma main_unrecognized_flag_witness :
  main scenario_world scenario_skip 3 (Some (str "--help")) empty_disk
  = (Throw (UnrecognizedFlag (Some (str "--help"))), empty_disk, [])
  /\ main scenario_world scenario_skip 3 None empty_disk
     = (Throw (UnrecognizedFlag None), empty_disk, []).
Proof.
  split.
  - apply main_unrecognized_flag; discriminate.
  - apply main_unrecognized_flag; discriminate.
Defined.

(** ** The trailing slash of [fetchDirectory] *)

Lemma trailingSlash_match_at (idx : nat) (s : jsstring) :
  match_at trailingSlashRegex idx s
  = match s with
    | [47] => Some (MatchResult [47] [] [] (idx + 1))
    | _ => None
    end.
Proof.
  unfold match_at, trailingSlashRegex. simpl.
  destruct s as [|c s]; [reflexivity|].
  unfold match_text. simpl.
  destruct (N.eqb_spec 47 c) as [<-|Hc].
  - simpl. destruct s as [|c' s]; simpl.
    + replace (idx + 1 - idx)%nat with 1%nat by lia. reflexivity.
    + reflexivity.
  - simpl. destruct c as [|p]; [reflexivity|].
    do 6 (destruct p as [p|p|]; try reflexivity; try congruence).
Qed.

Lemma search_trailingSlash (p : jsstring) (idx : nat) :
  search trailingSlashRegex idx (p ++ [47])
  = Some (p, MatchResult [47] [] [] (idx + length p + 1)).
Proof.
  revert idx. induction p as [|c p IH]; intros idx.
  - change ([] ++ [47%N]) with [47%N]. cbn [search].
    rewrite trailingSlash_match_at. cbn [length].
    replace (idx + 0 + 1)%nat with (idx + 1)%nat by lia. reflexivity.
  - change ((c :: p) ++ [47]) with (c :: (p ++ [47])).
    cbn [search]. rewrite trailingSlash_match_at.
    replace (match c :: (p ++ [47]) with
             | [47] => Some (MatchResult [47] [] [] (idx + 1))
             | _ => None
             end) with (@None rmatch_result).
    2:{ destruct p; simpl; destruct c as [|q]; try reflexivity;
        do 6 (destruct q as [q|q|]; try reflexivity). }
    rewrite IH. cbn [length].
    replace (S idx + length p + 1)%nat with (idx + S (length p) + 1)%nat
      by lia.
    reflexivity.
Qed.

Lemma search_no_trailingSlash (p : jsstring) (idx : nat) :
  ends_with_slash p = false -> search trailingSlashRegex idx p = None.
Proof.
  revert idx. induction p as [|c p IH]; intros idx H.
  - reflexivity.
  - cbn [search]. rewrite trailingSlash_match_at.
    destruct p as [|c' p].
    + unfold ends_with_slash in H. simpl in H.
      destruct (N.eqb_spec c 47) as [->|Hc]; [discriminate|].
      replace (match c with 47 => Some (MatchResult [47] [] [] (idx + 1))
                          | _ => None end)
        with (@None rmatch_result).
      2:{ destruct c as [|q]; [reflexivity|].
          do 6 (destruct q as [q|q|]; try reflexivity; try congruence). }
      reflexivity.
    + replace (match c with 47 => None | _ => None end)
        with (@None rmatch_result).
      2:{ destruct c as [|q]; [reflexivity|].
          do 6 (destruct q as [q|q|]; try reflexivity). }
      rewrite IH; [reflexivity|].
      unfold ends_with_slash in *. simpl in *.
      destruct (rev p ++ [c']) eqn:Er.
      * destruct (rev p); discriminate.
      * simpl in H. exact H.
Qed.

(** X2: [fetchDirectory] drops one slash from the end of the path it is
    given and no more; a path that does not end with a slash is walked as
    it is. *)
Theorem fetchDirectory_trailing_slash (E : world)
    (skipclasses : gset (list N)) (fuel : nat) (path : jsstring)
    (makeCopies : bool) :
  fetchDirectory E skipclasses fuel (path ++ str "/") makeCopies
  = fetchDirectoryAux E skipclasses fuel path makeCopies
  /\ (ends_with_slash path = false ->
      fetchDirectory E skipclasses fuel path makeCopies
      = fetchDirectoryAux E skipclasses fuel path makeCopies).
Proof.
  unfold fetchDirectory, replace_first. split.
  - change (str "/") with [47%N]. rewrite search_trailingSlash.
    simpl. now rewrite app_nil_r.
  - intros H. now rewrite search_no_trailingSlash.
Qed.

Lemma fetchDirectory_trailing_slash_witness :
  fetchDirectory scenario_world scenario_skip 3 (str "javax/sound//") false
  = fetchDirectoryAux scenario_world scenario_skip 3 (str "javax/sound/")
      false
  /\ fetchDirectory scenario_world scenario_skip 3 (str "javax/sound") false
     = fetchDirectoryAux scenario_world scenario_skip 3 (str "javax/sound")
         false.
Proof.
  split.
  - apply (fetchDirectory_trailing_slash scenario_world scenario_skip 3
             (str "javax/sound/") false).
  - apply (fetchDirectory_trailing_slash scenario_world scenario_skip 3
             (str "javax/sound") false). reflexivity.
Defined.

(** ** The filter and the entries of [getFileListing] *)

Lemma existsb_rev' (p : N -> bool) (s : jsstring) :
  existsb p (rev s) = existsb p s.
Proof.
  induction s as [|c s IH]; [reflexivity|]. simpl.
  rewrite existsb_app, IH. simpl. rewrite orb_false_r. apply orb_comm.
Qed.

Lemma forallb_rev' (p : N -> bool) (s : jsstring) :
  forallb p (rev s) = forallb p s.
Proof.
  induction s as [|c s IH]; [reflexivity|]. simpl.
  rewrite forallb_app, IH. simpl. rewrite andb_true_r. apply andb_comm.
Qed.

Lemma trimStart_keeps (s : jsstring) :
  existsb not_whitespace s = true ->
  existsb not_whitespace (trimStart s) = true.
Proof.
  induction s as [|c s IH]; [easy|].
  cbn [trimStart existsb]. unfold not_whitespace at 1.
  destruct (is_whitespace c) eqn:Ec; simpl.
  - exact IH.
  - intros _. cbn [existsb]. unfold not_whitespace at 1. now rewrite Ec.
Qed.

Lemma trim_not_blank (s : jsstring) :
  existsb not_whitespace s = true -> jseq (trim s) [] = false.
Proof.
  intros H. unfold trim.
  assert (H' : existsb not_whitespace
                 (rev (trimStart (rev (trimStart s)))) = true).
  { rewrite existsb_rev'. apply trimStart_keeps. rewrite existsb_rev'.
    now apply trimStart_keeps. }
  destruct (rev (trimStart (rev (trimStart s)))); [discriminate|reflexivity].
Qed.

Lemma endsWith_java_rev (line : jsstring) :
  endsWith line (str ".java") = true ->
  exists t, rev line = str "avaj." ++ t.
Proof.
  unfold endsWith. intros H. apply is_prefix_true in H.
  eexists. exact H.
Qed.

Lemma keepEntry_trim_holds (entry : jsstring) :
  endsWith entry (str ".java") || entryIsDirectory entry = true ->
  jseq (trim entry) [] = false.
Proof.
  intros H. apply trim_not_blank. apply orb_true_iff in H as [H|H].
  - apply endsWith_java_rev in H as [t Ht].
    rewrite <- existsb_rev', Ht. reflexivity.
  - destruct entry as [|c s]; [discriminate|]. simpl in H.
    apply N.eqb_eq in H. subst c. reflexivity.
Qed.

Lemma keepEntry_eq (entry : jsstring) :
  keepEntry entry = endsWith entry (str ".java") || entryIsDirectory entry.
Proof.
  unfold keepEntry.
  destruct (endsWith entry (str ".java") || entryIsDirectory entry) eqn:H.
  - rewrite (keepEntry_trim_holds entry H). reflexivity.
  - apply andb_false_r.
Qed.

(** X3: the blank-line test of the filter of [getFileListing] never
    decides: a line is kept exactly when it ends in [.java] or starts
    with [d]. *)
Theorem keepEntry_without_trim (entry : jsstring) :
  keepEntry entry = endsWith entry (str ".java") || entryIsDirectory entry.
Proof. exact (keepEntry_eq entry). Qed.

Lemma is_prefix_take_while (P : N -> bool) (p s : jsstring) :
  forallb P p = true -> is_prefix p s = true ->
  is_prefix p (take_while P s) = true.
Proof.
  revert s. induction p as [|a p IH]; intros s Hp H; [reflexivity|].
  destruct s as [|b s]; [discriminate|]. simpl in *.
  apply andb_true_iff in Hp as [Ha Hp]. apply andb_true_iff in H as [Hab H].
  apply N.eqb_eq in Hab. subst b. rewrite Ha. simpl.
  rewrite N.eqb_refl. simpl. now apply IH.
Qed.

Lemma toEntry_entry_ok (line : jsstring) (e : ListingEntry) :
  keepEntry line = true -> toEntry line = Done e -> entry_ok e.
Proof.
  intros Hk He. rewrite toEntry_final_token in He.
  destruct (final_token line) as [|b t] eqn:Et; [discriminate|].
  injection He as <-. unfold entry_ok. cbn [name isDirectory].
  rewrite <- Et. split; [rewrite Et; discriminate|]. split.
  - unfold final_token. rewrite forallb_rev'. apply take_while_forallb.
  - intros Hd. rewrite keepEntry_eq, Hd, orb_false_r in Hk.
    unfold endsWith in *. unfold final_token. rewrite rev_involutive.
    apply is_prefix_take_while; [reflexivity | exact Hk].
Qed.

Lemma map_outcome_done_inv {A B} (f : A -> outcome B) (l : list A)
    (bs : list B) :
  map_outcome f l = Done bs ->
  forall b, In b bs -> exists a, In a l /\ f a = Done b.
Proof.
  revert bs. induction l as [|a l IH]; intros bs H b Hb.
  - injection H as <-. destruct Hb.
  - cbn [map_outcome] in H. destruct (f a) as [b0| |] eqn:Ea; try discriminate.
    destruct (map_outcome f l) as [bs0| |] eqn:El; try discriminate.
    injection H as <-. destruct Hb as [<-|Hb].
    + exists a. split; [now left | exact Ea].
    + destruct (IH bs0 eq_refl b Hb) as (a' & Hin & Ha').
      exists a'. split; [now right | exact Ha'].
Qed.

(** X4: every entry [getFileListing] returns has a name that is not
    empty and holds no white space, and the name of an entry that is not
    a directory ends in [.java]. *)
Theorem listing_entries_wellformed (doc : jsstring)
    (entries : list ListingEntry) :
  parseListing doc = Done entries -> Forall entry_ok entries.
Proof.
  intros H. apply List.Forall_forall. intros e He.
  destruct (map_outcome_done_inv _ _ _ H e He) as (line & Hin & Hl).
  apply List.filter_In in Hin as [_ Hk].
  exact (toEntry_entry_ok line e Hk Hl).
Qed.

Lemma listing_entries_wellformed_witness :
  Forall entry_ok
    [Entry true (str "midi"); Entry false (str "MidiSystem.java")].
Proof.
  apply (listing_entries_wellformed
           (str "drwxr-xr-x 0 midi" ++ [10]
            ++ str "-rw-r--r-- 17 MidiSystem.java" ++ [10]
            ++ str "-rw-r--r-- 9 package.html" ++ [10])).
  reflexivity.
Defined.

Lemma endsWith_java_no_trailing_ws (line : jsstring) :
  endsWith line (str ".java") = true -> ends_with_whitespace line = false.
Proof.
  intros H. apply endsWith_java_rev in H as [t Ht].
  unfold ends_with_whitespace. rewrite Ht. reflexivity.
Qed.

(** X5: [getFileListing] throws on a document exactly when one of its
    lines starts with [d] and ends in white space; a line kept for its
    [.java] ending never makes it throw. *)
Theorem listing_throws_iff (doc : jsstring) :
  parseListing doc = Throw TypeError
  <-> exists line, In line (split_on 10 doc)
                   /\ entryIsDirectory line = true
                   /\ ends_with_whitespace line = true.
Proof.
  split.
  - intros H.
    destruct (existsb (fun l => entryIsDirectory l && ends_with_whitespace l)
                (split_on 10 doc)) eqn:Ex.
    + apply existsb_exists in Ex as (line & Hin & Hl).
      apply andb_true_iff in Hl as [Hd Hw]. now exists line.
    + exfalso. unfold parseListing in H.
      rewrite map_outcome_toEntry_done in H; [discriminate|].
      intros line Hl. apply List.filter_In in Hl as [Hin Hk].
      split; [|now apply keepEntry_nonempty].
      rewrite keepEntry_eq in Hk.
      destruct (entryIsDirectory line) eqn:Hd.
      * destruct (ends_with_whitespace line) eqn:Hw; [|reflexivity].
        assert (Hex : existsb
                        (fun l => entryIsDirectory l && ends_with_whitespace l)
                        (split_on 10 doc) = true).
        { apply existsb_exists. exists line. now rewrite Hd, Hw. }
        congruence.
      * rewrite orb_false_r in Hk. now apply endsWith_java_no_trailing_ws.
  - intros (line & Hin & Hd & Hw). unfold parseListing.
    apply (map_outcome_toEntry_throw _ line); [|exact Hw].
    apply List.filter_In. split; [exact Hin|].
    rewrite keepEntry_eq, Hd. apply orb_true_r.
Qed.

Lemma listing_throws_iff_witness :
  parseListing (str "-rw-r--r-- 17 MidiSystem.java" ++ [10]
                ++ str "drwxr-xr-x 0 midi " ++ [10]) = Throw TypeError.
Proof.
  apply (proj2 (listing_throws_iff _)).
  exists (str "drwxr-xr-x 0 midi "). split; [|split].
  - vm_compute. right. left. reflexivity.
  - reflexivity.
  - reflexivity.
Defined.

(** ** Failures during the download *)

(** X6: when the listing of a directory has a line that starts with [d]
    and ends in white space, the walk of that directory stops with the
    listing request: no directory is made and no file of the listing is
    downloaded, wherever the line stands in the listing. *)
Theorem bad_listing_aborts_walk (E : world) (skipclasses : gset (list N))
    (fuel : nat) (directory : jsstring) (makeCopies : bool) (w w' : wstate E)
    (doc line : jsstring) :
  http_get E directory w = (Some doc, w') ->
  In line (split_on 10 doc) -> entryIsDirectory line = true ->
  ends_with_whitespace line = true ->
  fetchDirectoryAux E skipclasses (S fuel) directory makeCopies w
  = (Throw TypeError, w', [EListing directory]).
Proof.
  intros Hget Hin Hd Hw. cbn [fetchDirectoryAux].
  unfold bind, getFileListing, bind, getFileContentsAsString, lift_outcome.
  rewrite Hget. unfold parseListing.
  rewrite (map_outcome_toEntry_throw _ line); [reflexivity| |exact Hw].
  apply List.filter_In. split; [exact Hin|].
  rewrite keepEntry_eq, Hd. apply orb_true_r.
Qed.

Lemma bad_listing_aborts_walk_witness :
  fetchDirectoryAux
    (node_world (fun _ => Some (str "-rw-r--r-- 5 Good.java" ++ [10]
                                ++ str "drwxr-xr-x 0 midi" ++ [13; 10]))
       (fun t => t))
    scenario_skip 3 (str "com/sun/media/sound") true empty_disk
  = (Throw TypeError, empty_disk, [EListing (str "com/sun/media/sound")]).
Proof.
  apply (bad_listing_aborts_walk
           (node_world (fun _ => Some (str "-rw-r--r-- 5 Good.java" ++ [10]
                                       ++ str "drwxr-xr-x 0 midi" ++ [13; 10]))
              (fun t => t))
           scenario_skip 2 (str "com/sun/media/sound") true empty_disk
           empty_disk
           (str "-rw-r--r-- 5 Good.java" ++ [10]
            ++ str "drwxr-xr-x 0 midi" ++ [13; 10])
           (str "drwxr-xr-x 0 midi" ++ [13])).
  - reflexivity.
  - vm_compute. right. left. reflexivity.
  - reflexivity.
  - reflexivity.
Defined.

(** X7: when the server does not deliver a file, [fetchFileAux] has made
    the directory of the mirror and nothing else: no file is written,
    neither in the mirror nor in a derived tree. *)
Theorem failed_download_writes_nothing (E : world)
    (directory filename : option jsstring) (makeCopies : bool)
    (w : wstate E) :
  let path := to_text directory ++ str "/" ++ to_text filename in
  outcome_of (fetchFileAux E directory filename makeCopies w)
  = Throw TransportError ->
  events_of (fetchFileAux E directory filename makeCopies w)
  = [EMkdir (originalTree ++ to_text directory);
     ELog (str "downloading " ++ path); EDownload path].
Proof.
  intros path. subst path.
  unfold fetchFileAux, createFileCopies, bind, mkdir, writeFile, console_log,
    getFileContentsAsString, ret, outcome_of, events_of.
  destruct (fs_mkdir E _ w) as [[|] w1]; [|discriminate].
  destruct (http_get E _ w1) as [[data|] w2]; [|reflexivity].
  destruct (fs_writeFile E _ data w2) as [[|] w3]; [|discriminate].
  destruct makeCopies; [|discriminate].
  repeat match goal with
         | |- context [fs_mkdir E ?p ?s] =>
             destruct (fs_mkdir E p s) as [[|] ?]
         | |- context [fs_writeFile E ?p ?c ?s] =>
             destruct (fs_writeFile E p c s) as [[|] ?]
         end; discriminate.
Qed.

Lemma failed_download_writes_nothing_witness :
  events_of (fetchFileAux (node_world (fun _ => None) (fun t => t))
               (Some (str "javax/sound/midi")) (Some (str "Track.java"))
               true empty_disk)
  = [EMkdir (str "original/javax/sound/midi");
     ELog (str "downloading javax/sound/midi/Track.java");
     EDownload (str "javax/sound/midi/Track.java")].
Proof.
  apply (failed_download_writes_nothing
           (node_world (fun _ => None) (fun t => t))
           (Some (str "javax/sound/midi")) (Some (str "Track.java"))
           true empty_disk).
  reflexivity.
Defined.

(** ** The calls of the copy phase *)

Section CopyTraces.
Variable E : world.

Lemma all_events_readFile (P : event -> Prop) path :
  P (EReadFile path) -> all_events P (readFile E path).
Proof.
  intros H w. unfold readFile.
  destruct (fs_readFile E path w) as [[data|] w']; repeat constructor; exact H.
Qed.

Lemma all_events_opendir (P : event -> Prop) path :
  P (EOpendir path) -> all_events P (opendir E path).
Proof.
  intros H w. unfold opendir.
  destruct (fs_opendir E path w) as [[data|] w']; repeat constructor; exact H.
Qed.

Lemma copy_event_createFileCopies directory filename content :
  all_events (fun e => copy_event e = true)
    (createFileCopies E directory filename content).
Proof.
  unfold createFileCopies.
  repeat first
    [ apply all_events_bind; [|intros ?]
    | apply all_events_mkdir; cbn [copy_event];
      rewrite is_prefix_app; rewrite ?orb_true_r; reflexivity
    | apply all_events_writeFile; cbn [copy_event];
      rewrite is_prefix_app; rewrite ?orb_true_r; reflexivity ].
Qed.

Lemma copy_event_single directory filename :
  all_events (fun e => copy_event e = true)
    (createCopiesOfSingleFileAux E directory filename).
Proof.
  unfold createCopiesOfSingleFileAux. apply all_events_bind.
  - apply all_events_readFile. cbn [copy_event]. apply is_prefix_app.
  - intros content. apply copy_event_createFileCopies.
Qed.

Lemma copy_event_dir fuel directory :
  all_events (fun e => copy_event e = true)
    (createCopiesOfFilesInDir E fuel directory).
Proof.
  revert directory. induction fuel as [|fuel IH]; intros directory.
  - apply all_events_out_of_fuel.
  - cbn [createCopiesOfFilesInDir]. apply all_events_bind.
    + apply all_events_opendir. cbn [copy_event]. apply is_prefix_app.
    + intros dir. apply all_events_for_each. intros d _. unfold copyEntry.
      destruct (dirent_isDirectory d); [apply IH | apply copy_event_single].
Qed.

End CopyTraces.

(** X8: with the flag [-c] the script sends no request to the server and
    logs nothing; it opens directories and reads files below [original/]
    only, and makes directories and writes files below the three derived
    trees only, so the mirror is left as it was. *)
Theorem copy_flag_calls (E : world) (skipclasses : gset (list N))
    (fuel : nat) (w : wstate E) :
  Forall (fun e => copy_event e = true)
    (events_of (main E skipclasses fuel (Some (str "-c")) w)).
Proof.
  change (main E skipclasses fuel (Some (str "-c")))
    with (createCopiesOfFilesInDir E fuel []).
  apply copy_event_dir.
Qed.

(** ** What the copy phase covers *)

Lemma for_each_done_in {S A} (l : list A) (body : A -> M S unit) (w : S) :
  outcome_of (for_each l body w) = Done tt ->
  forall a, In a l ->
  exists wa, outcome_of (body a wa) = Done tt
             /\ incl (events_of (body a wa)) (events_of (for_each l body w)).
Proof.
  revert w. induction l as [|a l IH]; intros w H b Hb; [destruct Hb|].
  cbn [for_each] in *. unfold bind in *.
  destruct (body a w) as [[[u|e|] w1] ev1] eqn:Ea; try discriminate H.
  destruct (for_each l body w1) as [[r w2] ev2] eqn:El.
  unfold outcome_of, events_of in *. simpl in H. simpl.
  destruct Hb as [<-|Hb].
  - exists w. rewrite Ea. simpl. split; [now destruct u|].
    apply incl_appl, incl_refl.
  - destruct (IH w1) with (a := b) as (wa & Hd & Hi).
    + rewrite El. exact H.
    + exact Hb.
    + exists wa. split; [exact Hd|]. rewrite El in Hi. simpl in Hi.
      now apply incl_appr.
Qed.

(** X9: [createCopiesOfFilesInDir] has no filter: when it completes, it
    has read every entry of the directory that is not itself a directory,
    whatever its name, and has made the three directories and written the
    three copies for it. *)
Theorem copies_cover_every_file (E : world) (fuel : nat)
    (directory : jsstring) (w w1 : wstate E) (entries : list dirent)
    (d : dirent) :
  fs_opendir E (originalTree ++ directory) w = (Some entries, w1) ->
  outcome_of (createCopiesOfFilesInDir E (S fuel) directory w) = Done tt ->
  In d entries -> dirent_isDirectory d = false ->
  exists content,
    incl (EReadFile (originalTree ++ directory ++ str "/" ++ dirent_name d)
          :: copy_calls E (Some directory) (Some (dirent_name d)) content)
         (events_of (createCopiesOfFilesInDir E (S fuel) directory w)).
Proof.
  intros Hopen Hdone Hin Hfile. cbn [createCopiesOfFilesInDir] in *.
  unfold bind, opendir in *. rewrite Hopen in *.
  destruct (for_each entries _ w1) as [[r w2] ev2] eqn:El.
  unfold outcome_of, events_of in *. simpl in Hdone. simpl.
  pose proof (for_each_done_in entries
                (copyEntry E (createCopiesOfFilesInDir E fuel) directory) w1)
    as Hfe.
  rewrite El in Hfe. specialize (Hfe Hdone d Hin).
  destruct Hfe as (wa & Hd & Hi).
  unfold copyEntry in Hd, Hi. rewrite Hfile in Hd, Hi.
  unfold createCopiesOfSingleFileAux, bind, readFile in Hd, Hi.
  simpl to_text in Hd, Hi.
  destruct (fs_readFile E _ wa) as [[content|] wb]; [|discriminate Hd].
  destruct (createFileCopies_trace E (Some directory) (Some (dirent_name d))
              content wb) as (Htr & _).
  destruct (createFileCopies E (Some directory) (Some (dirent_name d))
              content wb) as [[r' wc] evc].
  unfold outcome_of, events_of in *. simpl in *.
  rewrite (Htr Hd) in Hi. exists content.
  intros e He. right. apply Hi. exact He.
Qed.

Lemma copies_cover_every_file_witness :
  exists content,
    incl (EReadFile (originalTree ++ str "com/sun/media/sound/midi"
                     ++ str "/" ++ str "Note.java")
          :: copy_calls scenario_world (Some (str "com/sun/media/sound/midi"))
               (Some (str "Note.java")) content)
         (events_of (createCopiesOfFilesInDir scenario_world 1
                       (str "com/sun/media/sound/midi") mirror_disk)).
Proof.
  refine (copies_cover_every_file scenario_world 0
            (str "com/sun/media/sound/midi") mirror_disk mirror_disk
            [Dirent (str "Note.java") false]
            (Dirent (str "Note.java") false) _ _ _ _).
  - vm_compute. reflexivity.
  - vm_compute. reflexivity.
  - left. reflexivity.
  - reflexivity.
Defined.

(** ** More on the package pass *)

Lemma packagePass_miss c s :
  shape_match gervillShapes 0 (c :: s) = None ->
  packagePass (c :: s) = c :: packagePass s.
Proof.
  intros H. unfold packagePass.
  apply (replace_global_miss gervillRegex gervillCallback
           eq_refl gervill_nonempty gervillCallback_text_groups).
  now rewrite gervill_match_at.
Qed.

Lemma packagePass_nil : packagePass [] = [].
Proof.
  apply (replace_global_nil gervillRegex gervillCallback gervill_nonempty).
Qed.

(** Neither [j] nor [c]. *)
Lemma shape_match_other c s :
  c <> 106 -> c <> 99 -> shape_match gervillShapes 0 (c :: s) = None.
Proof.
  intros Hj Hc.
  let l := eval vm_compute in gervillShapes in change gervillShapes with l.
  unfold shape_match. cbn [find fst is_prefix].
  destruct (N.eqb_spec 106 c) as [<-|_]; [congruence|].
  destruct (N.eqb_spec 99 c) as [<-|_]; [congruence|].
  reflexivity.
Qed.

Lemma packagePass_skip (t post : jsstring) :
  forallb (fun c => negb (c =? 106) && negb (c =? 99)) t = true ->
  packagePass (t ++ post) = t ++ packagePass post.
Proof.
  induction t as [|c t IH]; intros H; [reflexivity|].
  cbn [forallb] in H. apply andb_true_iff in H as [Hc Ht].
  apply andb_true_iff in Hc as [Hj Hc].
  apply negb_true_iff, N.eqb_neq in Hj, Hc.
  change ((c :: t) ++ post) with (c :: (t ++ post)).
  rewrite packagePass_miss by now apply shape_match_other.
  now rewrite IH.
Qed.

Lemma gervill_local_g (x y : jsstring) :
  local_in gervillRegex x (103 :: y).
Proof.
  intros x1 x2 _ Hx2. rewrite !gervill_match_at.
  apply shape_match_seam; [exact Hx2|].
  repeat constructor; simpl; intros H;
    repeat (destruct H as [H|H]; [discriminate H|]); exact H.
Qed.

Lemma separator_plain (sep : jsstring) :
  In sep separators ->
  forallb (fun c => negb (c =? 106) && negb (c =? 99))
    (str "gervill" ++ sep) = true.
Proof.
  intros Hs. simpl in Hs.
  destruct Hs as [<-|[<-|[<-|[<-|[]]]]]; reflexivity.
Qed.

(** X10: the package pass is not idempotent: a package name that already
    carries the prefix [gervill] and the separator is given the prefix
    once more. *)
Theorem packagePass_prefixes_again (pkg sep pre post : jsstring) :
  In pkg packages -> In sep separators ->
  packagePass (pre ++ (str "gervill" ++ sep ++ dotted sep pkg) ++ post)
  = packagePass pre
    ++ (str "gervill" ++ sep ++ str "gervill" ++ sep ++ dotted sep pkg)
    ++ packagePass post.
Proof.
  intros Hp Hs.
  replace (pre ++ (str "gervill" ++ sep ++ dotted sep pkg) ++ post)
    with ((pre ++ str "gervill" ++ sep) ++ dotted sep pkg ++ post)
    by (rewrite <- !app_assoc; reflexivity).
  rewrite (packagePass_shape pkg sep _ post Hp Hs).
  rewrite (packagePass_app pre (str "gervill" ++ sep))
    by apply gervill_local_g.
  rewrite <- (app_nil_r (str "gervill" ++ sep)) at 1.
  rewrite (packagePass_skip _ [] (separator_plain sep Hs)), packagePass_nil.
  rewrite app_nil_r, <- !app_assoc. reflexivity.
Qed.

Lemma packagePass_prefixes_again_witness :
  packagePass (packagePass (str "import javax.sound.midi.Track;"))
  = str "import gervill.gervill.javax.sound.midi.Track;".
Proof.
  replace (packagePass (str "import javax.sound.midi.Track;"))
    with (str "import " ++ (str "gervill" ++ str "."
                            ++ dotted (str ".") (str "javax.sound"))
          ++ str ".midi.Track;") by reflexivity.
  rewrite (packagePass_prefixes_again (str "javax.sound") (str ".")
             (str "import ") (str ".midi.Track;"));
    [reflexivity | now left | now left].
Defined.

(** X11: the callback of the package pass always finds a capture to echo:
    whatever the pattern matched, the replacement is the prefix [gervill],
    one of the four separators and the matched text, and never the text
    of an undefined value. *)
Theorem gervillCallback_defined (idx : nat) (s : jsstring)
    (m : rmatch_result) :
  match_at gervillRegex idx s = Some m ->
  exists sep, In sep separators
              /\ gervillCallback m = str "gervill" ++ sep ++ m_text m.
Proof.
  rewrite gervill_match_at. unfold shape_match.
  destruct (find _ gervillShapes) as [[t gs]|] eqn:E; [|discriminate].
  intros H. injection H as <-. apply find_some in E as [E _].
  revert E.
  let l := eval vm_compute in gervillShapes in change gervillShapes with l.
  intros E. simpl in E.
  repeat (destruct E as [E|E];
          [injection E as <- <-;
           first [ exists [46%N]; split; [simpl; tauto | reflexivity]
                 | exists [47%N]; split; [simpl; tauto | reflexivity]
                 | exists [92%N]; split; [simpl; tauto | reflexivity]
                 | exists [92%N; 92%N];
                   split; [simpl; tauto | reflexivity] ]|]).
  destruct E.
Qed.

Lemma gervillCallback_defined_witness :
  exists sep, In sep separators
    /\ gervillCallback (MatchResult (str "com/sun/media/sound")
                          [None; Some (str "/")] (str "/X") 19)
       = str "gervill" ++ sep ++ str "com/sun/media/sound".
Proof.
  apply (gervillCallback_defined 0 (str "com/sun/media/sound/X")).
  reflexivity.
Defined.

(** X12: a name of the second package written with separators that differ
    is not renamed: the back-reference holds the pattern to the separator
    it found first. *)
Theorem mixed_separators_not_renamed (c1 c2 c3 : N) (pre post : jsstring) :
  In c1 [46; 47; 92] -> In c2 [46; 47; 92] -> In c3 [46; 47; 92] ->
  c1 <> c2 \/ c1 <> c3 ->
  let x := str "com" ++ [c1] ++ str "sun" ++ [c2] ++ str "media" ++ [c3]
           ++ str "sound" in
  packagePass (pre ++ x ++ post) = packagePass pre ++ x ++ packagePass post.
Proof.
  intros H1 H2 H3 Hne x. subst x. simpl in H1, H2, H3.
  destruct H1 as [<-|[<-|[<-|[]]]]; destruct H2 as [<-|[<-|[<-|[]]]];
    destruct H3 as [<-|[<-|[<-|[]]]];
    try (exfalso; destruct Hne as [Hne|Hne]; now apply Hne);
    norm_const (str "com"); norm_const (str "sun"); norm_const (str "media");
    norm_const (str "sound"); cbn [app];
    (rewrite packagePass_app by (apply gervill_local; now right));
    f_equal;
    (rewrite packagePass_miss by reflexivity); f_equal;
    match goal with
    | |- packagePass ?s = _ =>
        match s with
        | context C [post] =>
            let t := context C [@nil N] in
            change s with (t ++ post);
            rewrite (packagePass_skip t post eq_refl)
        end
    end; reflexivity.
Qed.

Lemma mixed_separators_not_renamed_witness :
  packagePass (str "load com/sun.media/sound now")
  = str "load com/sun.media/sound now".
Proof.
  refine (mixed_separators_not_renamed 47 46 47 (str "load ") (str " now")
            _ _ _ _).
  - right. left. reflexivity.
  - left. reflexivity.
  - right. left. reflexivity.
  - left. discriminate.
Defined.

(** ** Content the rewrite leaves as it is *)

Lemma occurs_cons (t : jsstring) c s :
  occurs t (c :: s) = false ->
  is_prefix t (c :: s) = false /\ occurs t s = false.
Proof. cbn [occurs]. intros H. now apply orb_false_iff in H. Qed.

Lemma shapes_absent_cons (shapes : list (jsstring * list (option jsstring)))
    c s :
  forallb (fun sh => negb (occurs (fst sh) (c :: s))) shapes = true ->
  shape_match shapes 0 (c :: s) = None
  /\ forallb (fun sh => negb (occurs (fst sh) s)) shapes = true.
Proof.
  unfold shape_match.
  induction shapes as [|[t gs] shapes IH]; intros H; [now split|].
  cbn [forallb fst] in H. apply andb_true_iff in H as [Ht H].
  apply negb_true_iff, occurs_cons in Ht as [Hp Ho].
  destruct (IH H) as [IH1 IH2]. cbn [find forallb fst].
  rewrite Hp, Ho. split; [exact IH1 | exact IH2].
Qed.

Lemma packagePass_absent (s : jsstring) :
  forallb (fun sh => negb (occurs (fst sh) s)) gervillShapes = true ->
  packagePass s = s.
Proof.
  induction s as [|c s IH]; intros H; [apply packagePass_nil|].
  apply shapes_absent_cons in H as [Hm H].
  rewrite (packagePass_miss c s Hm). now rewrite IH.
Qed.

Lemma docTagPass_absent (s : jsstring) :
  occurs (str "{@link") s = false -> occurs (str "@throws") s = false ->
  occurs (str "@see") s = false -> docTagPass s = s.
Proof.
  induction s as [|c s IH]; intros H1 H2 H3; [apply docTagPass_nil|].
  apply occurs_cons in H1 as [P1 H1]. apply occurs_cons in H2 as [P2 H2].
  apply occurs_cons in H3 as [P3 H3].
  rewrite docTagPass_miss.
  - now rewrite IH.
  - unfold docTagShape. now rewrite P1, P2, P3.
Qed.

(** X13: content in which none of the two package names occurs, with any
    of the separators, and neither the opener of a link tag nor one of
    the two tag keywords, is written to the renamed tree as it is, and its
    two comparison copies are the same text. *)
Theorem untouched_content (strip : jsstring -> jsstring)
    (content : jsstring) :
  forallb (fun sh => negb (occurs (fst sh) content)) gervillShapes = true ->
  occurs (str "{@link") content = false ->
  occurs (str "@throws") content = false ->
  occurs (str "@see") content = false ->
  newFileContent content = content
  /\ cleanForComparison strip (newFileContent content)
     = cleanForComparison strip content.
Proof.
  intros Hp H1 H2 H3.
  assert (H : newFileContent content = content).
  { unfold newFileContent. rewrite (packagePass_absent content Hp).
    now apply docTagPass_absent. }
  split; [exact H | now rewrite H].
Qed.

Lemma untouched_content_witness :
  newFileContent (str "import java.util.List; // com.sun.media" ++ [10]
                  ++ str "class A { int javax; }")
  = str "import java.util.List; // com.sun.media" ++ [10]
    ++ str "class A { int javax; }".
Proof.
  refine (proj1 (untouched_content (fun t => t)
                   (str "import java.util.List; // com.sun.media" ++ [10]
                    ++ str "class A { int javax; }") _ _ _ _));
    vm_compute; reflexivity.
Defined.

(** ** The counter of [createGervillRegexSource] *)

Lemma refs_ok_join (n : nat) (params : list jsstring) :
  refs_ok n (S n) (join_backref n params) = true
  /\ ngroups (join_backref n params) = 0%nat.
Proof.
  induction params as [|p params [IH1 IH2]]; [now split|].
  destruct params as [|q params]; [now split|].
  change (join_backref n (p :: q :: params))
    with (Lit p <.> Backref n <.> join_backref n (q :: params)).
  cbn [refs_ok ngroups]. rewrite IH2. split; [|reflexivity].
  rewrite !Nat.add_0_r, IH1, Nat.leb_refl.
  assert ((n <? S n)%nat = true) as -> by (apply Nat.ltb_lt; lia).
  reflexivity.
Qed.

Lemma refs_ok_source (path : jsstring) (id : nat) :
  refs_ok id id (fst (createGervillRegexSource path id)) = true
  /\ snd (createGervillRegexSource path id)
     = (id + ngroups (fst (createGervillRegexSource path id)))%nat.
Proof.
  unfold createGervillRegexSource.
  destruct (split_on 46 path) as [|param1 [|p params]].
  - simpl. split; [reflexivity | lia].
  - simpl. split; [reflexivity | lia].
  - destruct (refs_ok_join id (p :: params)) as [H1 H2].
    cbn [fst snd refs_ok ngroups]. rewrite H2.
    change (ngroups gervillSeparatorRegex) with 0%nat.
    replace (id + 0 + 1)%nat with (S id) by lia.
    rewrite H1. split; [reflexivity | lia].
Qed.

Lemma refs_ok_alternatives (pkgs : list jsstring) (id : nat) :
  refs_ok id id (gervillAlternatives pkgs id) = true.
Proof.
  revert id. induction pkgs as [|p pkgs IH]; intros id; [reflexivity|].
  destruct (refs_ok_source p id) as [H1 H2].
  destruct pkgs as [|q pkgs]; [exact H1|].
  change (gervillAlternatives (p :: q :: pkgs) id)
    with (let (r, id') := createGervillRegexSource p id in
          r <|> gervillAlternatives (q :: pkgs) id').
  destruct (createGervillRegexSource p id) as [r id'].
  cbn [fst snd] in H1, H2. cbn [refs_ok]. rewrite H1, <- H2. apply IH.
Qed.


(** ** Paths given to [fetchFile] and [createCopiesOfSingleFile] *)

Lemma split_loop_free (s : jsstring) :
  split_free s [] = true ->
  forall fuel p q cur,
    (length s <= fuel)%nat ->
    split_loop fuel fileSplitRegex p q cur s = [cur ++ s].
Proof.
  induction s as [|c s IH]; intros Hfree fuel p q cur Hf.
  - destruct fuel; simpl; now rewrite ?app_nil_r.
  - destruct fuel as [|fuel]; [simpl in Hf; lia|].
    cbn [split_free] in Hfree. apply andb_true_iff in Hfree as [Hc Hfree].
    apply negb_true_iff in Hc. rewrite app_nil_r in Hc.
    cbn [split_loop]. rewrite fileSplit_match_at, Hc.
    rewrite (IH Hfree); [now rewrite <- app_assoc | simpl in Hf; lia].
Qed.

Lemma split_regex_free (path : jsstring) :
  split_free path [] = true -> split_regex fileSplitRegex path = [path].
Proof.
  intros Hfree. unfold split_regex. destruct path as [|c s]; [reflexivity|].
  rewrite (split_loop_free (c :: s) Hfree); [reflexivity|]. simpl. lia.
Qed.

Lemma bind_events_l {S A B} (m : M S A) (k : A -> M S B) (w : S) e :
  In e (events_of (m w)) -> In e (events_of (bind m k w)).
Proof.
  unfold bind, events_of.
  destruct (m w) as [[[a|err|] w1] ev1]; simpl; try tauto.
  destruct (k a w1) as [[r w2] ev2]. simpl. intros H.
  apply in_or_app. now left.
Qed.

Lemma bind_events_r {S A B} (m : M S A) (k : A -> M S B) (w w1 : S) a ev1 e :
  m w = (Done a, w1, ev1) ->
  In e (events_of (k a w1)) -> In e (events_of (bind m k w)).
Proof.
  unfold bind, events_of. intros ->.
  destruct (k a w1) as [[r w2] ev2]. simpl. intros H.
  apply in_or_app. now right.
Qed.

(** X15: [createCopiesOfSingleFile] takes the directory and the file name
    from the path as [fetchFile] does: when the slash before the file name
    is the only slash of the path that is followed by word characters, one
    more code unit and [java], it is the per-file branch of the copy
    orchestrator for that directory and that name. *)
Theorem createCopiesOfSingleFile_same_as_walk (E : world)
    (recur : jsstring -> M (wstate E) unit) (directory fname : jsstring) :
  split_free directory (47 :: fname) = true ->
  splits_before fname = true ->
  ~ In 47 fname ->
  createCopiesOfSingleFile E (directory ++ str "/" ++ fname)
  = copyEntry E recur directory (Dirent fname false).
Proof.
  intros Hfree Hname Hslash. unfold createCopiesOfSingleFile, copyEntry.
  rewrite split_regex_directory_name by assumption. reflexivity.
Qed.

Lemma createCopiesOfSingleFile_same_as_walk_witness :
  createCopiesOfSingleFile scenario_world
    (str "com/sun/media/sound" ++ str "/" ++ str "Good.java")
  = copyEntry scenario_world (createCopiesOfFilesInDir scenario_world 2)
      (str "com/sun/media/sound") (Dirent (str "Good.java") false).
Proof.
  apply (createCopiesOfSingleFile_same_as_walk scenario_world
           (createCopiesOfFilesInDir scenario_world 2)
           (str "com/sun/media/sound") (str "Good.java")).
  - reflexivity.
  - reflexivity.
  - vm_compute. intuition discriminate.
Defined.

(** X16: a path in which no slash is followed by word characters, one more
    code unit and [java] is not split: the whole path is taken for the
    directory and there is no file name, so [fetchFile] asks the server
    for the path with [/undefined] after it and
    [createCopiesOfSingleFile] reads that path below [original/]. *)
Theorem path_without_file_name (E : world) (path : jsstring)
    (makeCopies : bool) (w : wstate E) :
  split_free path [] = true ->
  fetchFile E path makeCopies = fetchFileAux E (Some path) None makeCopies
  /\ createCopiesOfSingleFile E path
     = createCopiesOfSingleFileAux E (Some path) None
  /\ In (EReadFile (originalTree ++ path ++ str "/undefined"))
        (events_of (createCopiesOfSingleFile E path w))
  /\ (fst (fs_mkdir E (originalTree ++ path) w) = true ->
      In (EDownload (path ++ str "/undefined"))
         (events_of (fetchFile E path makeCopies w))).
Proof.
  intros Hfree. unfold fetchFile, createCopiesOfSingleFile.
  rewrite (split_regex_free path Hfree). cbn [nth_error].
  split; [reflexivity|]. split; [reflexivity|]. split.
  - unfold createCopiesOfSingleFileAux. apply bind_events_l.
    unfold readFile, events_of. cbn [to_text].
    destruct (fs_readFile E _ w) as [[data|] w1]; simpl; now left.
  - intros Hmk. unfold fetchFileAux. cbn [to_text].
    destruct (fs_mkdir E (originalTree ++ path) w) as [[|] w1] eqn:Em;
      [|discriminate Hmk].
    eapply bind_events_r; [unfold mkdir; rewrite Em; reflexivity|].
    eapply bind_events_r; [reflexivity|].
    apply bind_events_l. unfold getFileContentsAsString, events_of.
    destruct (http_get E _ w1) as [[data|] w2]; simpl; now left.
Qed.

Lemma path_without_file_name_witness :
  In (EDownload (str "javax/sound/midi/package.html/undefined"))
     (events_of (fetchFile scenario_world (str "javax/sound/midi/package.html")
                   false empty_disk)).
Proof.
  refine (proj2 (proj2 (proj2 (path_without_file_name scenario_world
                   (str "javax/sound/midi/package.html") false empty_disk
                   _))) _).
  - reflexivity.
  - reflexivity.
Defined.

(** ** More on the doc-tag pass *)

(** X17: a link tag with nothing between the opener and the closing brace
    is not a match of the doc-tag pattern and stays in the text, braces
    and at-sign included. *)
Theorem empty_link_tag_stays (pre post : jsstring) :
  docTagPass (pre ++ str "{@link}" ++ post)
  = docTagPass pre ++ str "{@link}" ++ docTagPass post.
Proof.
  norm_const (str "{@link}"). cbn [app].
  rewrite docTagPass_app by apply docTag_local_brace. f_equal.
  rewrite docTagPass_miss by reflexivity. f_equal.
  rewrite docTagPass_miss by reflexivity. f_equal.
  do 5 (rewrite docTagPass_miss
          by (apply docTagShape_other; discriminate); f_equal).
Qed.

(** X18: the callback of the doc-tag pass always has a capture to return:
    exactly one of the two groups of the pattern takes part in a match,
    its capture is not empty and it is the replacement, so the text of an
    undefined value is never written. *)
Theorem docTagCallback_defined (idx : nat) (s : jsstring)
    (m : rmatch_result) :
  match_at finalCommentsLinkRegex idx s = Some m ->
  exists t, t <> [] /\ docTagCallback m = t
            /\ (m_groups m = [Some t; None] \/ m_groups m = [None; Some t]).
Proof.
  rewrite docTag_match_at. unfold docTagShape.
  destruct (is_prefix (str "{@link") s).
  - destruct (take_while not_brace (skipn 6 s)) as [|c inner];
      [discriminate|].
    destruct (drop_while not_brace (skipn 6 s)) as [|b after];
      [discriminate|].
    destruct b as [|p]; [discriminate|].
    do 7 (destruct p as [p|p|]; try discriminate).
    intros [= <-]. exists (c :: inner).
    split; [discriminate|]. split; [reflexivity | now left].
  - destruct (is_prefix (str "@throws") s).
    + intros [= <-]. exists (str "throws").
      split; [discriminate|]. split; [reflexivity | now right].
    + destruct (is_prefix (str "@see") s); [|discriminate].
      intros [= <-]. exists (str "see").
      split; [discriminate|]. split; [reflexivity | now right].
Qed.

Lemma docTagCallback_defined_witness :
  exists t, t <> []
    /\ docTagCallback (MatchResult (str "{@link Foo}")
                         [Some (str " Foo"); None] (str " x") 11) = t
    /\ ([Some (str " Foo"); None] = [Some t; None]
        \/ [Some (str " Foo"); None] = [None; Some t]).
Proof.
  apply (docTagCallback_defined 0 (str "{@link Foo} x")
           (MatchResult (str "{@link Foo}")
              [Some (str " Foo"); None] (str " x") 11)).
  reflexivity.
Defined.

(** ** The header pattern of [cleanForComparison] *)

Lemma search_bol_later (r : regex) (s : jsstring) (idx : nat) :
  search (Bol <.> r) (S idx) s = None.
Proof.
  revert idx. induction s as [|c s IH]; intros idx.
  - reflexivity.
  - cbn [search]. rewrite IH.
    unfold match_at. cbn [rmatch ms_idx]. reflexivity.
Qed.

Lemma star_class_absent (p : N -> bool) (w : jsstring)
    (k : mstate -> option mstate) caps :
  forall s idx,
    occurs w s = false ->
    star_class p idx s caps (fun st => match_text w st k) = None.
Proof.
  induction s as [|c s IH]; intros idx H.
  - cbn [occurs] in H. apply orb_false_iff in H as [H _].
    cbn [star_class]. unfold match_text. cbn [ms_rest]. now rewrite H.
  - apply occurs_cons in H as [Hp Ho]. cbn [star_class].
    assert (Hk : match_text w (MState idx (c :: s) caps) k = None).
    { unfold match_text. cbn [ms_rest]. now rewrite Hp. }
    destruct (p c); [|exact Hk].
    rewrite (IH (S idx) Ho). exact Hk.
Qed.

Lemma header_rmatch (s : jsstring) :
  rmatch packageAndImportsRegex 1 (MState 0 s []) Some
  = star_class any_unit 0 s []
      (fun st => match_text (str "package") st
                   (fun st0 => rmatch headerTailRegex 1 st0 Some)).
Proof.
  exact (rmatch_star_class any_unit 1 (MState 0 s [])
           (fun st => match_text (str "package") st
                        (fun st0 => rmatch headerTailRegex 1 st0 Some))).
Qed.

Lemma header_absent (contents : jsstring) :
  occurs (str "package") contents = false ->
  search packageAndImportsRegex 0 contents = None.
Proof.
  intros H.
  assert (Hm : match_at packageAndImportsRegex 0 contents = None).
  { unfold match_at. rewrite header_rmatch.
    now rewrite (star_class_absent _ (str "package") _ [] contents 0 H). }
  destruct contents as [|c s]; cbn [search]; rewrite Hm; [reflexivity|].
  unfold packageAndImportsRegex. now rewrite search_bol_later.
Qed.

(** X19: content in which the word [package] does not occur keeps its
    header: the header pattern of [cleanForComparison] does not match, so
    the import clauses of a file without a package clause stay in the
    comparison copy, and the stripper is given the content as it is. *)
Theorem header_needs_package (strip : jsstring -> jsstring)
    (contents : jsstring) :
  occurs (str "package") contents = false ->
  cleanForComparison strip contents = strip contents.
Proof.
  intros H. unfold cleanForComparison, replace_first.
  now rewrite (header_absent contents H).
Qed.

Lemma header_needs_package_witness :
  cleanForComparison (fun t => t)
    (str "import javax.sound.midi.Track;" ++ [10] ++ str "class A {}")
  = str "import javax.sound.midi.Track;" ++ [10] ++ str "class A {}".
Proof.
  apply (header_needs_package (fun t => t)
           (str "import javax.sound.midi.Track;" ++ [10]
            ++ str "class A {}")).
  reflexivity.
Defined.

(** *** The greedy star on a run it has to give nothing back of *)

Lemma extent_head (p : N -> bool) (b a' b' : jsstring) :
  b = a' ++ b' -> a' <> [] -> forallb p a' = true ->
  exists c t, b = c :: t /\ p c = true.
Proof.
  intros -> Hne Hp. destruct a' as [|c a']; [easy|].
  simpl in Hp. apply andb_true_iff in Hp as [Hc _].
  now exists c, (a' ++ b').
Qed.

Lemma star_class_fail_longer (p : N -> bool) caps k :
  forall b idx,
    (forall a' b', b = a' ++ b' -> a' <> [] -> forallb p a' = true ->
       k (MState (idx + length a') b' caps) = None) ->
    star_class p idx b caps k = k (MState idx b caps).
Proof.
  induction b as [|c b IH]; intros idx H; [reflexivity|].
  cbn [star_class]. destruct (p c) eqn:Ec; [|reflexivity].
  rewrite IH.
  - assert (Hk : k (MState (S idx) b caps) = None).
    { replace (S idx) with (idx + length [c])%nat by (simpl; lia).
      apply (H [c] b eq_refl); [discriminate|]. simpl. now rewrite Ec. }
    now rewrite Hk.
  - intros a' b' -> Hne Hp.
    replace (S idx + length a')%nat with (idx + length (c :: a'))%nat
      by (simpl; lia).
    apply (H (c :: a') b'); [reflexivity | discriminate |].
    simpl. now rewrite Ec.
Qed.

(** The star gives back what the continuation refuses, longest extent
    first, and stops at the first extent the continuation accepts. *)
Lemma star_class_pick (p : N -> bool) caps k (a : jsstring) :
  forall idx b,
    forallb p a = true ->
    is_Some (k (MState (idx + length a) b caps)) ->
    (forall a' b', b = a' ++ b' -> a' <> [] -> forallb p a' = true ->
       k (MState (idx + length a + length a') b' caps) = None) ->
    star_class p idx (a ++ b) caps k = k (MState (idx + length a) b caps).
Proof.
  induction a as [|c a IH]; intros idx b Hp Hk Hl.
  - cbn [app length] in *. rewrite Nat.add_0_r in *.
    apply star_class_fail_longer. exact Hl.
  - cbn [forallb] in Hp. apply andb_true_iff in Hp as [Hc Hp].
    cbn [app star_class]. rewrite Hc.
    replace (idx + length (c :: a))%nat with (S idx + length a)%nat in *
      by (simpl; lia).
    rewrite (IH (S idx) b Hp Hk Hl).
    destruct Hk as [x Hx]. now rewrite Hx.
Qed.

(** A run that ends where the class ends. *)
Lemma star_class_stop (p : N -> bool) caps k (a b : jsstring) idx :
  forallb p a = true ->
  match b with c :: _ => p c = false | [] => True end ->
  is_Some (k (MState (idx + length a) b caps)) ->
  star_class p idx (a ++ b) caps k = k (MState (idx + length a) b caps).
Proof.
  intros Hp Hb Hk. apply star_class_pick; [exact Hp | exact Hk|].
  intros a' b' E Hne Hp'.
  destruct (extent_head p b a' b' E Hne Hp') as (c & t & -> & Hc).
  congruence.
Qed.

Lemma rmatch_plus_class (p : N -> bool) g idx c (s : jsstring) caps k :
  p c = true ->
  rmatch (Plus (Class p)) g (MState idx (c :: s) caps) k
  = star_class p (idx + 1) s caps k.
Proof.
  intros Hc. unfold Plus. cbn [rmatch ms_rest]. rewrite Hc.
  exact (rmatch_star_class p (g + 0) (MState (idx + 1) s caps) k).
Qed.

Lemma rmatch_plus_class_none (p : N -> bool) g idx (s : jsstring) caps k :
  match s with c :: _ => p c = false | [] => True end ->
  rmatch (Plus (Class p)) g (MState idx s caps) k = None.
Proof.
  intros H. unfold Plus. cbn [rmatch ms_rest].
  destruct s as [|c s]; [reflexivity|]. now rewrite H.
Qed.

(** *** The clauses of the header *)

Lemma trimStart_length (s : jsstring) :
  (length (trimStart s) <= length s)%nat.
Proof.
  induction s as [|c s IH]; [reflexivity|]. simpl.
  destruct (is_whitespace c); simpl; lia.
Qed.

Lemma trimStart_fixed_head (s : jsstring) :
  trimStart s = s ->
  match s with c :: _ => is_whitespace c = false | [] => True end.
Proof.
  destruct s as [|c s]; [easy|]. simpl.
  destruct (is_whitespace c) eqn:E; [|reflexivity].
  intros H. pose proof (trimStart_length s) as Hl. rewrite H in Hl.
  simpl in Hl. lia.
Qed.

Lemma star_ws_eval (e rest : jsstring) idx (K : mstate -> option mstate) :
  forallb is_whitespace e = true -> trimStart rest = rest ->
  is_Some (K (MState (idx + length e) rest [])) ->
  rmatch (Star ws) 1 (MState idx (e ++ rest) []) K
  = K (MState (idx + length e) rest []).
Proof.
  intros He Hr HK.
  change (rmatch (Star ws) 1 (MState idx (e ++ rest) []) K)
    with (rmatch (Star (Class is_whitespace)) 1
            (MState idx (e ++ rest) []) K).
  rewrite rmatch_star_class. cbn [ms_idx ms_rest ms_caps].
  apply star_class_stop; [exact He | | exact HK].
  now apply trimStart_fixed_head.
Qed.

Lemma gap_eval (gap T : jsstring) g0 idx (k : mstate -> option mstate) :
  is_whitespace g0 = true -> forallb is_whitespace gap = true ->
  match T with c :: _ => is_whitespace c = false | [] => True end ->
  is_Some (k (MState (idx + 1 + length gap) T [])) ->
  rmatch (Plus ws) 1 (MState idx (g0 :: gap ++ T) []) k
  = k (MState (idx + 1 + length gap) T []).
Proof.
  intros Hg0 Hgap HT Hk. unfold ws.
  rewrite rmatch_plus_class by exact Hg0.
  now apply star_class_stop.
Qed.

Lemma whitespace_not_semicolon c : is_whitespace c = true -> (59 =? c) = false.
Proof.
  intros H. destruct (N.eqb_spec 59 c) as [<-|]; [discriminate H|reflexivity].
Qed.

Lemma name_eval (name T : jsstring) n0 idx (k : mstate -> option mstate) :
  not_whitespace n0 = true -> forallb not_whitespace name = true ->
  match T with c :: _ => is_whitespace c = true | [] => True end ->
  is_Some (k (MState (idx + 1 + length name + 1) T [])) ->
  rmatch (Plus nonws) 1 (MState idx (n0 :: name ++ 59 :: T) [])
    (fun st3 => match_text (str ";") st3 k)
  = k (MState (idx + 1 + length name + 1) T []).
Proof.
  intros Hn0 Hname HT Hk. unfold nonws.
  rewrite rmatch_plus_class by exact Hn0.
  rewrite star_class_pick.
  - reflexivity.
  - exact Hname.
  - exact Hk.
  - intros a' b' E Hne Hp. destruct a' as [|x a']; [easy|].
    injection E as <- E. unfold match_text. cbn [ms_rest].
    destruct a' as [|y a'].
    + cbn [app] in E. subst b'. destruct T as [|t T]; [reflexivity|].
      norm_const (str ";"). cbn [is_prefix].
      now rewrite (whitespace_not_semicolon t HT).
    + exfalso. cbn [app] in E. subst T. cbn [forallb] in Hp.
      apply andb_true_iff in Hp as [_ Hp].
      apply andb_true_iff in Hp as [Hy _].
      unfold not_whitespace in Hy. rewrite HT in Hy. discriminate.
Qed.

Lemma clause_eval (c : clause) (rest : jsstring) idx
    (K : mstate -> option mstate) :
  clause_ok c = true -> trimStart rest = rest ->
  is_Some (K (MState (idx + length (c_gap c ++ c_name c ++ str ";"
                                    ++ c_end c)) rest [])) ->
  rmatch (Plus ws) 1
    (MState idx (c_gap c ++ c_name c ++ str ";" ++ c_end c ++ rest) [])
    (fun st2 =>
       rmatch (Plus nonws) 1 st2
         (fun st3 =>
            match_text (str ";") st3
              (fun st4 => rmatch (Star ws) 1 st4 K)))
  = K (MState (idx + length (c_gap c ++ c_name c ++ str ";" ++ c_end c))
         rest []).
Proof.
  destruct c as [gap name e]. cbn [c_gap c_name c_end]. unfold clause_ok.
  cbn [c_gap c_name c_end].
  destruct gap as [|g0 gap]; [discriminate|].
  destruct name as [|n0 name]; [discriminate|].
  destruct e as [|e0 e]; [discriminate|].
  intros Hok Hrest HK.
  apply andb_true_iff in Hok as [Hok He].
  apply andb_true_iff in Hok as [Hgap Hname].
  cbn [forallb] in Hgap, Hname. 
  apply andb_true_iff in Hgap as [Hg0 Hgap].
  apply andb_true_iff in Hname as [Hn0 Hname].
  assert (He0 : is_whitespace e0 = true)
    by (cbn [forallb] in He; now apply andb_true_iff in He as [He0 _]).
  change (str ";") with [59%N] in *.
  replace (idx + length ((g0 :: gap) ++ (n0 :: name) ++ [59%N] ++ e0 :: e))%nat
    with (idx + 1 + length gap + 1 + length name + 1 + length (e0 :: e))%nat
    in *
    by (rewrite !length_app; simpl; rewrite ?length_app; simpl; lia).
  assert (H3 : rmatch (Star ws) 1
                 (MState (idx + 1 + length gap + 1 + length name + 1)
                    ((e0 :: e) ++ rest) []) K
               = K (MState (idx + 1 + length gap + 1 + length name + 1
                            + length (e0 :: e)) rest [])).
  { apply star_ws_eval; assumption. }
  assert (H2 : rmatch (Plus nonws) 1
                 (MState (idx + 1 + length gap)
                    (n0 :: name ++ 59 :: (e0 :: e) ++ rest) [])
                 (fun st3 =>
                    match_text [59] st3
                      (fun st4 => rmatch (Star ws) 1 st4 K))
               = K (MState (idx + 1 + length gap + 1 + length name + 1
                            + length (e0 :: e)) rest [])).
  { rewrite <- H3.
    apply (name_eval name ((e0 :: e) ++ rest) n0 (idx + 1 + length gap)
             (fun st4 => rmatch (Star ws) 1 st4 K)); try assumption.
    rewrite H3. exact HK. }
  rewrite <- H2.
  change ((g0 :: gap) ++ (n0 :: name) ++ [59] ++ (e0 :: e) ++ rest)
    with (g0 :: gap ++ (n0 :: name ++ 59 :: (e0 :: e) ++ rest)).
  apply gap_eval; try assumption.
  - unfold not_whitespace in Hn0. now apply negb_true_iff in Hn0.
  - rewrite H2. exact HK.
Qed.

Lemma star_class_no_semicolon (k : mstate -> option mstate) :
  forall (t : jsstring) idx,
    existsb (N.eqb 59) (take_while not_whitespace t) = false ->
    star_class not_whitespace idx t [] (fun st => match_text [59] st k)
    = None.
Proof.
  induction t as [|c t IH]; intros idx H; [reflexivity|].
  cbn [star_class take_while] in *. unfold match_text at 2.
  cbn [ms_rest is_prefix].
  destruct (not_whitespace c) eqn:Ec.
  - cbn [existsb] in H. apply orb_false_iff in H as [Hc H].
    rewrite (IH (S idx) H). cbn [or_else]. unfold match_text.
    cbn [ms_rest is_prefix]. now rewrite Hc.
  - unfold not_whitespace in Ec. apply negb_false_iff in Ec.
    unfold match_text. cbn [ms_rest is_prefix].
    now rewrite (whitespace_not_semicolon c Ec).
Qed.

(** Where no import clause begins, the import clause of the pattern does
    not match. *)
Lemma import_none (body : jsstring) idx (K : mstate -> option mstate) :
  starts_import_clause body = false ->
  rmatch importClauseRegex 1 (MState idx body []) K = None.
Proof.
  intros H.
  change (rmatch importClauseRegex 1 (MState idx body []) K)
    with (match_text (str "import") (MState idx body [])
            (fun st1 =>
               rmatch (Plus ws) 1 st1
                 (fun st2 =>
                    rmatch (Plus nonws) 1 st2
                      (fun st3 =>
                         match_text (str ";") st3
                           (fun st4 => rmatch (Star ws) 1 st4 K))))).
  unfold match_text at 1. cbn [ms_rest]. unfold starts_import_clause in H.
  destruct (is_prefix (str "import") body); [|reflexivity].
  cbn [andb] in H. unfold advance. cbn [ms_rest ms_idx ms_caps].
  change (length (str "import")) with 6%nat.
  destruct (skipn 6 body) as [|c t]; [reflexivity|].
  destruct (is_whitespace c) eqn:Ec.
  2:{ unfold ws. apply rmatch_plus_class_none. exact Ec. }
  cbn [take_while drop_while] in H. rewrite Ec in H.
  unfold ws. rewrite rmatch_plus_class by exact Ec.
  rewrite star_class_max.
  2:{ intros i d t' Hd. unfold nonws. apply rmatch_plus_class_none.
      unfold not_whitespace. now rewrite Hd. }
  destruct (drop_while is_whitespace t) as [|d t2];
    [now apply rmatch_plus_class_none|].
  destruct (not_whitespace d) eqn:Ed.
  2:{ unfold nonws. apply rmatch_plus_class_none. exact Ed. }
  cbn [take_while] in H. rewrite Ed in H. cbn [tl] in H.
  unfold nonws. rewrite rmatch_plus_class by exact Ed.
  now apply star_class_no_semicolon.
Qed.

Lemma imports_text_head (imports : list clause) (body : jsstring) :
  trimStart body = body ->
  trimStart (imports_text imports ++ body) = imports_text imports ++ body.
Proof.
  intros Hb. destruct imports as [|c imports]; [exact Hb|]. reflexivity.
Qed.

Lemma imports_text_length (imports : list clause) :
  (length imports <= length (imports_text imports))%nat.
Proof.
  induction imports as [|c imports IH]; [reflexivity|].
  unfold imports_text in *. cbn [map concat].
  rewrite length_app. unfold clause_text at 1. rewrite length_app.
  change (length (str "import")) with 6%nat. simpl. lia.
Qed.

(** The loop of import clauses takes the clauses that are there, all of
    them. *)
Lemma imports_eval (body : jsstring) :
  trimStart body = body -> starts_import_clause body = false ->
  forall imports fuel idx,
    forallb clause_ok imports = true ->
    (length imports <= fuel)%nat ->
    star_loop (rmatch importClauseRegex) fuel 1
      (MState idx (imports_text imports ++ body) []) Some
    = Some (MState (idx + length (imports_text imports)) body []).
Proof.
  intros Hb Hn. induction imports as [|c imports IH]; intros fuel idx Hok Hf.
  - cbn [imports_text map concat app length]. rewrite Nat.add_0_r.
    destruct fuel as [|fuel]; [reflexivity|].
    cbn [star_loop]. now rewrite import_none.
  - destruct fuel as [|fuel]; [simpl in Hf; lia|].
    cbn [forallb] in Hok. apply andb_true_iff in Hok as [Hc Hok].
    cbn [star_loop].
    replace (imports_text (c :: imports) ++ body)
      with (str "import"
            ++ (c_gap c ++ c_name c ++ str ";" ++ c_end c
                ++ (imports_text imports ++ body)))
      by (unfold imports_text, clause_text; cbn [map concat];
          rewrite <- !app_assoc; reflexivity).
    match goal with
    | |- or_else (rmatch importClauseRegex 1 ?st ?K) _ = _ =>
        change (rmatch importClauseRegex 1 st K)
          with (match_text (str "import") st
                  (fun st1 =>
                     rmatch (Plus ws) 1 st1
                       (fun st2 =>
                          rmatch (Plus nonws) 1 st2
                            (fun st3 =>
                               match_text (str ";") st3
                                 (fun st4 => rmatch (Star ws) 1 st4 K)))))
    end.
    unfold match_text at 1. cbn [ms_rest]. rewrite is_prefix_app.
    unfold advance. cbn [ms_rest ms_idx ms_caps]. rewrite skipn_length_app.
    assert (Hval :
      (fun st' : mstate =>
         if (ms_idx st' =? idx)%nat then None
         else star_loop (rmatch importClauseRegex) fuel 1 st' Some)
        (MState (idx + length (str "import")
                 + length (c_gap c ++ c_name c ++ str ";" ++ c_end c))
           (imports_text imports ++ body) [])
      = Some (MState (idx + length (imports_text (c :: imports))) body [])).
    { cbn beta. cbn [ms_idx].
      replace (_ =? idx)%nat with false
        by (symmetry; apply Nat.eqb_neq;
            change (length (str "import")) with 6%nat; lia).
      rewrite IH; [|exact Hok | simpl in Hf; lia].
      do 2 f_equal. unfold imports_text, clause_text. cbn [map concat].
      rewrite !length_app. lia. }
    rewrite clause_eval.
    + rewrite Hval. reflexivity.
    + exact Hc.
    + now apply imports_text_head.
    + rewrite Hval. now eexists.
Qed.

Lemma forallb_any_unit (s : jsstring) : forallb any_unit s = true.
Proof.
  induction s as [|c s IH]; [reflexivity|]. cbn [forallb]. rewrite IH.
  unfold any_unit. now destruct (is_whitespace c).
Qed.

Lemma occurs_suffix (w : jsstring) (a b : jsstring) :
  occurs w (a ++ b) = false -> is_prefix w b = false.
Proof.
  induction a as [|c a IH]; intros H.
  - destruct b; cbn [app occurs] in H; now apply orb_false_iff in H as [H _].
  - apply occurs_cons in H as [_ H]. now apply IH.
Qed.

Lemma occurs_skip (h : N) (w x y : jsstring) :
  forallb (fun c => negb (c =? h)) x = true ->
  occurs (h :: w) (x ++ y) = occurs (h :: w) y.
Proof.
  induction x as [|c x IH]; intros H; [reflexivity|].
  cbn [forallb] in H. apply andb_true_iff in H as [Hc H].
  cbn [app occurs is_prefix]. rewrite (N.eqb_sym h c).
  apply negb_true_iff in Hc. rewrite Hc. cbn [andb orb]. now apply IH.
Qed.

Lemma whitespace_not_p (s : jsstring) :
  forallb is_whitespace s = true ->
  forallb (fun c => negb (c =? 112)) s = true.
Proof.
  induction s as [|c s IH]; [reflexivity|]. cbn [forallb]. intros H.
  apply andb_true_iff in H as [Hc H]. rewrite (IH H), andb_true_r.
  destruct (N.eqb_spec c 112) as [->|]; [discriminate Hc | reflexivity].
Qed.

Lemma clause_ok_gap (c : clause) :
  clause_ok c = true -> forallb is_whitespace (c_gap c) = true.
Proof.
  unfold clause_ok. destruct (c_gap c), (c_name c), (c_end c);
    try discriminate.
  intros H. apply andb_true_iff in H as [H _].
  now apply andb_true_iff in H as [H _].
Qed.

Lemma cons_app_inv (x y : N) (t a b : jsstring) :
  x :: t = (y :: a) ++ b -> t = a ++ b.
Proof. intros [= _ H]. exact H. Qed.

Lemma search_hit (r : regex) idx (s : jsstring) m :
  match_at r idx s = Some m -> search r idx s = Some ([], m).
Proof. intros H. destruct s; cbn [search]; now rewrite H. Qed.

(** The header pattern on a file with a package clause, any text before
    it, and the import clauses after it. *)
Lemma header_match (pre : jsstring) (pkg : clause) (imports : list clause)
    (body : jsstring) :
  clause_ok pkg = true -> forallb clause_ok imports = true ->
  trimStart body = body -> starts_import_clause body = false ->
  occurs (str "package")
    (c_name pkg ++ str ";" ++ c_end pkg ++ imports_text imports ++ body)
  = false ->
  exists n,
    rmatch packageAndImportsRegex 1
      (MState 0 (pre ++ clause_text (str "package") pkg
                 ++ imports_text imports ++ body) []) Some
    = Some (MState n body []).
Proof.
  intros Hpkg Himp Hbody Hnone Hocc.
  exists (0 + length pre + length (str "package")
          + length (c_gap pkg ++ c_name pkg ++ str ";" ++ c_end pkg)
          + length (imports_text imports))%nat.
  rewrite header_rmatch.
  assert (Hval :
    (fun st => match_text (str "package") st
                 (fun st0 => rmatch headerTailRegex 1 st0 Some))
      (MState (0 + length pre)
         (clause_text (str "package") pkg ++ imports_text imports ++ body) [])
    = Some (MState (0 + length pre + length (str "package")
                    + length (c_gap pkg ++ c_name pkg ++ str ";"
                              ++ c_end pkg)
                    + length (imports_text imports)) body [])).
  { cbn beta. unfold clause_text. rewrite <- !app_assoc.
    unfold match_text. cbn [ms_rest]. rewrite is_prefix_app.
    unfold advance. cbn [ms_rest ms_idx ms_caps]. rewrite skipn_length_app.
    match goal with
    | |- rmatch headerTailRegex 1 ?st Some = _ =>
        change (rmatch headerTailRegex 1 st Some)
          with (rmatch (Plus ws) 1 st
                  (fun st2 =>
                     rmatch (Plus nonws) 1 st2
                       (fun st3 =>
                          match_text (str ";") st3
                            (fun st4 =>
                               rmatch (Star ws) 1 st4
                                 (fun st5 =>
                                    rmatch (Star importClauseRegex) 1 st5
                                      Some)))))
    end.
    assert (Hloop :
      rmatch (Star importClauseRegex) 1
        (MState (0 + length pre + length (str "package")
                 + length (c_gap pkg ++ c_name pkg ++ str ";" ++ c_end pkg))
           (imports_text imports ++ body) []) Some
      = Some (MState (0 + length pre + length (str "package")
                      + length (c_gap pkg ++ c_name pkg ++ str ";"
                                ++ c_end pkg)
                      + length (imports_text imports)) body [])).
    { cbn [rmatch ms_rest].
      apply (imports_eval body Hbody Hnone imports); [exact Himp|].
      rewrite length_app. pose proof (imports_text_length imports). lia. }
    rewrite clause_eval.
    - exact Hloop.
    - exact Hpkg.
    - now apply imports_text_head.
    - rewrite Hloop. now eexists. }
  rewrite star_class_pick.
  - exact Hval.
  - apply forallb_any_unit.
  - rewrite Hval. now eexists.
  - intros a' b' E Hne _. unfold match_text. cbn [ms_rest].
    replace (is_prefix (str "package") b') with false; [reflexivity|].
    symmetry. destruct a' as [|x a']; [easy|].
    apply (occurs_suffix (str "package") a' b').
    unfold clause_text in E. rewrite <- !app_assoc in E.
    assert (E' : str "ackage" ++ c_gap pkg ++ c_name pkg ++ str ";"
                 ++ c_end pkg ++ imports_text imports ++ body = a' ++ b').
    { apply (cons_app_inv 112 x). exact E. }
    rewrite <- E'.
    change (str "package") with (112 :: str "ackage") in *.
    rewrite app_assoc. rewrite occurs_skip; [exact Hocc|].
    rewrite forallb_app. apply andb_true_iff. split; [reflexivity|].
    apply whitespace_not_p. now apply clause_ok_gap.
Qed.

(** X20: of a file made of any text, a package clause, import clauses and
    a body that begins with neither white space nor another import
    clause, [cleanForComparison] gives the stripper the body alone: the
    text before the package clause, a licence comment say, goes with the
    header.  The word [package] must not occur again after the keyword of
    the clause. *)
Theorem header_removed (strip : jsstring -> jsstring) (pre : jsstring)
    (pkg : clause) (imports : list clause) (body : jsstring) :
  clause_ok pkg = true -> forallb clause_ok imports = true ->
  trimStart body = body -> starts_import_clause body = false ->
  occurs (str "package")
    (c_name pkg ++ str ";" ++ c_end pkg ++ imports_text imports ++ body)
  = false ->
  cleanForComparison strip
    (pre ++ clause_text (str "package") pkg ++ imports_text imports ++ body)
  = strip body.
Proof.
  intros Hpkg Himp Hbody Hnone Hocc.
  destruct (header_match pre pkg imports body Hpkg Himp Hbody Hnone Hocc)
    as [n Hn].
  unfold cleanForComparison, replace_first.
  rewrite (search_hit packageAndImportsRegex 0 _
             (MatchResult
                (firstn (n - 0)
                   (pre ++ clause_text (str "package") pkg
                    ++ imports_text imports ++ body))
                [] body n)).
  - reflexivity.
  - unfold match_at. rewrite Hn. reflexivity.
Qed.

Lemma header_removed_witness :
  cleanForComparison (fun t => t)
    (str "/* licence */" ++ [10] ++ str "package com.sun.media.sound;"
     ++ [10; 10] ++ str "import java.io.File;" ++ [10]
     ++ str "import  javax.sound.midi.Track;" ++ [13; 10; 10]
     ++ str "import static java.lang.Math.abs;" ++ [10]
     ++ str "class A {}")
  = str "import static java.lang.Math.abs;" ++ [10] ++ str "class A {}".
Proof.
  apply (header_removed (fun t => t) (str "/* licence */" ++ [10])
           (Clause (str " ") (str "com.sun.media.sound") [10; 10])
           [Clause (str " ") (str "java.io.File") [10];
            Clause (str "  ") (str "javax.sound.midi.Track") [13; 10; 10]]
           (str "import static java.lang.Math.abs;" ++ [10]
            ++ str "class A {}"));
    reflexivity.
Defined.

(** ** What the download walk covers *)

Lemma fetchFileAux_done_events (E : world)
    (directory filename : option jsstring) (makeCopies : bool)
    (w : wstate E) :
  let path := to_text directory ++ str "/" ++ to_text filename in
  outcome_of (fetchFileAux E directory filename makeCopies w) = Done tt ->
  exists content,
    In (EDownload path)
       (events_of (fetchFileAux E directory filename makeCopies w))
    /\ In (EWriteFile (originalTree ++ path) content)
          (events_of (fetchFileAux E directory filename makeCopies w)).
Proof.
  intros path. subst path.
  unfold fetchFileAux, bind, mkdir, writeFile, console_log,
    getFileContentsAsString, ret, outcome_of, events_of.
  destruct (fs_mkdir E _ w) as [[|] w1]; [|discriminate].
  destruct (http_get E _ w1) as [[data|] w2]; [|discriminate].
  destruct (fs_writeFile E _ data w2) as [[|] w3]; [|discriminate].
  intros _. exists data.
  destruct makeCopies.
  - destruct (createFileCopies E directory filename data w3) as [[r w4] ev].
    simpl. split; [tauto|]. do 4 right. now left.
  - simpl. tauto.
Qed.

(** X21: when the walk of a directory returns, every file of its listing
    that is not in the exclusion set has been requested from the server
    and written to the mirror under the same path. *)
Theorem walk_downloads_every_listed_file (E : world)
    (skipclasses : gset (list N)) (fuel : nat) (directory : jsstring)
    (makeCopies : bool) (w w1 : wstate E) (doc : jsstring)
    (entries : list ListingEntry) (e : ListingEntry) :
  http_get E directory w = (Some doc, w1) ->
  parseListing doc = Done entries ->
  outcome_of (fetchDirectoryAux E skipclasses (S fuel) directory makeCopies w)
  = Done tt ->
  In e entries -> isDirectory e = false ->
  directory ++ str "/" ++ name e ∉ skipclasses ->
  exists content,
    incl [EDownload (directory ++ str "/" ++ name e);
          EWriteFile (originalTree ++ directory ++ str "/" ++ name e) content]
         (events_of (fetchDirectoryAux E skipclasses (S fuel) directory
                       makeCopies w)).
Proof.
  intros Hget Hparse Hdone Hin Hfile Hskip.
  cbn [fetchDirectoryAux] in *.
  unfold bind at 1 in Hdone. unfold bind at 1.
  assert (Hl : getFileListing E directory w
               = (Done entries, w1, [EListing directory])).
  { unfold getFileListing, bind, getFileContentsAsString, lift_outcome.
    rewrite Hget, Hparse. reflexivity. }
  rewrite Hl in *.
  destruct (for_each entries _ w1) as [[r w2] ev2] eqn:El.
  unfold outcome_of, events_of in *. simpl in Hdone. simpl.
  pose proof (for_each_done_in entries
                (fetchEntry E skipclasses
                   (fetchDirectoryAux E skipclasses fuel) directory
                   makeCopies) w1) as Hfe.
  rewrite El in Hfe. specialize (Hfe Hdone e Hin).
  destruct Hfe as (wa & Hd & Hi).
  unfold fetchEntry in Hd, Hi. rewrite Hfile in Hd, Hi.
  rewrite bool_decide_eq_false_2 in Hd, Hi by exact Hskip.
  cbn [negb] in Hd, Hi.
  destruct (fetchFileAux_done_events E (Some directory) (Some (name e))
              makeCopies wa Hd) as (content & H1 & H2).
  cbn [to_text] in H1, H2. exists content.
  intros x [<-|[<-|[]]]; right; apply Hi; assumption.
Qed.

Lemma walk_downloads_every_listed_file_witness :
  exists content,
    incl [EDownload (str "com/sun/media/sound/midi" ++ str "/"
                     ++ str "Note.java");
          EWriteFile (originalTree ++ str "com/sun/media/sound/midi"
                      ++ str "/" ++ str "Note.java") content]
         (events_of (fetchDirectoryAux scenario_world scenario_skip 1
                       (str "com/sun/media/sound/midi") false empty_disk)).
Proof.
  refine (walk_downloads_every_listed_file scenario_world scenario_skip 0
            (str "com/sun/media/sound/midi") false empty_disk empty_disk
            (str "-rw-r--r-- 5 Note.java" ++ [10])
            [Entry false (str "Note.java")] (Entry false (str "Note.java"))
            _ _ _ _ _ _).
  - reflexivity.
  - reflexivity.
  - vm_compute. reflexivity.
  - left. reflexivity.
  - reflexivity.
  - intros H. apply elem_of_singleton in H. discriminate H.
Defined.

(** ** The two passes together *)

Lemma gervill_local_brace (x y : jsstring) :
  local_in gervillRegex x (123 :: y).
Proof.
  intros x1 x2 _ Hx2. rewrite !gervill_match_at.
  apply shape_match_seam; [exact Hx2|].
  repeat constructor; simpl; intros H;
    repeat (destruct H as [H|H]; [discriminate H|]); exact H.
Qed.

Lemma quiet_no_jc (a : jsstring) :
  forallb quiet_char a = true ->
  forallb (fun c => negb (c =? 106) && negb (c =? 99)) a = true.
Proof.
  induction a as [|c a IH]; [reflexivity|]. cbn [forallb]. intros H.
  apply andb_true_iff in H as [Hc H]. rewrite (IH H), andb_true_r.
  unfold quiet_char in Hc. apply andb_true_iff in Hc as [Hc H3].
  apply andb_true_iff in Hc as [_ H2]. now rewrite H2, H3.
Qed.

Lemma quiet_not_brace (a : jsstring) :
  forallb quiet_char a = true -> forallb not_brace a = true.
Proof.
  induction a as [|c a IH]; [reflexivity|]. cbn [forallb]. intros H.
  apply andb_true_iff in H as [Hc H]. rewrite (IH H), andb_true_r.
  unfold quiet_char in Hc. apply andb_true_iff in Hc as [Hc _].
  now apply andb_true_iff in Hc as [Hc _].
Qed.

(** X22: the package pass runs before the doc-tag pass, so a package name
    inside a link tag is given the prefix and then the tag is replaced by
    its inner text, prefix included; the text before and the text after
    the tag go through both passes on their own. *)
Theorem link_tag_with_package (pkg sep a b pre post : jsstring) :
  In pkg packages -> In sep separators ->
  forallb quiet_char a = true -> forallb quiet_char b = true ->
  newFileContent (pre ++ str "{@link" ++ a ++ dotted sep pkg ++ b
                  ++ str "}" ++ post)
  = newFileContent pre
    ++ (a ++ (str "gervill" ++ sep ++ dotted sep pkg) ++ b)
    ++ newFileContent post.
Proof.
  intros Hp Hs Ha Hb. unfold newFileContent.
  assert (Hpass :
    packagePass (pre ++ str "{@link" ++ a ++ dotted sep pkg ++ b
                 ++ str "}" ++ post)
    = packagePass pre ++ str "{@link"
      ++ (a ++ (str "gervill" ++ sep ++ dotted sep pkg) ++ b)
      ++ str "}" ++ packagePass post).
  { replace (pre ++ str "{@link" ++ a ++ dotted sep pkg ++ b
             ++ str "}" ++ post)
      with ((pre ++ str "{@link" ++ a) ++ dotted sep pkg
            ++ ((b ++ str "}") ++ post))
      by (rewrite <- !app_assoc; reflexivity).
    rewrite (packagePass_shape pkg sep _ _ Hp Hs).
    rewrite (packagePass_skip (b ++ str "}") post).
    2:{ rewrite forallb_app, (quiet_no_jc b Hb). reflexivity. }
    change (str "{@link" ++ a) with (123 :: (str "@link" ++ a)).
    rewrite (packagePass_app pre) by apply gervill_local_brace.
    change (123 :: (str "@link" ++ a)) with (str "{@link" ++ a).
    rewrite <- (app_nil_r (str "{@link" ++ a)) at 1.
    rewrite (packagePass_skip (str "{@link" ++ a) []).
    2:{ rewrite forallb_app, (quiet_no_jc a Ha). reflexivity. }
    rewrite packagePass_nil, app_nil_r, <- !app_assoc. reflexivity. }
  rewrite Hpass. apply docTagPass_link.
  - destruct (gervill_text_plain pkg sep Hp Hs) as (g & -> & _).
    destruct a; discriminate.
  - destruct (gervill_text_plain pkg sep Hp Hs) as (g & -> & Hg).
    rewrite !forallb_app, (quiet_not_brace a Ha), (quiet_not_brace b Hb).
    now rewrite (forallb_plain_not_brace _ Hg).
Qed.

Lemma link_tag_with_package_witness :
  newFileContent (str "/** See {@link javax.sound.midi.MidiEvent}. */")
  = str "/** See  gervill.javax.sound.midi.MidiEvent. */".
Proof.
  refine (link_tag_with_package (str "javax.sound") (str ".") (str " ")
            (str ".midi.MidiEvent") (str "/** See ") (str ". */")
            _ _ _ _).
  - left. reflexivity.
  - left. reflexivity.
  - reflexivity.
  - reflexivity.
Defined.

(** ** C9: the download phase on a file system that resolves dot segments *)

Lemma split_on_from_app (sep : N) (a b : jsstring) :
  forall cur,
    split_on_from sep cur (a ++ sep :: b)
    = split_on_from sep cur a ++ split_on_from sep [] b.
Proof.
  induction a as [|c a IH]; intros cur.
  - cbn [app split_on_from]. now rewrite N.eqb_refl.
  - cbn [app split_on_from]. destruct (c =? sep).
    + now rewrite IH.
    + apply IH.
Qed.

Lemma segments_slash (a b : jsstring) :
  segments (a ++ str "/" ++ b) = segments a ++ segments b.
Proof.
  unfold segments, split_on. change (str "/" ++ b) with (47 :: b).
  now rewrite split_on_from_app, List.filter_app.
Qed.

Lemma dot_free_slash (a b : jsstring) :
  dot_free (a ++ str "/" ++ b) = dot_free a && dot_free b.
Proof. unfold dot_free. now rewrite segments_slash, forallb_app. Qed.

Lemma plain_segment_spec (n : jsstring) :
  plain_segment n = true -> jseq n dot = false /\ jseq n dotdot = false.
Proof.
  unfold plain_segment. intros H. apply andb_true_iff in H as [H1 H2].
  now apply negb_true_iff in H1, H2.
Qed.

Lemma only_mirror_changed_refl (d : disk) : only_mirror_changed d d.
Proof. intros q _. split; reflexivity. Qed.

Lemma only_mirror_changed_trans (d1 d2 d3 : disk) :
  only_mirror_changed d1 d2 -> only_mirror_changed d2 d3 ->
  only_mirror_changed d1 d3.
Proof.
  intros H1 H2 q Hq. destruct (H1 q Hq) as [A1 B1].
  destruct (H2 q Hq) as [A2 B2].
  split; [congruence|]. intros Hne. rewrite (B2 Hne). now apply B1.
Qed.

Lemma only_mirror_changed_derived (d d' : disk) :
  only_mirror_changed d d' -> derived_unchanged d d'.
Proof.
  intros H. repeat split; apply H; discriminate.
Qed.

Lemma mirror_key (p q : list jsstring) :
  hd_error p = Some (str "original") ->
  hd_error q <> Some (str "original") -> p <> q.
Proof. intros Hp Hq ->. now apply Hq. Qed.

Lemma mirror_parent_key (cur segs q : list jsstring) :
  hd_error (cur ++ segs) = Some (str "original") ->
  hd_error q <> Some (str "original") -> q <> [] -> cur <> q.
Proof.
  intros Hp Hq Hne ->. destruct q as [|c q]; [easy|]. now apply Hq.
Qed.

Lemma hd_error_app_one {A} (cur : list A) n segs :
  hd_error (cur ++ [n]) = hd_error (cur ++ n :: segs).
Proof. now destruct cur. Qed.

Lemma posix_mkdir_from_mirror (segs : list jsstring) :
  forall cur d d',
    forallb plain_segment segs = true ->
    hd_error (cur ++ segs) = Some (str "original") ->
    posix_mkdir_from cur segs d = Some d' ->
    only_mirror_changed d d'.
Proof.
  induction segs as [|n segs IH]; intros cur d d' Hp Hcur H.
  - injection H as <-. apply only_mirror_changed_refl.
  - cbn [forallb] in Hp. apply andb_true_iff in Hp as [Hn Hp].
    apply plain_segment_spec in Hn as [H1 H2].
    cbn [posix_mkdir_from] in H. rewrite H1, H2 in H.
    destruct (d_files d !! (cur ++ [n])); [discriminate|].
    apply IH in H; [|exact Hp | now rewrite <- app_assoc].
    eapply only_mirror_changed_trans; [|exact H].
    destruct (is_dir d (cur ++ [n])); [apply only_mirror_changed_refl|].
    intros q Hq. cbn [d_files d_dirs]. split; [reflexivity|]. intros Hne.
    unfold add_entry.
    rewrite lookup_insert_ne
      by (apply mirror_key; [|exact Hq];
          now rewrite (hd_error_app_one cur n segs)).
    rewrite lookup_insert_ne
      by (now apply (mirror_parent_key cur (n :: segs))).
    reflexivity.
Qed.

Lemma walk_dirs_plain (d : disk) (segs : list jsstring) :
  forall cur cur',
    forallb plain_segment segs = true ->
    walk_dirs d cur segs = Some cur' -> cur' = cur ++ segs.
Proof.
  induction segs as [|n segs IH]; intros cur cur' Hp H.
  - injection H as <-. now rewrite app_nil_r.
  - cbn [forallb] in Hp. apply andb_true_iff in Hp as [Hn Hp].
    apply plain_segment_spec in Hn as [H1 H2].
    cbn [walk_dirs] in H. rewrite H1, H2 in H.
    destruct (is_dir d (cur ++ [n])); [|discriminate].
    apply IH in H; [|exact Hp]. now rewrite H, <- app_assoc.
Qed.

Lemma posix_writeFile_mirror (segs : list jsstring) content d d' :
  forallb plain_segment segs = true ->
  hd_error segs = Some (str "original") ->
  posix_writeFile segs content d = Some d' ->
  only_mirror_changed d d'.
Proof.
  intros Hp Hhd H. unfold posix_writeFile in H.
  destruct (rev segs) as [|n rinit] eqn:Er; [discriminate|].
  assert (Es : segs = rev rinit ++ [n]).
  { rewrite <- (rev_involutive segs), Er. reflexivity. }
  rewrite Es, forallb_app in Hp. apply andb_true_iff in Hp as [Hi Hn].
  destruct (walk_dirs d [] (rev rinit)) as [cur|] eqn:Ew; [|discriminate].
  apply walk_dirs_plain in Ew; [|exact Hi]. cbn [app] in Ew. subst cur.
  destruct (jseq n dot || jseq n dotdot || is_dir d (rev rinit ++ [n]));
    [discriminate|].
  injection H as <-. rewrite Es in Hhd.
  intros q Hq. cbn [d_files d_dirs]. split.
  - rewrite lookup_insert_ne by now apply mirror_key. reflexivity.
  - intros Hne. destruct (bool_decide _); [reflexivity|]. unfold add_entry.
    rewrite lookup_insert_ne
      by (now apply (mirror_parent_key (rev rinit) [n])).
    reflexivity.
Qed.

Section PosixDownload.
Variable remote : jsstring -> option jsstring.
Variable stripper : jsstring -> jsstring.
Variable skipclasses : gset (list N).

Local Abbreviation P := (posix_world remote stripper).

(** A routine that changes nothing but the mirror, whatever its
    outcome. *)
Local Abbreviation keeps m :=
  (forall d r d' ev, m d = (r, d', ev) -> only_mirror_changed d d').

Lemma keeps_ret {A} (a : A) : keeps (@ret disk A a).
Proof. intros d r d' ev [= <- <- <-]. apply only_mirror_changed_refl. Qed.

Lemma keeps_bind {A B} (m : M disk A) (k : A -> M disk B) :
  keeps m -> (forall a, keeps (k a)) -> keeps (bind m k).
Proof.
  intros Hm Hk d r d' ev. unfold bind.
  destruct (m d) as [[[a|e|] d1] ev1] eqn:E1.
  - destruct (k a d1) as [[r2 d2] ev2] eqn:E2. intros [= <- <- <-].
    eapply only_mirror_changed_trans; [exact (Hm _ _ _ _ E1)|].
    exact (Hk a _ _ _ _ E2).
  - intros [= <- <- <-]. exact (Hm _ _ _ _ E1).
  - intros [= <- <- <-]. exact (Hm _ _ _ _ E1).
Qed.

Lemma keeps_for_each {A} (l : list A) (body : A -> M disk unit) :
  (forall a, In a l -> keeps (body a)) -> keeps (for_each l body).
Proof.
  induction l as [|a l IH]; intros H; cbn [for_each].
  - apply keeps_ret.
  - apply keeps_bind; [apply H; now left|].
    intros _. apply IH. intros b Hb. apply H. now right.
Qed.

Lemma keeps_mkdir (x : jsstring) :
  dot_free x = true -> keeps (mkdir P (originalTree ++ x)).
Proof.
  intros Hp d r d' ev. unfold mkdir. cbn [fs_mkdir posix_world].
  rewrite segments_originalTree.
  destruct (posix_mkdir_from [] (str "original" :: segments x) d)
    as [d1|] eqn:E.
  - intros [= <- <- <-].
    apply (posix_mkdir_from_mirror (str "original" :: segments x) [] d d1);
      [|reflexivity | exact E].
    cbn [forallb]. exact Hp.
  - intros [= <- <- <-]. apply only_mirror_changed_refl.
Qed.

Lemma keeps_writeFile (x content : jsstring) :
  dot_free x = true -> keeps (writeFile P (originalTree ++ x) content).
Proof.
  intros Hp d r d' ev. unfold writeFile. cbn [fs_writeFile posix_world].
  rewrite segments_originalTree.
  destruct (posix_writeFile (str "original" :: segments x) content d)
    as [d1|] eqn:E.
  - intros [= <- <- <-].
    apply (posix_writeFile_mirror (str "original" :: segments x) content d
             d1); [|reflexivity | exact E].
    cbn [forallb]. exact Hp.
  - intros [= <- <- <-]. apply only_mirror_changed_refl.
Qed.

Lemma keeps_request kind (path : jsstring) :
  keeps (getFileContentsAsString P kind path).
Proof.
  intros d r d' ev. unfold getFileContentsAsString.
  cbn [http_get posix_world].
  destruct (remote path); intros [= <- <- <-];
    apply only_mirror_changed_refl.
Qed.

Lemma keeps_log (message : jsstring) : keeps (console_log P message).
Proof. intros d r d' ev [= <- <- <-]. apply only_mirror_changed_refl. Qed.

Lemma keeps_fetchFileAux (directory fname : jsstring) :
  dot_free directory = true -> dot_free fname = true ->
  keeps (fetchFileAux P (Some directory) (Some fname) false).
Proof.
  intros Hd Hn. unfold fetchFileAux. cbn [to_text].
  apply keeps_bind; [now apply keeps_mkdir|].
  intros _. apply keeps_bind; [apply keeps_log|].
  intros _. apply keeps_bind; [apply keeps_request|].
  intros content. apply keeps_bind; [apply keeps_log|].
  intros _. apply keeps_bind; [|intros _; apply keeps_ret].
  apply keeps_writeFile. now rewrite dot_free_slash, Hd, Hn.
Qed.

Lemma keeps_fetchDirectoryAux :
  forall fuel directory,
    dot_free directory = true ->
    listings_dot_free remote fuel directory = true ->
    keeps (fetchDirectoryAux P skipclasses fuel directory false).
Proof.
  induction fuel as [|fuel IH]; intros directory Hd Hl d r d' ev.
  - intros [= <- <- <-]. apply only_mirror_changed_refl.
  - cbn [fetchDirectoryAux listings_dot_free] in *.
    unfold bind at 1, getFileListing, bind, getFileContentsAsString,
      lift_outcome.
    cbn [http_get posix_world].
    destruct (remote directory) as [doc|];
      [|intros [= <- <- <-]; apply only_mirror_changed_refl].
    destruct (parseListing doc) as [entries|e|];
      [|intros [= <- <- <-]; apply only_mirror_changed_refl
       |intros [= <- <- <-]; apply only_mirror_changed_refl].
    destruct (for_each entries _ d) as [[r2 d2] ev2] eqn:E.
    intros [= <- <- <-].
    refine (keeps_for_each entries _ _ _ _ _ _ E).
    intros entry Hin. rewrite forallb_forall in Hl.
    specialize (Hl entry Hin). apply andb_true_iff in Hl as [Hn Hsub].
    unfold fetchEntry. destruct (isDirectory entry).
    + apply IH; [|exact Hsub]. now rewrite dot_free_slash, Hd, Hn.
    + destruct (negb _); [|apply keeps_ret].
      now apply keeps_fetchFileAux.
Qed.

Lemma keeps_fetchDirectory fuel (root : jsstring) :
  ends_with_slash root = false -> dot_free root = true ->
  listings_dot_free remote fuel root = true ->
  keeps (fetchDirectory P skipclasses fuel root false).
Proof.
  intros Hs Hd Hl. unfold fetchDirectory, replace_first.
  rewrite (search_no_trailingSlash root 0 Hs).
  now apply keeps_fetchDirectoryAux.
Qed.

Lemma keeps_download fuel :
  listings_dot_free remote fuel (str "javax/sound/midi") = true ->
  listings_dot_free remote fuel (str "javax/sound/sampled") = true ->
  listings_dot_free remote fuel (str "com/sun/media/sound") = true ->
  keeps (main P skipclasses fuel (Some (str "-d"))).
Proof.
  intros H1 H2 H3. unfold main.
  replace (jseq (str "-d") (str "-d")) with true by reflexivity.
  apply keeps_bind; [now apply keeps_fetchDirectory|].
  intros _. apply keeps_bind; [now apply keeps_fetchDirectory|].
  intros _. now apply keeps_fetchDirectory.
Qed.

End PosixDownload.

(** C9, as the script has it.  Under the flag [-d] each of the three
    walks runs with copy generation off.  Whatever the server and the file
    system do, every directory made and every file written has a path that
    begins with [original/], none has a path that begins with the prefix
    of a derived tree, and nothing is read.  On a file system that
    resolves dot segments, when no name in the listings the walks reach
    has a [.] or [..] segment, nothing outside [original] changes, so the
    three derived trees are as they were. *)
Theorem download_flag_writes_mirror_only
    (remote : jsstring -> option jsstring) (stripper : jsstring -> jsstring)
    (skipclasses : gset (list N)) (fuel : nat) (d : disk) :
  (forall (E : world) (w : wstate E),
      Forall mirror_only
        (events_of (main E skipclasses fuel (Some (str "-d")) w)))
  /\ (listings_dot_free remote fuel (str "javax/sound/midi") = true ->
      listings_dot_free remote fuel (str "javax/sound/sampled") = true ->
      listings_dot_free remote fuel (str "com/sun/media/sound") = true ->
      let d' := state_of (main (posix_world remote stripper) skipclasses fuel
                            (Some (str "-d")) d) in
      only_mirror_changed d d' /\ derived_unchanged d d').
Proof.
  split.
  - intros E w. apply download_flag_paths.
  - intros H1 H2 H3 d'.
    assert (H : only_mirror_changed d d').
    { subst d'.
      destruct (main (posix_world remote stripper) skipclasses fuel
                  (Some (str "-d")) d) as [[r d1] ev] eqn:E.
      exact (keeps_download remote stripper skipclasses fuel H1 H2 H3
               _ _ _ _ E). }
    split; [exact H | now apply only_mirror_changed_derived].
Qed.

Lemma download_flag_writes_mirror_only_witness :
  let d' := state_of (main (posix_world scenario_remote (fun t => t))
                        scenario_skip 3 (Some (str "-d")) derived_disk) in
  (only_mirror_changed derived_disk d' /\ derived_unchanged derived_disk d')
  /\ d_files d' !! segments (str "original/com/sun/media/sound/Good.java")
     = Some (str "package com.sun.media.sound;" ++ [10]
             ++ str "import javax.sound.midi.Note;" ++ [10]
             ++ str "class A {}" ++ [10]).
Proof.
  split.
  - apply (proj2 (download_flag_writes_mirror_only scenario_remote
                    (fun t => t) scenario_skip 3 derived_disk));
      vm_compute; reflexivity.
  - vm_compute. reflexivity.
Defined.

(** C9 as stated fails on a listing that names a file by a path with
    [..] segments: the path handed to the file system begins with
    [original/], and the file system resolves it into the renamed tree,
    where the file that was there is overwritten. *)
Lemma download_flag_escapes_counterexample :
  let r := main (posix_world evil_remote (fun t => t)) scenario_skip 2
             (Some (str "-d")) derived_disk in
  outcome_of r = Done tt
  /\ In (EWriteFile
           (str "original/javax/sound/midi/../../../../../gervill-control/output/src/gervill/Evil.java")
           (str "class Evil { int changed; }"))
        (events_of r)
  /\ d_files derived_disk !! segments (renamedTree ++ str "Evil.java")
     = Some (str "class Evil {}")
  /\ d_files (state_of r) !! segments (renamedTree ++ str "Evil.java")
     = Some (str "class Evil { int changed; }")
  /\ ~ derived_unchanged derived_disk (state_of r).
Proof.
  split; [vm_compute; reflexivity|].
  split; [vm_compute; tauto|].
  split; [vm_compute; reflexivity|].
  split; [vm_compute; reflexivity|].
  intros [H _]. specialize (H [str "Evil.java"]). destruct H as [H _].
  vm_compute in H. discriminate H.
Qed.

(** ** The pattern text of the package pass *)

Lemma alt_ok_end : alt_ok [] [] [].
Proof. intros f Hf. destruct f as [|f]; [simpl in Hf; lia|]. reflexivity. Qed.

Lemma alt_ok_bar (s : jsstring) : alt_ok (124 :: s) [] (124 :: s).
Proof. intros f Hf. destruct f as [|f]; [simpl in Hf; lia|]. reflexivity. Qed.

Lemma alt_ok_close (s : jsstring) : alt_ok (41 :: s) [] (41 :: s).
Proof. intros f Hf. destruct f as [|f]; [simpl in Hf; lia|]. reflexivity. Qed.

Lemma word_char_literal c :
  is_word_char c = true ->
  (c =? 124) || (c =? 41) = false /\ (c =? 40) = false /\ (c =? 92) = false
  /\ is_syntax_char c = false.
Proof.
  intros H. unfold is_syntax_char.
  let l := eval vm_compute in (str "^$\.*+?()[]{}|") in
  change (str "^$\.*+?()[]{}|") with l.
  cbn [existsb].
  repeat match goal with
         | |- context [N.eqb c ?k] =>
             destruct (N.eqb_spec c k) as [->|_]; [discriminate H|]
         end.
  repeat split.
Qed.

Lemma alt_ok_char c (s : jsstring) atoms rest :
  is_word_char c = true -> alt_ok s atoms rest ->
  alt_ok (c :: s) (AChar c :: atoms) rest.
Proof.
  intros Hc Hs f Hf. destruct f as [|f]; [simpl in Hf; lia|].
  destruct (word_char_literal c Hc) as (H1 & H2 & H3 & H4).
  cbn [parse_alternative]. rewrite H1, H2, H3, H4.
  rewrite Hs by (simpl in Hf; lia). reflexivity.
Qed.

Lemma alt_ok_word (w s : jsstring) atoms rest :
  forallb is_word_char w = true -> alt_ok s atoms rest ->
  alt_ok (w ++ s) (map AChar w ++ atoms) rest.
Proof.
  induction w as [|c w IH]; intros Hw Hs; [exact Hs|].
  cbn [forallb] in Hw. apply andb_true_iff in Hw as [Hc Hw].
  cbn [app map]. apply alt_ok_char; [exact Hc|]. now apply IH.
Qed.

Lemma uint_units_digits (d : Decimal.uint) :
  forallb is_digit (uint_units d) = true.
Proof. induction d; simpl; try rewrite IHd; reflexivity. Qed.

Lemma units_uint_units (d : Decimal.uint) : units_uint (uint_units d) = d.
Proof. induction d; simpl; try rewrite IHd; reflexivity. Qed.

Lemma digits_value_decimal (n : nat) : digits_value (decimal n) = n.
Proof.
  unfold digits_value, decimal. rewrite units_uint_units.
  apply DecimalNat.Unsigned.of_to.
Qed.

Lemma decimal_head (n : nat) :
  (1 <= n)%nat ->
  exists e ds, decimal n = e :: ds /\ is_digit e = true /\ (e =? 48) = false.
Proof.
  intros Hn. unfold decimal.
  pose proof (DecimalNat.Unsigned.to_of (Nat.to_uint n)) as H.
  rewrite DecimalNat.Unsigned.of_to in H.
  assert (Hz : Nat.to_uint n <> Decimal.zero).
  { intros E. pose proof (DecimalNat.Unsigned.of_to n) as Ho.
    rewrite E in Ho. change (0%nat = n) in Ho. lia. }
  unfold Decimal.unorm in H.
  pose proof (DecimalFacts.nzhead_nonzero (Nat.to_uint n)) as Hnz.
  destruct (Decimal.nzhead (Nat.to_uint n)) as [|u|u|u|u|u|u|u|u|u|u] eqn:E.
  - exfalso. now apply Hz.
  - exfalso. now apply (Hnz u).
  - rewrite H. simpl. eexists _, _. repeat split.
  - rewrite H. simpl. eexists _, _. repeat split.
  - rewrite H. simpl. eexists _, _. repeat split.
  - rewrite H. simpl. eexists _, _. repeat split.
  - rewrite H. simpl. eexists _, _. repeat split.
  - rewrite H. simpl. eexists _, _. repeat split.
  - rewrite H. simpl. eexists _, _. repeat split.
  - rewrite H. simpl. eexists _, _. repeat split.
  - rewrite H. simpl. eexists _, _. repeat split.
Qed.

Ltac eval_eqb :=
  repeat match goal with
         | |- context [N.eqb ?a ?b] =>
             lazymatch a with
             | N0 => idtac | Npos _ => idtac
             end;
             lazymatch b with
             | N0 => idtac | Npos _ => idtac
             end;
             let v := eval vm_compute in (N.eqb a b) in
             change (N.eqb a b) with v
         end.

Lemma alt_ok_backref (n : nat) (s : jsstring) atoms rest :
  (1 <= n)%nat ->
  (forall c t, s = c :: t -> is_digit c = false) ->
  alt_ok s atoms rest ->
  alt_ok (92 :: decimal n ++ s) (ABackref n :: atoms) rest.
Proof.
  intros Hn Hs Hok f Hf. destruct f as [|f]; [simpl in Hf; lia|].
  destruct (decimal_head n Hn) as (e & ds & E & He & Hz).
  destruct (take_while_all is_digit (decimal n) s (uint_units_digits _) Hs)
    as [Ht Hd].
  assert (Hl : (2 * length s + 1 <= f)%nat).
  { cbn [length] in Hf. rewrite length_app in Hf. lia. }
  generalize (decimal n) E Ht Hd (digits_value_decimal n).
  intros dn -> Ht' Hd' Hv.
  cbn [app parse_alternative]. eval_eqb. cbn [orb]. rewrite He, Hz.
  change (e :: ds ++ s) with ((e :: ds) ++ s). rewrite Ht', Hd'.
  now rewrite (Hok f Hl), Hv.
Qed.

Lemma alt_ok_escape (e : N) (s : jsstring) atoms rest :
  is_digit e = false -> is_syntax_char e || (e =? 47) = true ->
  alt_ok s atoms rest ->
  alt_ok (92 :: e :: s) (AChar e :: atoms) rest.
Proof.
  intros Hd He Hok f Hf. destruct f as [|f]; [simpl in Hf; lia|].
  cbn [parse_alternative]. eval_eqb. cbn [orb]. rewrite Hd, He.
  rewrite Hok; [reflexivity|]. cbn [length] in Hf. lia.
Qed.

Lemma disj_ok_last (s : jsstring) atoms rest :
  alt_ok s atoms rest ->
  (forall t, rest <> 124 :: t) ->
  disj_ok s (assemble atoms) rest.
Proof.
  intros Hok Hr f Hf. destruct f as [|f]; [lia|].
  cbn [parse_disjunction]. rewrite Hok by lia.
  destruct rest as [|c rest]; [reflexivity|].
  destruct c as [|p]; [reflexivity|].
  do 7 (destruct p as [p|p|]; try reflexivity).
  exfalso. now apply (Hr rest).
Qed.

Lemma disj_ok_bar (s t : jsstring) atoms r rest :
  alt_ok s atoms (124 :: t) -> disj_ok t r rest ->
  (length t < length s)%nat ->
  disj_ok s (assemble atoms <|> r) rest.
Proof.
  intros Hok Ht Hl f Hf. destruct f as [|f]; [lia|].
  cbn [parse_disjunction]. rewrite Hok by lia.
  rewrite Ht by lia. reflexivity.
Qed.

Lemma alt_ok_group (s t : jsstring) r atoms rest :
  (forall u, s <> 63 :: u) ->
  disj_ok s r (41 :: t) -> alt_ok t atoms rest ->
  (length t < length s)%nat ->
  alt_ok (40 :: s) (AGroup r :: atoms) rest.
Proof.
  intros Hq Hs Ht Hl f Hf. destruct f as [|f]; [simpl in Hf; lia|].
  cbn [parse_alternative]. eval_eqb. cbn [orb].
  cbn [length] in Hf.
  rewrite Hs by lia. rewrite Ht by lia.
  destruct s as [|c s]; [reflexivity|].
  destruct c as [|p]; [reflexivity|].
  do 6 (destruct p as [p|p|]; try reflexivity).
  exfalso. now apply (Hq s).
Qed.

(** The separator pattern, read from its source text. *)
Lemma separator_group_ok (t : jsstring) :
  disj_ok (gervillSeparatorSource ++ 41 :: t) gervillSeparatorRegex (41 :: t).
Proof.
  let l := eval vm_compute in gervillSeparatorSource in
  change gervillSeparatorSource with l.
  change gervillSeparatorRegex
    with (assemble [AChar 46]
          <|> (assemble [AChar 47]
               <|> (assemble [AChar 92]
                    <|> assemble [AChar 92; AChar 92]))).
  cbn [app].
  eapply disj_ok_bar;
    [apply alt_ok_escape; [reflexivity | reflexivity | apply alt_ok_bar]
    | | simpl; lia].
  eapply disj_ok_bar;
    [apply alt_ok_escape; [reflexivity | reflexivity | apply alt_ok_bar]
    | | simpl; lia].
  eapply disj_ok_bar;
    [apply alt_ok_escape; [reflexivity | reflexivity | apply alt_ok_bar]
    | | simpl; lia].
  apply disj_ok_last; [|discriminate].
  apply alt_ok_escape; [reflexivity | reflexivity |].
  apply alt_ok_escape; [reflexivity | reflexivity |].
  apply alt_ok_close.
Qed.

Lemma is_identifier_spec (p : jsstring) :
  is_identifier p = true ->
  forallb is_word_char p = true
  /\ exists c t, p = c :: t /\ is_digit c = false.
Proof.
  unfold is_identifier. destruct p as [|c t]; [discriminate|].
  intros H. apply andb_true_iff in H as [Hc Hw].
  split; [exact Hw|]. exists c, t. split; [reflexivity|].
  now apply negb_true_iff in Hc.
Qed.

Lemma join_with_head (sep q : jsstring) (ps : list jsstring) :
  exists tl, join_with sep (q :: ps) = q ++ tl.
Proof.
  destruct ps as [|r ps]; [exists []; now rewrite app_nil_r|].
  now exists (sep ++ join_with sep (r :: ps)).
Qed.

Lemma alt_ok_rest (rest : jsstring) :
  rest = [] \/ (exists t, rest = 124 :: t) -> alt_ok rest [] rest.
Proof.
  intros [-> | [t ->]]; [apply alt_ok_end | apply alt_ok_bar].
Qed.

Lemma join_ok (id : nat) (rest : jsstring) :
  (1 <= id)%nat -> rest = [] \/ (exists t, rest = 124 :: t) ->
  forall params,
    params <> [] -> forallb is_identifier params = true ->
    alt_ok (join_with (92 :: decimal id) params ++ rest)
      (join_atoms id params) rest.
Proof.
  intros Hid Hrest. induction params as [|p params IH]; [easy|].
  intros _ Hp. cbn [forallb] in Hp. apply andb_true_iff in Hp as [Hp Hps].
  destruct (is_identifier_spec p Hp) as [Hw _].
  destruct params as [|q params].
  - cbn [join_with join_atoms]. rewrite <- (app_nil_r (map AChar p)).
    apply alt_ok_word; [exact Hw|]. now apply alt_ok_rest.
  - change (join_with (92 :: decimal id) (p :: q :: params))
      with (p ++ (92 :: decimal id)
            ++ join_with (92 :: decimal id) (q :: params)).
    change (join_atoms id (p :: q :: params))
      with (map AChar p ++ ABackref id :: join_atoms id (q :: params)).
    rewrite <- !app_assoc. apply alt_ok_word; [exact Hw|].
    cbn [app]. apply alt_ok_backref; [exact Hid | |].
    + cbn [forallb] in Hps. apply andb_true_iff in Hps as [Hq _].
      destruct (is_identifier_spec q Hq) as (_ & c & t & -> & Hc).
      destruct (join_with_head (92 :: decimal id) (c :: t) params)
        as [tl ->].
      intros c' t' [= <- _]. exact Hc.
    + apply IH; [discriminate | exact Hps].
Qed.

Lemma lits_word (w : jsstring) (atoms : list atom) :
  w <> [] ->
  (forall s rs, lits atoms <> Lit s :: rs) ->
  lits (map AChar w ++ atoms) = Lit w :: lits atoms.
Proof.
  intros Hw Ha. induction w as [|c w IH]; [easy|].
  destruct w as [|c' w].
  - cbn [map app lits].
    destruct (lits atoms) as [|r rs] eqn:E; [reflexivity|].
    destruct r; try reflexivity. exfalso. now apply (Ha s rs).
  - cbn [map app lits] in *. rewrite IH by discriminate. reflexivity.
Qed.

Lemma identifier_nonempty (p : jsstring) : is_identifier p = true -> p <> [].
Proof. now destruct p. Qed.

Lemma lits_join (id : nat) :
  forall params,
    params <> [] -> forallb is_identifier params = true ->
    seq_of (lits (join_atoms id params)) = join_backref id params
    /\ exists p rs, lits (join_atoms id params) = Lit p :: rs.
Proof.
  induction params as [|p params IH]; [easy|].
  intros _ Hp. cbn [forallb] in Hp. apply andb_true_iff in Hp as [Hp Hps].
  pose proof (identifier_nonempty p Hp) as Hne.
  destruct params as [|q params].
  - cbn [join_atoms join_backref]. rewrite <- (app_nil_r (map AChar p)).
    rewrite lits_word; [|exact Hne | intros s rs; discriminate].
    split; [reflexivity | now exists p, []].
  - change (join_atoms id (p :: q :: params))
      with (map AChar p ++ ABackref id :: join_atoms id (q :: params)).
    rewrite lits_word; [|exact Hne | intros s rs; discriminate].
    destruct (IH ltac:(discriminate) Hps) as (Hs & p' & rs & Hl).
    split; [|now eexists _, _].
    cbn [lits]. rewrite Hl in *. cbn [seq_of] in *.
    change (join_backref id (p :: q :: params))
      with (Lit p <.> Backref id <.> join_backref id (q :: params)).
    now rewrite <- Hs.
Qed.

Lemma source_ok (p : jsstring) (id : nat) (rest : jsstring) :
  (1 <= id)%nat ->
  forallb is_identifier (split_on 46 p) = true ->
  rest = [] \/ (exists t, rest = 124 :: t) ->
  exists atoms,
    alt_ok (fst (createGervillRegexSourceText p id) ++ rest) atoms rest
    /\ assemble atoms = fst (createGervillRegexSource p id)
    /\ snd (createGervillRegexSourceText p id)
       = snd (createGervillRegexSource p id).
Proof.
  intros Hid Hp Hrest.
  unfold createGervillRegexSourceText, createGervillRegexSource.
  destruct (split_on 46 p) as [|p1 [|q params]].
  - exists []. split; [now apply alt_ok_rest | now split].
  - cbn [forallb] in Hp. apply andb_true_iff in Hp as [Hp1 _].
    destruct (is_identifier_spec p1 Hp1) as [Hw _].
    exists (map AChar p1 ++ []). cbn [fst snd]. split; [|split].
    + apply alt_ok_word; [exact Hw | now apply alt_ok_rest].
    + unfold assemble.
      rewrite lits_word;
        [reflexivity | now apply identifier_nonempty
        | intros s rs; discriminate].
    + reflexivity.
  - cbn [forallb] in Hp. apply andb_true_iff in Hp as [Hp1 Hps].
    destruct (is_identifier_spec p1 Hp1) as [Hw _].
    exists (map AChar p1
            ++ AGroup gervillSeparatorRegex :: join_atoms id (q :: params)).
    cbn [fst snd]. split; [|split].
    + rewrite <- !app_assoc. apply alt_ok_word; [exact Hw|].
      change (str "(" ++ gervillSeparatorSource ++ str ")"
              ++ join_with (92 :: decimal id) (q :: params) ++ rest)
        with (40 :: (gervillSeparatorSource
                     ++ 41 :: (join_with (92 :: decimal id) (q :: params)
                               ++ rest))).
      eapply alt_ok_group.
      * intros u. discriminate.
      * apply separator_group_ok.
      * apply join_ok; [exact Hid | exact Hrest | discriminate | exact Hps].
      * rewrite !length_app. cbn [length]. rewrite ?length_app. lia.
    + unfold assemble.
      destruct (lits_join id (q :: params) ltac:(discriminate) Hps)
        as (Hs & p' & rs & Hl).
      rewrite lits_word;
        [| now apply identifier_nonempty | intros s rs'; discriminate].
      cbn [lits]. rewrite Hl in *. cbn [seq_of] in *. now rewrite Hs.
    + reflexivity.
Qed.

Lemma alternatives_ok :
  forall pkgs id,
    (1 <= id)%nat ->
    Forall (fun p => forallb is_identifier (split_on 46 p) = true) pkgs ->
    disj_ok (gervillSourceText pkgs id) (gervillAlternatives pkgs id) [].
Proof.
  induction pkgs as [|p pkgs IH]; intros id Hid Hp.
  - change (gervillAlternatives [] id) with (assemble []).
    apply disj_ok_last; [apply alt_ok_end | discriminate].
  - inversion Hp as [|p' pkgs' Hp1 Hps]; subst.
    destruct pkgs as [|q pkgs].
    + cbn [gervillSourceText gervillAlternatives].
      destruct (source_ok p id [] Hid Hp1 (or_introl eq_refl))
        as (atoms & Hok & Ha & _).
      rewrite app_nil_r in Hok. rewrite <- Ha.
      apply disj_ok_last; [exact Hok | discriminate].
    + change (gervillSourceText (p :: q :: pkgs) id)
        with (let (t, id') := createGervillRegexSourceText p id in
              t ++ str "|" ++ gervillSourceText (q :: pkgs) id').
      change (gervillAlternatives (p :: q :: pkgs) id)
        with (let (r, id') := createGervillRegexSource p id in
              r <|> gervillAlternatives (q :: pkgs) id').
      destruct (source_ok p id
                  (124 :: gervillSourceText (q :: pkgs)
                            (snd (createGervillRegexSourceText p id)))
                  Hid Hp1 (or_intror (ex_intro _ _ eq_refl)))
        as (atoms & Hok & Ha & Hid').
      assert (Hge : (1 <= snd (createGervillRegexSource p id))%nat).
      { pose proof (proj2 (refs_ok_source p id)). lia. }
      destruct (createGervillRegexSourceText p id) as [t id1].
      destruct (createGervillRegexSource p id) as [r id2].
      cbn [fst snd] in *. subst id2 r.
      eapply disj_ok_bar; [exact Hok | apply IH; assumption|].
      change (str "|") with [124%N]. rewrite !length_app. cbn [length]. lia.
Qed.

Lemma refs_ok_within (r : regex) :
  forall lo g n,
    refs_ok lo g r = true -> (1 <= lo)%nat -> (lo <= g)%nat ->
    (g + ngroups r <= S n)%nat -> backrefs_within n r = true.
Proof.
  induction r; intros lo g k H Hlo Hg Hn; cbn [refs_ok backrefs_within ngroups] in *;
    try reflexivity.
  - apply andb_true_iff in H as [H1 H2].
    rewrite (IHr1 lo g k H1), (IHr2 lo (g + ngroups r1)%nat k H2);
      try reflexivity; lia.
  - apply andb_true_iff in H as [H1 H2].
    rewrite (IHr1 g g k H1), (IHr2 (g + ngroups r1)%nat (g + ngroups r1)%nat
                                k H2);
      try reflexivity; lia.
  - apply (IHr lo g k H); lia.
  - apply (IHr lo (S g) k H); lia.
  - apply andb_true_iff in H as [H1 H2].
    apply Nat.leb_le in H1. apply Nat.ltb_lt in H2.
    apply andb_true_iff. split; apply Nat.leb_le; lia.
  - apply (IHr lo g k H); lia.
Qed.

(** X14: for package names whose components are identifiers (word
    characters, the first not a digit), the pattern text that
    [createGervillRegexSource] and the join with bars build is read by
    the constructor as one alternative for each package, and each
    back-reference in it refers to the capture group of its own
    alternative: the counter advances exactly when a package opens a
    group, and a package of one component neither opens a group nor
    advances the counter. *)
Theorem gervill_backrefs_in_step (pkgs : list jsstring) :
  Forall (fun p => forallb is_identifier (split_on 46 p) = true) pkgs ->
  parse_pattern (gervillSourceText pkgs 1) = Some (gervillAlternatives pkgs 1)
  /\ refs_ok 1 1 (gervillAlternatives pkgs 1) = true.
Proof.
  intros Hp. pose proof (refs_ok_alternatives pkgs 1) as Hrefs.
  split; [|exact Hrefs]. unfold parse_pattern.
  rewrite (alternatives_ok pkgs 1 (le_n 1) Hp _ (le_n _)).
  rewrite (refs_ok_within _ 1 1 _ Hrefs); [reflexivity | lia | lia | lia].
Qed.

Lemma gervill_backrefs_in_step_witness :
  parse_pattern (str "javax(\.|\/|\\|\\\\)sound|com(\.|\/|\\|\\\\)sun\2media\2sound")
  = Some gervillRegex
  /\ refs_ok 1 1 gervillRegex = true.
Proof.
  apply (gervill_backrefs_in_step packages). repeat constructor.
Defined.

(** A component that begins with a digit runs into the decimal escape
    before it: the text is not read as a reference to the group of the
    alternative. *)
Example digit_component_example :
  gervillSourceText [str "a.b.1c"] 1 = str "a(\.|\/|\\|\\\\)b\11c"
  /\ parse_pattern (gervillSourceText [str "a.b.1c"] 1) = None.
Proof. vm_compute. split; reflexivity. Qed.
